(** * pipeline-scheduler: the project input ingestor and the completion intake

    A shallow embedding of
    - [src/server/schedulers/projectPipelineScheduler.ts]
      (class [ProjectPipelineScheduler]: [muxInputOutputTiles],
      [performJsonUpdate], [parsePipelineInput], [parsePipelineDefaultInput],
      [parseDashboardInput], [refreshTileStatus]) and
    - [src/server/message-queue/mainQueue.ts]
      (class [MainQueue]: the [consume] callback, [handleOneMessage],
      [acknowledgeMessage]),
    followed by the properties of the specification stated over it. *)

From Stdlib Require Import ZArith String Ascii List Bool Lia.
From stdpp Require Import base option list gmap strings pretty.

Local Open Scope Z_scope.

(** * Part I: the program *)

(** ** Data model *)

(** Modelled from the spec: the enum [TilePipelineStatus] is declared in
    [basePipelineScheduler.ts], which is not among the sources; the spec
    gives its members as Incomplete=1 .. Canceled=6. *)
Inductive TilePipelineStatus : Type :=
  | Incomplete | Queued | Processing | Complete | Failed | Canceled.

#[global] Instance TilePipelineStatus_eq_dec : EqDecision TilePipelineStatus.
Proof. solve_decision. Defined.

(** A JavaScript [Date], as milliseconds since the epoch. *)
Definition Date : Type := Z.

(** [IPipelineTileAttributes] / [IPipelineTile]: one tile row.  Numbers are
    only ever copied by the code below, never computed on; [None] stands for
    [null] or an absent field.  The last five fields are absent on a tile
    that was just parsed and present on a row of the tile-status table. *)
Record IPipelineTileAttributes : Type := mkTile {
  relative_path : string;
  index : option Z;
  tile_name : string;
  prev_stage_status : TilePipelineStatus;
  this_stage_status : TilePipelineStatus;
  lat_x : option Z;
  lat_y : option Z;
  lat_z : option Z;
  step_x : option Z;
  step_y : option Z;
  step_z : option Z;
  duration : option Z;
  cpu_high : option Z;
  memory_high : option Z;
  created_at : option Date;
  updated_at : option Date
}.

Abbreviation IPipelineTile := IPipelineTileAttributes (only parsing).

#[global] Instance IPipelineTileAttributes_eq_dec : EqDecision IPipelineTileAttributes.
Proof. solve_decision. Defined.

(** [IMuxTileLists]: the plan returned by the muxer. *)
Record IMuxTileLists : Type := mkMux {
  toInsert : list IPipelineTileAttributes;
  toUpdate : list IPipelineTile;
  toReset : list IPipelineTile;
  toDelete : list string
}.

(** The identity key of each tile of a vector.  Modelled from the spec: the
    constant [DefaultPipelineIdKey] is declared in [basePipelineScheduler.ts],
    which is not among the sources; section 4.3 names [relative_path] as the
    identity key of the muxer. *)
Definition keys (l : list IPipelineTileAttributes) : list string :=
  relative_path <$> l.
#[global] Arguments keys : simpl never.

(** ** lodash *)

(** [_.differenceBy(array, values, DefaultPipelineIdKey)]: the elements of
    [array] whose key is the key of no element of [values], in the order of
    [array]; elements of [array] that share a key are all kept. *)
Definition differenceBy (array values : list IPipelineTileAttributes)
  : list IPipelineTileAttributes :=
  filter (λ t, relative_path t ∉ keys values) array.

(** The loop of lodash's [baseIntersection]: [seen] caches the keys already
    pushed to the result, so that of several elements of [array] with one key
    only the first is kept.  (The loop also stops once the result is as long
    as the shorter array; by then every key of that array is in [seen], so
    nothing more would be pushed.) *)
Fixpoint baseIntersection (seen : gset string)
    (array values : list IPipelineTileAttributes)
  : list IPipelineTileAttributes :=
  match array with
  | [] => []
  | value :: rest =>
      let computed := relative_path value in
      if decide (computed ∈ seen) then baseIntersection seen rest values
      else if decide (computed ∈ keys values)
           then value :: baseIntersection ({[computed]} ∪ seen) rest values
           else baseIntersection seen rest values
  end.

(** [_.intersectionBy(array, values, DefaultPipelineIdKey)]. *)
Definition intersectionBy (array values : list IPipelineTileAttributes)
  : list IPipelineTileAttributes :=
  baseIntersection ∅ array values.

(** ** The tile muxer: [muxInputOutputTiles] *)

(** The objects of [knownOutput] are mutated in place by the muxer and shared
    between [knownOutput], the map [existingTilePaths] and the [toUpdate]
    bucket.  An object is identified by its position in [knownOutput]; the
    store is the list of the objects' current contents. *)
Abbreviation Ref := nat (only parsing).
Abbreviation Store := (list IPipelineTileAttributes) (only parsing).

(** [knownOutput.map(t => existingTilePaths.set(t.relative_path, t))],
    starting at position [base] with the map [m]: a later object with the
    same key replaces an earlier one. *)
Fixpoint setAll (m : gmap string Ref) (base : nat) (l : list IPipelineTile)
  : gmap string Ref :=
  match l with
  | [] => m
  | t :: rest => setAll (<[relative_path t := base]> m) (S base) rest
  end.

Definition existingTilePaths (knownOutput : list IPipelineTile) : gmap string Ref :=
  setAll ∅ 0%nat knownOutput.

(** [Object.assign({}, inputTile, {duration: 0, cpu_high: 0, memory_high: 0,
    created_at: now, updated_at: now})]. *)
Definition assignInsert (inputTile : IPipelineTileAttributes) (now : Date)
  : IPipelineTileAttributes :=
  {| relative_path := relative_path inputTile;
     index := index inputTile;
     tile_name := tile_name inputTile;
     prev_stage_status := prev_stage_status inputTile;
     this_stage_status := this_stage_status inputTile;
     lat_x := lat_x inputTile; lat_y := lat_y inputTile; lat_z := lat_z inputTile;
     step_x := step_x inputTile; step_y := step_y inputTile; step_z := step_z inputTile;
     duration := Some 0; cpu_high := Some 0; memory_high := Some 0;
     created_at := Some now; updated_at := Some now |}.

(** The ten assignments to [existingTile] and [updated_at = new Date()]. *)
Definition assignUpdate (existingTile : IPipelineTile)
    (inputTile : IPipelineTileAttributes) (now : Date) : IPipelineTile :=
  {| relative_path := relative_path existingTile;
     index := index inputTile;
     tile_name := tile_name inputTile;
     prev_stage_status := prev_stage_status inputTile;
     this_stage_status := this_stage_status inputTile;
     lat_x := lat_x inputTile; lat_y := lat_y inputTile; lat_z := lat_z inputTile;
     step_x := step_x inputTile; step_y := step_y inputTile; step_z := step_z inputTile;
     duration := duration existingTile;
     cpu_high := cpu_high existingTile;
     memory_high := memory_high existingTile;
     created_at := created_at existingTile;
     updated_at := Some now |}.

(** The clock: [clock k] is what the [k]-th evaluation of [new Date()]
    during one call of the muxer returns (counted from 0). *)
Definition Clock : Type := nat → Date.

(** What [existingTilePaths.get(key)] evaluates to: the object stored under
    the key, or [undefined] when there is none.  The map never holds [null]:
    [set] is only called with objects of [knownOutput]. *)
Inductive JsRef : Type :=
  | JsUndefined
  | JsNull
  | JsObject (r : Ref).

Definition mapGet (paths : gmap string Ref) (k : string) : JsRef :=
  match paths !! k with
  | Some r => JsObject r
  | None => JsUndefined
  end.

(** The callback of [toUpdate.map], threaded through the elements of
    [toUpdate].  The state is the store and the number of clock readings made
    so far; the result lists, per element, the reference returned by the
    callback or [None] for [null].  The branch [existingTile === null] logs
    "unexpected missing tile" and returns [null].  The whole is [None] when
    the callback throws: for [undefined] the test against [null] is false,
    and reading [prev_stage_status] of [undefined] is a [TypeError].  (A
    reference always points into the store; the model gives [None] for one
    that does not.) *)
Fixpoint mergeTiles (clock : Clock) (paths : gmap string Ref)
    (toUpdate : list IPipelineTileAttributes) (st : Store) (ticks : nat)
  : option (list (option Ref) * Store * nat) :=
  match toUpdate with
  | [] => Some ([], st, ticks)
  | inputTile :: rest =>
      match mapGet paths (relative_path inputTile) with
      | JsNull =>
          match mergeTiles clock paths rest st ticks with
          | None => None
          | Some (rs, st', n) => Some (None :: rs, st', n)
          end
      | JsUndefined => None
      | JsObject r =>
          match st !! r with
          | None => None
          | Some existingTile =>
              if decide (prev_stage_status existingTile ≠ this_stage_status inputTile)
              then
                let st1 := <[r := assignUpdate existingTile inputTile (clock ticks)]> st in
                match mergeTiles clock paths rest st1 (S ticks) with
                | None => None
                | Some (rs, st', n) => Some (Some r :: rs, st', n)
                end
              else
                match mergeTiles clock paths rest st ticks with
                | None => None
                | Some (rs, st', n) => Some (None :: rs, st', n)
                end
          end
      end
  end.

(** [.filter(t => t !== null)], and the contents of the objects that remain. *)
Definition deref (st : Store) (rs : list (option Ref)) : list IPipelineTile :=
  omap (λ o : option Ref, o ≫= λ r : Ref, st !! r) rs.

(** What a call of [muxInputOutputTiles] does. *)
Inductive MuxResult : Type :=
  | MuxThrows
  | MuxNoPlan
  | MuxPlan (sorted : IMuxTileLists) (knownOutput' : Store).

(** [muxInputOutputTiles(knownInput, knownOutput)].  [MuxNoPlan] is the bare
    [return] of the mass-deletion guard; [MuxPlan sorted knownOutput'] is
    [return sorted] together with the contents of the objects of
    [knownOutput] after the call. *)
Definition muxInputOutputTiles (clock : Clock)
    (knownInput : list IPipelineTileAttributes) (knownOutput : list IPipelineTile)
  : MuxResult :=
  if decide (Z.of_nat (length knownOutput) - Z.of_nat (length knownInput) > 1000)
  then MuxNoPlan
  else
    let toInsert0 := differenceBy knownInput knownOutput in
    let toUpdate0 := intersectionBy knownInput knownOutput in
    let toDelete1 := relative_path <$> differenceBy knownOutput knownInput in
    let toInsert1 := imap (λ k inputTile, assignInsert inputTile (clock k)) toInsert0 in
    match mergeTiles clock (existingTilePaths knownOutput) toUpdate0 knownOutput
            (length toInsert0) with
    | None => MuxThrows
    | Some (rs, st', _) =>
        MuxPlan {| toInsert := toInsert1; toUpdate := deref st' rs;
                   toReset := []; toDelete := toDelete1 |} st'
    end.

(** ** The path mapper: the head of [performJsonUpdate] *)

(** One entry of [ServiceOptions.driveMapping]. *)
Record DriveMapping : Type := mkDrive {
  remote : string;
  local : string
}.

(** [s.startsWith(p)]. *)
Definition startsWith (s p : string) : bool := String.prefix p s.

(** [s.slice(n)] for [0 ≤ n]: [s] without its first [n] characters. *)
Fixpoint slice (s : string) (n : nat) {struct n} : string :=
  match n, s with
  | O, _ => s
  | S n', String _ s' => slice s' n'
  | S _, EmptyString => EmptyString
  end.

(** The callback of [ServiceOptions.driveMapping.map]: it reads and assigns
    the variable [root] of the enclosing function. *)
Definition mapDrive (root : string) (d : DriveMapping) : string :=
  if startsWith root (remote d)
  then local d +:+ slice root (String.length (remote d))
  else root.

(** [let root = this._project.root_path; ServiceOptions.driveMapping.map(...)]:
    the callback runs for every entry, in order, on the current [root]. *)
Definition mapRoot (driveMapping : list DriveMapping) (root_path : string) : string :=
  fold_left mapDrive driveMapping root_path.

(** ** The inventory reader and writer *)

(** *** Inventory documents *)

Definition backslash : ascii := ascii_of_nat 92.
Definition slash : ascii := ascii_of_nat 47.

(** [relativePath.replace(new RegExp("\\" + "\\", "g"), "/")]: the pattern is
    one literal backslash, replaced at every occurrence. *)
Fixpoint replaceBackslashes (s : string) : string :=
  match s with
  | EmptyString => EmptyString
  | String c rest =>
      String (if Ascii.eqb c backslash then slash else c) (replaceBackslashes rest)
  end.

(** A scalar JSON value; an absent field ([undefined]) is [None] at its use. *)
Inductive JsonValue : Type :=
  | JNull
  | JBool (b : bool)
  | JNumber (n : Z)
  | JString (s : string).

Definition isNullOrUndefined (v : option JsonValue) : bool :=
  match v with
  | None | Some JNull => true
  | Some _ => false
  end.

Module IPosition.
Record t : Type := mk {
  x : option Z;
  y : option Z;
  z : option Z
}.
End IPosition.

(** [{x: null, y: null, z: null}]. *)
Definition nullPosition : IPosition.t :=
  {| IPosition.x := None; IPosition.y := None; IPosition.z := None |}.

Module IJsonTile.
Record t : Type := mk {
  id : option Z;
  relativePath : string;
  position : option IPosition.t;
  step : option IPosition.t;
  isComplete : bool
}.
End IJsonTile.

Record IDashboardTileContents : Type := mkContents {
  latticePosition : option IPosition.t;
  latticeStep : option IPosition.t
}.

Module IDashboardJsonTile.
Record t : Type := mk {
  id : option Z;
  relativePath : string;
  contents : IDashboardTileContents;
  isComplete : bool
}.
End IDashboardJsonTile.

(** [jsonContent.extents], respectively [jsonContent.monitor.extents]. *)
Record Extents : Type := mkExtents {
  minimumX : option Z;
  maximumX : option Z;
  minimumY : option Z;
  maximumY : option Z;
  minimumZ : option Z;
  maximumZ : option Z
}.

(** The parsed document [jsonContent], with the fields that the two parsers
    read.  [tiles] and [monitor] are [None] when the document lacks them;
    [tileMap] lists the own properties of [jsonContent.tileMap] in the order
    in which [for ... in] enumerates them (none when the field is absent). *)
Record JsonContent : Type := mkJson {
  pipelineFormat : option JsonValue;
  extents : option Extents;
  tiles : option (list IJsonTile.t);
  monitor : option (option Extents);
  tileMap : list (string * list IDashboardJsonTile.t)
}.

(** *** Projects and the world the ingestor acts on *)

(** Modelled from the spec: the enum [ProjectInputSourceState] is declared in
    [data-model/sequelize/project.ts], which is not among the sources; the
    spec lists its members. *)
Inductive ProjectInputSourceState : Type :=
  | Unknown | Pipeline | Dashboard | Missing | BadLocation.

(** [IProjectAttributes]: the fields of a project that the ingestor reads or
    writes.  The same record serves for the project row and for the
    [projectUpdate] that the parsers fill in. *)
Module IProject.
Record t : Type := mk {
  id : string;
  root_path : string;
  sample_x_min : option Z;
  sample_x_max : option Z;
  sample_y_min : option Z;
  sample_y_max : option Z;
  sample_z_min : option Z;
  sample_z_max : option Z;
  input_source_state : ProjectInputSourceState
}.
End IProject.

(** What a file holds, as far as [JSON.parse] and the parsers can tell. *)
Inductive FileContent : Type :=
  | NotJson
  | InventoryDoc (jsonContent : JsonContent)
  | TileVector (tiles : list IPipelineTileAttributes).

Inductive FileNode : Type :=
  | Directory
  | File (content : FileContent).

(** The state the ingestor of one project acts on: the file system, the
    project row, and the project's stage-zero tile-status table. *)
Record World : Type := mkWorld {
  fs : gmap string FileNode;
  project : IProject.t;
  tileTable : list IPipelineTileAttributes
}.

(** How a call ends: with a value, or by throwing; either way in a world. *)
Inductive Outcome (A : Type) : Type :=
  | Returns (a : A) (w : World)
  | Throws (w : World).
Arguments Returns {A} a w.
Arguments Throws {A} w.

Definition worldOf {A : Type} (o : Outcome A) : World :=
  match o with
  | Returns _ w => w
  | Throws w => w
  end.

(** [fse.existsSync(p)]. *)
Definition existsSync (w : World) (p : string) : bool :=
  bool_decide (is_Some (fs w !! p)).

(** [PipelineApiClient.Instance().updateProject(this._project.id, state)]. *)
Definition updateProject (state : ProjectInputSourceState) (w : World) : World :=
  let p := project w in
  {| fs := fs w;
     project := {| IProject.id := IProject.id p;
                   IProject.root_path := IProject.root_path p;
                   IProject.sample_x_min := IProject.sample_x_min p;
                   IProject.sample_x_max := IProject.sample_x_max p;
                   IProject.sample_y_min := IProject.sample_y_min p;
                   IProject.sample_y_max := IProject.sample_y_max p;
                   IProject.sample_z_min := IProject.sample_z_min p;
                   IProject.sample_z_max := IProject.sample_z_max p;
                   IProject.input_source_state := state |};
     tileTable := tileTable w |}.

(** The six assignments [projectUpdate.sample_x_min = extents.minimumX] ... *)
Definition withExtents (projectUpdate : IProject.t) (e : Extents) : IProject.t :=
  {| IProject.id := IProject.id projectUpdate;
     IProject.root_path := IProject.root_path projectUpdate;
     IProject.sample_x_min := minimumX e;
     IProject.sample_x_max := maximumX e;
     IProject.sample_y_min := minimumY e;
     IProject.sample_y_max := maximumY e;
     IProject.sample_z_min := minimumZ e;
     IProject.sample_z_max := maximumZ e;
     IProject.input_source_state := IProject.input_source_state projectUpdate |}.

(** [await this._project.update(projectUpdate)] followed by the reload
    [findById]: the six sample bounds of the row take the values of
    [projectUpdate]. *)
Definition updateExtents (projectUpdate : IProject.t) (w : World) : World :=
  let p := project w in
  {| fs := fs w;
     project := {| IProject.id := IProject.id p;
                   IProject.root_path := IProject.root_path p;
                   IProject.sample_x_min := IProject.sample_x_min projectUpdate;
                   IProject.sample_x_max := IProject.sample_x_max projectUpdate;
                   IProject.sample_y_min := IProject.sample_y_min projectUpdate;
                   IProject.sample_y_max := IProject.sample_y_max projectUpdate;
                   IProject.sample_z_min := IProject.sample_z_min projectUpdate;
                   IProject.sample_z_max := IProject.sample_z_max projectUpdate;
                   IProject.input_source_state := IProject.input_source_state p |};
     tileTable := tileTable w |}.

(** [let projectUpdate = {id: this._project.id}]. *)
Definition projectUpdateOf (w : World) : IProject.t :=
  {| IProject.id := IProject.id (project w);
     IProject.root_path := EmptyString;
     IProject.sample_x_min := None; IProject.sample_x_max := None;
     IProject.sample_y_min := None; IProject.sample_y_max := None;
     IProject.sample_z_min := None; IProject.sample_z_max := None;
     IProject.input_source_state := Unknown |}.

Definition setFs (f : gmap string FileNode) (w : World) : World :=
  {| fs := f; project := project w; tileTable := tileTable w |}.

Definition setTileTable (t : list IPipelineTileAttributes) (w : World) : World :=
  {| fs := fs w; project := project w; tileTable := t |}.

Definition pipelineInputJsonFile : string := "pipeline-input.json".
Definition dashboardJsonFile : string := "dashboard.json".
Definition tileStatusJsonFile : string := "pipeline-storage.json".
Definition tileStatusLastJsonFile : string := tileStatusJsonFile +:+ ".last".

(** *** The table as a keyed store *)

(** The first, respectively last, element of a vector that has a given key. *)
Definition firstByKey (k : string) (l : list IPipelineTileAttributes)
  : option IPipelineTileAttributes :=
  head (filter (λ t, relative_path t = k) l).

Fixpoint lastIndex (k : string) (l : list IPipelineTileAttributes) : option nat :=
  match l with
  | [] => None
  | t :: rest =>
      match lastIndex k rest with
      | Some j => Some (S j)
      | None => if decide (relative_path t = k) then Some 0%nat else None
      end
  end.

Definition lastByKey (k : string) (l : list IPipelineTileAttributes)
  : option IPipelineTileAttributes :=
  lastIndex k l ≫= λ j, l !! j.

(** Modelled from the spec: the table connector ([StageTableConnector]) is
    not among the sources.  Section 4.5, step 3: the plan is applied to the
    persisted table, inserts, then updates, then deletes; the table is a
    keyed store with [relative_path] as the key. *)
Definition applyPlan (sorted : IMuxTileLists) (table : list IPipelineTileAttributes)
  : list IPipelineTileAttributes :=
  let inserted := table ++ toInsert sorted in
  let updated :=
    (λ row, default row (firstByKey (relative_path row) (toUpdate sorted))) <$> inserted in
  filter (λ row, relative_path row ∉ toDelete sorted) updated.

Section Ingestor.

(** Node's [path.join] and [path.basename], and the configured
    [ServiceOptions.driveMapping]. *)
Variable path_join : string → string → string.
Variable path_basename : string → string.
Variable driveMapping : list DriveMapping.

(** *** The parsers *)

(** [tile.isComplete ? TilePipelineStatus.Complete : TilePipelineStatus.Incomplete]. *)
Definition statusOf (isComplete : bool) : TilePipelineStatus :=
  if isComplete then Complete else Incomplete.

(** The object pushed to [tiles] by the callback of
    [jsonContent.tiles.forEach] in [parsePipelineDefaultInput]. *)
Definition pipelineTile (tile : IJsonTile.t) : IPipelineTileAttributes :=
  let normalizedPath := replaceBackslashes (IJsonTile.relativePath tile) in
  let tileName := path_basename normalizedPath in
  let position := default nullPosition (IJsonTile.position tile) in
  let step := default nullPosition (IJsonTile.step tile) in
  {| relative_path := normalizedPath;
     index := IJsonTile.id tile;
     tile_name := tileName;
     prev_stage_status := statusOf (IJsonTile.isComplete tile);
     this_stage_status := statusOf (IJsonTile.isComplete tile);
     lat_x := IPosition.x position;
     lat_y := IPosition.y position;
     lat_z := IPosition.z position;
     step_x := IPosition.x step;
     step_y := IPosition.y step;
     step_z := IPosition.z step;
     duration := None; cpu_high := None; memory_high := None;
     created_at := None; updated_at := None |}.

(** The object pushed to [tiles] by the callback of
    [jsonContent.tileMap[prop].forEach] in [parseDashboardInput]. *)
Definition dashboardTile (tile : IDashboardJsonTile.t) : IPipelineTileAttributes :=
  let normalizedPath := replaceBackslashes (IDashboardJsonTile.relativePath tile) in
  let tileName := path_basename normalizedPath in
  let position :=
    default nullPosition (latticePosition (IDashboardJsonTile.contents tile)) in
  let step :=
    default nullPosition (latticeStep (IDashboardJsonTile.contents tile)) in
  {| relative_path := normalizedPath;
     index := IDashboardJsonTile.id tile;
     tile_name := tileName;
     prev_stage_status := statusOf (IDashboardJsonTile.isComplete tile);
     this_stage_status := statusOf (IDashboardJsonTile.isComplete tile);
     lat_x := IPosition.x position;
     lat_y := IPosition.y position;
     lat_z := IPosition.z position;
     step_x := IPosition.x step;
     step_y := IPosition.y step;
     step_z := IPosition.z step;
     duration := None; cpu_high := None; memory_high := None;
     created_at := None; updated_at := None |}.

(** The block [if (extents) { ...; await this._project.update(projectUpdate);
    this._project = await ...findById(...) }] that opens both parsers. *)
Definition applyExtents (e : option Extents) (projectUpdate : IProject.t) (w : World)
  : IProject.t * World :=
  match e with
  | Some e =>
      let projectUpdate := withExtents projectUpdate e in
      (projectUpdate, updateExtents projectUpdate w)
  | None => (projectUpdate, w)
  end.

(** [parsePipelineDefaultInput(jsonContent, projectUpdate)].  Without a
    [tiles] array the call of [forEach] throws. *)
Definition parsePipelineDefaultInput (jsonContent : JsonContent)
    (projectUpdate : IProject.t) (w : World)
  : Outcome (IProject.t * list IPipelineTileAttributes) :=
  let '(projectUpdate, w) := applyExtents (extents jsonContent) projectUpdate w in
  match tiles jsonContent with
  | None => Throws w
  | Some ts => Returns (projectUpdate, pipelineTile <$> ts) w
  end.

(** [parseDashboardInput(jsonContent, projectUpdate)].  Without a [monitor]
    object the read of [monitor.extents] throws. *)
Definition parseDashboardInput (jsonContent : JsonContent)
    (projectUpdate : IProject.t) (w : World)
  : Outcome (IProject.t * list IPipelineTileAttributes) :=
  match monitor jsonContent with
  | None => Throws w
  | Some e =>
      let '(projectUpdate, w) := applyExtents e projectUpdate w in
      Returns (projectUpdate,
               tileMap jsonContent ≫= λ group, dashboardTile <$> group.2) w
  end.

(** [parsePipelineInput(dataFile, projectUpdate)]: [readFileSync] and
    [JSON.parse] throw on a directory or a missing file and on text that is
    not JSON; a document that is a bare array has neither [pipelineFormat]
    nor [monitor], so that the dashboard parser throws on it. *)
Definition parsePipelineInput (dataFile : string) (projectUpdate : IProject.t)
    (w : World) : Outcome (IProject.t * list IPipelineTileAttributes) :=
  match fs w !! dataFile with
  | Some (File (InventoryDoc jsonContent)) =>
      if negb (isNullOrUndefined (pipelineFormat jsonContent))
      then parsePipelineDefaultInput jsonContent projectUpdate w
      else parseDashboardInput jsonContent projectUpdate w
  | _ => Throws w
  end.

(** *** [performJsonUpdate] *)

(** [fse.copySync(src, dest, {clobber: true})] of fs-extra 1.0.  A file is
    copied over [dest] after [dest] has been unlinked, which throws when
    [dest] is a directory.  For a directory, [dest] is made a directory when
    nothing is there; the entries of the directory, which would be copied
    below [dest], are not part of this model.  [None] is a throw. *)
Definition copySync (src dest : string) (files : gmap string FileNode)
  : option (gmap string FileNode) :=
  match files !! src with
  | None => None
  | Some (File content) =>
      match files !! dest with
      | Some Directory => None
      | _ => Some (<[dest := File content]> files)
      end
  | Some Directory =>
      match files !! dest with
      | None => Some (<[dest := Directory]> files)
      | Some _ => Some files
      end
  end.

(** The tail of [performJsonUpdate], from [let outputFile] on: the previous
    snapshot, if there is one, is copied over the backup and unlinked, then
    the tiles are written.  [copySync] throws when the backup is a
    directory, [unlinkSync] when the snapshot is one. *)
Definition writeTileStatus (root : string) (tiles : list IPipelineTileAttributes)
    (w : World) : Outcome (list IPipelineTileAttributes) :=
  let outputFile := path_join root tileStatusJsonFile in
  let backupFile := path_join root tileStatusLastJsonFile in
  let copied :=
    if existsSync w outputFile
    then copySync outputFile backupFile (fs w)
    else Some (fs w) in
  match copied with
  | None => Throws w
  | Some fs1 =>
      match fs1 !! outputFile with
      | Some Directory => Throws (setFs fs1 w)
      | _ =>
          let fs2 := delete outputFile fs1 in
          Returns tiles (setFs (<[outputFile := File (TileVector tiles)]> fs2) w)
      end
  end.

(** The part of [performJsonUpdate] after a data file has been chosen. *)
Definition parseAndStore (root dataFile : string) (w : World)
  : Outcome (list IPipelineTileAttributes) :=
  match parsePipelineInput dataFile (projectUpdateOf w) w with
  | Throws w' => Throws w'
  | Returns (_, tiles) w' => writeTileStatus root tiles w'
  end.

Definition performJsonUpdate (w : World) : Outcome (list IPipelineTileAttributes) :=
  let root := mapRoot driveMapping (IProject.root_path (project w)) in
  if negb (existsSync w root) then Returns [] (updateProject BadLocation w)
  else
    let dataFile := path_join root pipelineInputJsonFile in
    if negb (existsSync w dataFile) then
      let dataFile := path_join root dashboardJsonFile in
      if negb (existsSync w dataFile)
      then Returns [] (updateProject Missing w)
      else parseAndStore root dataFile (updateProject Dashboard w)
    else parseAndStore root dataFile (updateProject Pipeline w).

(** *** One tick: [refreshTileStatus] *)

(** Modelled from the spec: [refreshWithKnownInput] is a method of the base
    class [BasePipelineScheduler] ([basePipelineScheduler.ts], not among the
    sources).  Section 4.5, steps 2 and 3: the muxer is run against the
    current persisted tile vector; if the guard fired the tick is skipped,
    otherwise the plan is applied to the persisted table. *)
Definition refreshWithKnownInput (clock : Clock)
    (knownInput : list IPipelineTileAttributes) (w : World) : Outcome unit :=
  match muxInputOutputTiles clock knownInput (tileTable w) with
  | MuxThrows => Throws w
  | MuxNoPlan => Returns () w
  | MuxPlan sorted _ => Returns () (setTileTable (applyPlan sorted (tileTable w)) w)
  end.

(** [refreshTileStatus()]: [performJsonUpdate], then
    [refreshWithKnownInput], then [return true]. *)
Definition refreshTileStatus (clock : Clock) (w : World) : Outcome bool :=
  match performJsonUpdate w with
  | Throws w' => Throws w'
  | Returns knownInput w' =>
      match refreshWithKnownInput clock knownInput w' with
      | Throws w'' => Throws w''
      | Returns _ w'' => Returns true w''
      end
  end.

End Ingestor.

(** ** The completion intake: [MainQueue] *)

Module MainQueue.

(** The fields of [IWorkerTaskExecutionAttributes] that identify a completion
    record and the three timestamps that the consumer re-materializes. *)
Record IWorkerTaskExecutionAttributes : Type := mkTaskExecution {
  remote_task_execution_id : string;
  pipeline_stage_id : string;
  tile_id : string;
  submitted_at : Date;
  started_at : Date;
  completed_at : Date
}.

(** A delivery: [content] is what [JSON.parse(msg.content.toString())] and
    the three [new Date(...)] make of the payload, [None] when [JSON.parse]
    throws. *)
Record Message : Type := mkMessage {
  deliveryTag : nat;
  content : option IWorkerTaskExecutionAttributes
}.

(** How an awaited promise of a collaborator settles. *)
Inductive Answer (A : Type) : Type :=
  | Fulfilled (a : A)
  | Rejected.
Arguments Fulfilled {A} a.
Arguments Rejected {A}.

(** What the two collaborators answer during one call of
    [acknowledgeMessage]: [MetricsConnector.writeTaskExecution] and
    [SchedulerHub.onTaskExecutionComplete]. *)
Record Attempt : Type := mkAttempt {
  writeTaskExecution : Answer unit;
  onTaskExecutionComplete : Answer bool
}.

(** The collaborators, as seen by one message: [env n] is what they answer
    during the [n]-th call of [acknowledgeMessage] for it (counted from 0). *)
Abbreviation Env := (nat → Attempt) (only parsing).

(** What can be observed of the processing of one message, in order. *)
Inductive Event : Type :=
  | EvWriteTaskExecution (taskExecution : IWorkerTaskExecutionAttributes)
  | EvOnTaskExecutionComplete (taskExecution : IWorkerTaskExecutionAttributes) (ack : bool)
  | EvSetTimeout
  | EvUnhandledRejection
  | EvAck (tag : nat)
  | EvDebug.

#[global] Instance IWorkerTaskExecutionAttributes_eq_dec :
  EqDecision IWorkerTaskExecutionAttributes.
Proof. solve_decision. Defined.

#[global] Instance Event_eq_dec : EqDecision Event.
Proof. solve_decision. Defined.

(** How the promise built by [handleOneMessage] stands: resolved; pending for
    ever, because a call of [acknowledgeMessage] was rejected and nothing
    will call [resolve]; or still retrying when the observation ends. *)
Inductive Settled : Type :=
  | Resolved
  | Abandoned
  | Retrying.

(** [acknowledgeMessage(taskExecution, resolve)], as the [n]-th call for the
    message; [fuel] bounds the number of calls that are observed.  On a
    refusal of the hub the timer calls the whole function again. *)
Fixpoint acknowledgeMessage (fuel : nat) (env : Env)
    (taskExecution : IWorkerTaskExecutionAttributes) (n : nat)
  : list Event * Settled :=
  match fuel with
  | O => ([], Retrying)
  | S fuel' =>
      match writeTaskExecution (env n) with
      | Rejected => ([EvUnhandledRejection], Abandoned)
      | Fulfilled _ =>
          match onTaskExecutionComplete (env n) with
          | Rejected =>
              ([EvWriteTaskExecution taskExecution; EvUnhandledRejection], Abandoned)
          | Fulfilled true =>
              ([EvWriteTaskExecution taskExecution;
                EvOnTaskExecutionComplete taskExecution true], Resolved)
          | Fulfilled false =>
              let '(trace, s) := acknowledgeMessage fuel' env taskExecution (S n) in
              (EvWriteTaskExecution taskExecution
                 :: EvOnTaskExecutionComplete taskExecution false
                 :: EvSetTimeout :: trace, s)
          end
      end
  end.

(** [handleOneMessage(taskExecution)]: a promise that is resolved by the
    first call of [acknowledgeMessage] or by one of its retries. *)
Definition handleOneMessage (fuel : nat) (env : Env)
    (taskExecution : IWorkerTaskExecutionAttributes) : list Event * Settled :=
  acknowledgeMessage fuel env taskExecution 0.

(** The callback given to [channel.consume], on an open channel.  A payload
    that does not parse is logged and left unacknowledged; otherwise the
    delivery is acknowledged once [handleOneMessage] has resolved. *)
Definition consumeCallback (fuel : nat) (env : Env) (msg : Message) : list Event :=
  match content msg with
  | None => [EvDebug]
  | Some taskExecution2 =>
      let '(trace, s) := handleOneMessage fuel env taskExecution2 in
      match s with
      | Resolved => trace ++ [EvAck (deliveryTag msg)]
      | Abandoned | Retrying => trace
      end
  end.

(** ** Connecting to the broker *)

(** The name of the queue, [TaskExecutionUpdateQueue]. *)
Definition TaskExecutionUpdateQueue : string := "TaskExecutionUpdateQueue".

(** What the broker does with one run of the [try] block of
    [connectToQueue]: the awaited call that throws, or none. *)
Inductive Broker : Type :=
  | ConnectFails
  | CreateChannelFails
  | AssertQueueFails
  | PrefetchFails
  | ConsumeFails
  | Ready.

#[global] Instance Broker_eq_dec : EqDecision Broker.
Proof. solve_decision. Defined.

(** The calls that [connectToQueue] makes, in order.  The connection and the
    channel that the [n]-th run obtains are numbered [n]. *)
Inductive SetupEvent : Type :=
  | AmqpConnect
  | CreateChannel (connection : nat)
  | OnError (connection : nat)
  | AssertQueue (channel : nat) (queue : string) (durable : bool)
  | Prefetch (channel : nat) (count : Z)
  | Consume (channel : nat) (queue : string) (noAck : bool)
  | ResolveConnect
  | SetTimeout (ms : Z).

#[global] Instance SetupEvent_eq_dec : EqDecision SetupEvent.
Proof. solve_decision. Defined.

(** The two private fields of [MainQueue]; [None] is [null]. *)
Record Fields : Type := mkFields {
  connection : option nat;
  channel : option nat
}.

(** The [try] block of [connectToQueue] in its [n]-th run: the calls made,
    the fields as the block leaves them, and whether it ran to [resolve()].
    The assignments to [this.connection] and [this.channel] happen as soon
    as the awaited call has returned. *)
Definition tryBlock (broker : Broker) (n : nat) (self : Fields)
  : list SetupEvent * Fields * bool :=
  if bool_decide (broker = ConnectFails) then ([AmqpConnect], self, false) else
  let self := {| connection := Some n; channel := channel self |} in
  if bool_decide (broker = CreateChannelFails)
  then ([AmqpConnect; CreateChannel n], self, false) else
  let self := {| connection := connection self; channel := Some n |} in
  if bool_decide (broker = AssertQueueFails)
  then ([AmqpConnect; CreateChannel n; OnError n;
         AssertQueue n TaskExecutionUpdateQueue true], self, false) else
  if bool_decide (broker = PrefetchFails)
  then ([AmqpConnect; CreateChannel n; OnError n;
         AssertQueue n TaskExecutionUpdateQueue true; Prefetch n 50], self, false) else
  if bool_decide (broker = ConsumeFails)
  then ([AmqpConnect; CreateChannel n; OnError n;
         AssertQueue n TaskExecutionUpdateQueue true; Prefetch n 50;
         Consume n TaskExecutionUpdateQueue false], self, false) else
  ([AmqpConnect; CreateChannel n; OnError n;
    AssertQueue n TaskExecutionUpdateQueue true; Prefetch n 50;
    Consume n TaskExecutionUpdateQueue false; ResolveConnect], self, true).

(** [connectToQueue(resolve)], as the [n]-th run; [broker n] is what the
    broker does with it and [fuel] bounds the number of runs observed.  The
    [catch] block re-schedules the whole function after [15 * 1000] ms. *)
Fixpoint connectToQueue (fuel : nat) (broker : nat → Broker) (n : nat)
    (self : Fields) : list SetupEvent * Fields * Settled :=
  match fuel with
  | O => ([], self, Retrying)
  | S fuel' =>
      let '(calls, self', ready) := tryBlock (broker n) n self in
      if ready then (calls, self', Resolved)
      else
        let '(rest, self'', s) := connectToQueue fuel' broker (S n) self' in
        (calls ++ SetTimeout (15 * 1000) :: rest, self'', s)
  end.

(** [connect()]: a promise that the first run of [connectToQueue] or one of
    its retries resolves. *)
Definition connect (fuel : nat) (broker : nat → Broker) (self : Fields)
  : list SetupEvent * Fields * Settled :=
  connectToQueue fuel broker 0 self.

End MainQueue.

Import MainQueue.

(** * Part II: the notions used in the statements *)

(** ** The muxer *)

(** What [mergeTiles] computes when every object is visited at most once:
    each input tile is compared with, and merged into, the contents that its
    object had before the call. *)
Fixpoint mergePure (clock : Clock) (look : string → option IPipelineTile)
    (l : list IPipelineTileAttributes) (ticks : nat) : list IPipelineTile :=
  match l with
  | [] => []
  | inputTile :: rest =>
      match look (relative_path inputTile) with
      | Some existingTile =>
          if decide (prev_stage_status existingTile ≠ this_stage_status inputTile)
          then assignUpdate existingTile inputTile (clock ticks)
                 :: mergePure clock look rest (S ticks)
          else mergePure clock look rest ticks
      | None => mergePure clock look rest ticks
      end
  end.

(** The object that the map holds for a key, with its contents in [st]. *)
Definition lookupTile (paths : gmap string Ref) (st : Store) (k : string)
  : option IPipelineTile :=
  paths !! k ≫= λ r, st !! r.

(** Every reference of the map points to an object of the store that
    carries the key it is filed under. *)
Definition storeInv (paths : gmap string Ref) (st : Store) : Prop :=
  ∀ k r, paths !! k = Some r → ∃ t, st !! r = Some t ∧ relative_path t = k.

(** A lookup that files every row under its own key. *)
Definition keyed (look : string → option IPipelineTile) : Prop :=
  ∀ k o, look k = Some o → relative_path o = k.

(** The mass-deletion guard. *)
Definition guardFires (knownInput knownOutput : list IPipelineTileAttributes) : Prop :=
  Z.of_nat (length knownOutput) - Z.of_nat (length knownInput) > 1000.

#[global] Instance guardFires_dec knownInput knownOutput :
  Decision (guardFires knownInput knownOutput).
Proof. unfold guardFires. apply _. Defined.

(** The plan in closed form. *)
Definition planOf (clock : Clock)
    (knownInput knownOutput : list IPipelineTileAttributes) : IMuxTileLists :=
  {| toInsert := imap (λ k inputTile, assignInsert inputTile (clock k))
                      (differenceBy knownInput knownOutput);
     toUpdate := mergePure clock (λ k, lastByKey k knownOutput)
                           (intersectionBy knownInput knownOutput)
                           (length (differenceBy knownInput knownOutput));
     toReset := [];
     toDelete := relative_path <$> differenceBy knownOutput knownInput |}.

(** The claim of C8 as the spec words it: every bucket of a plan has at most
    one entry per [relative_path]. *)
Definition bucketsDeduplicated (clock : Clock)
    (knownInput knownOutput : list IPipelineTileAttributes) : Prop :=
  ∀ sorted knownOutput',
    muxInputOutputTiles clock knownInput knownOutput = MuxPlan sorted knownOutput' →
    NoDup (keys (toInsert sorted)) ∧ NoDup (keys (toUpdate sorted)) ∧
    NoDup (toDelete sorted).

(** ** The path mapper *)

(** The path mapper as the spec words it (section 4.1): the first pair whose
    [remote] is a prefix of the path rewrites it, and no pair is tried after
    the first match. *)
Fixpoint pathMapperSpec (driveMapping : list DriveMapping) (path : string) : string :=
  match driveMapping with
  | [] => path
  | d :: rest =>
      if startsWith path (remote d)
      then local d +:+ slice path (String.length (remote d))
      else pathMapperSpec rest path
  end.

(** ** Path normalization *)

(** What one character of the input becomes. *)
Definition slashOf (c : ascii) : ascii :=
  if Ascii.eqb c backslash then slash else c.

(** [output] is [input] with every backslash replaced by a forward slash:
    same length, and position by position the same character, except that a
    backslash has become a slash. *)
Definition backslashesReplaced (input output : string) : Prop :=
  String.length output = String.length input ∧
  ∀ n, String.get n output = slashOf <$> String.get n input.

Definition noBackslash (s : string) : Prop :=
  ∀ n, String.get n s ≠ Some backslash.

(** The [relativePath] of every tile record of a document, in the order in
    which the parser that the document is dispatched to visits them. *)
Definition documentPaths (jsonContent : JsonContent) : list string :=
  if negb (isNullOrUndefined (pipelineFormat jsonContent))
  then IJsonTile.relativePath <$> default [] (tiles jsonContent)
  else tileMap jsonContent ≫= λ group, IDashboardJsonTile.relativePath <$> group.2.

(** A tile whose [relative_path] is the normalization of [input]. *)
Definition normalizedFrom (input : string) (t : IPipelineTileAttributes) : Prop :=
  relative_path t = replaceBackslashes input ∧
  backslashesReplaced input (relative_path t) ∧
  noBackslash (relative_path t).

(** ** The ingestor *)

(** Two worlds that differ at most in the sample bounds of the project row. *)
Definition sameStorage (w w' : World) : Prop :=
  fs w' = fs w ∧ tileTable w' = tileTable w ∧
  IProject.input_source_state (project w') = IProject.input_source_state (project w).

(** Whether [performJsonUpdate] finds an inventory file to parse. *)
Definition inventoryFound (path_join : string → string → string) (w : World)
    (root : string) : bool :=
  existsSync w root &&
  (existsSync w (path_join root pipelineInputJsonFile) ||
   existsSync w (path_join root dashboardJsonFile)).

(** The claim of C1 as the spec words it, for the tick that starts in [w]:
    if the guard fires on what the tick parsed, the tick has left the
    snapshot file [pipeline-storage.json] untouched and the tile-status table
    as it was. *)
Definition guardTickWritesNothing (path_join : string → string → string)
    (path_basename : string → string) (driveMapping : list DriveMapping)
    (clock : Clock) (w : World) : Prop :=
  ∀ knownInput w1,
    performJsonUpdate path_join path_basename driveMapping w = Returns knownInput w1 →
    guardFires knownInput (tileTable w1) →
    let w' := worldOf (refreshTileStatus path_join path_basename driveMapping clock w) in
    let outputFile :=
      path_join (mapRoot driveMapping (IProject.root_path (project w))) tileStatusJsonFile in
    fs w' !! outputFile = fs w !! outputFile ∧ tileTable w' = tileTable w.

(** ** The completion intake *)

(** Whether an event is a metrics write, a successful dispatch to the hub,
    an acknowledgement. *)
Definition isWrite (e : Event) : bool :=
  match e with EvWriteTaskExecution _ => true | _ => false end.
Definition isHandled (e : Event) : bool :=
  match e with EvOnTaskExecutionComplete _ true => true | _ => false end.
Definition isAck (e : Event) : bool :=
  match e with EvAck _ => true | _ => false end.

(** How many events of a trace satisfy a test. *)
Definition count (p : Event → bool) (trace : list Event) : nat :=
  length (filter (λ e, p e = true) trace).

(** One refused round: write, refused dispatch, timer. *)
Definition refusedRound (taskExecution : IWorkerTaskExecutionAttributes) : list Event :=
  [EvWriteTaskExecution taskExecution;
   EvOnTaskExecutionComplete taskExecution false; EvSetTimeout].

(** [k] refused rounds in a row. *)
Fixpoint refusedRounds (k : nat) (taskExecution : IWorkerTaskExecutionAttributes)
  : list Event :=
  match k with
  | O => []
  | S k' => refusedRound taskExecution ++ refusedRounds k' taskExecution
  end.

(** The claim of C5 as the spec words it: a message whose processing
    returns success has had exactly one metrics write and at least one
    successful dispatch. *)
Definition oneWritePerMessage (fuel : nat) (env : Env)
    (taskExecution : IWorkerTaskExecutionAttributes) : Prop :=
  ∀ trace,
    handleOneMessage fuel env taskExecution = (trace, Resolved) →
    count isWrite trace = 1%nat ∧ (1 ≤ count isHandled trace)%nat.

(** ** Sample data *)

(** A parsed tile of path [p] and status [s], without index or lattice. *)
Definition parsedTile (p : string) (s : TilePipelineStatus) : IPipelineTileAttributes :=
  {| relative_path := p; index := None; tile_name := p;
     prev_stage_status := s; this_stage_status := s;
     lat_x := None; lat_y := None; lat_z := None;
     step_x := None; step_y := None; step_z := None;
     duration := None; cpu_high := None; memory_high := None;
     created_at := None; updated_at := None |}.

(** The row that an insert of [parsedTile p s] at time 0 leaves in the table. *)
Definition storedTile (p : string) (s : TilePipelineStatus) : IPipelineTile :=
  assignInsert (parsedTile p s) 0.

(** [n] persisted rows with pairwise distinct paths "0", "1", ... *)
Definition numberedTiles (n : nat) : list IPipelineTile :=
  (λ k : nat, storedTile (pretty k) Incomplete) <$> seq 0 n.

(** A clock that starts at 1000 and advances by one per reading. *)
Definition tickingClock : Clock := λ k, 1000 + Z.of_nat k.

(** A configuration whose second pair matches what the first pair produces. *)
Definition chainedMapping : list DriveMapping :=
  [ {| remote := "/nrs"; local := "/groups" |};
    {| remote := "/groups"; local := "/mnt/groups" |} ].

(** What [path.join] returns for a normalized directory without a trailing
    separator and a plain file name. *)
Definition joinSlash (dir file : string) : string := dir +:+ "/" +:+ file.

(** The last non-empty segment of a path between slashes: what the posix
    [path.basename] returns when it is given no extension. *)
Fixpoint lastSegment (cur best : string) (s : string) : string :=
  match s with
  | EmptyString => if decide (cur = EmptyString) then best else cur
  | String c rest =>
      if Ascii.eqb c slash
      then lastSegment EmptyString (if decide (cur = EmptyString) then best else cur) rest
      else lastSegment (cur +:+ String c EmptyString) best rest
  end.

Definition posixBasename (p : string) : string :=
  lastSegment EmptyString EmptyString p.

Definition sampleProject (state : ProjectInputSourceState) : IProject.t :=
  {| IProject.id := "p1"; IProject.root_path := "/nrs/sample";
     IProject.sample_x_min := None; IProject.sample_x_max := None;
     IProject.sample_y_min := None; IProject.sample_y_max := None;
     IProject.sample_z_min := None; IProject.sample_z_max := None;
     IProject.input_source_state := state |}.

Definition jsonTile (n : Z) (p : string) (c : bool) : IJsonTile.t :=
  {| IJsonTile.id := Some n; IJsonTile.relativePath := p;
     IJsonTile.position := None; IJsonTile.step := None;
     IJsonTile.isComplete := c |}.

Definition pipelineDoc (ts : list IJsonTile.t) : JsonContent :=
  {| pipelineFormat := Some (JNumber 1); extents := None; tiles := Some ts;
     monitor := None; tileMap := [] |}.

(** Scenario S1: [pipeline-input.json] lists "a\b.tif" (incomplete) and
    "c/d.tif" (complete); nothing is persisted yet. *)
Definition firstIngestDoc : JsonContent :=
  pipelineDoc [ jsonTile 1 ("a" +:+ String backslash "b.tif") false;
                jsonTile 2 "c/d.tif" true ].

Definition firstIngestWorld : World :=
  {| fs := {[ "/nrs/sample"%string := Directory;
              "/nrs/sample/pipeline-input.json"%string := File (InventoryDoc firstIngestDoc) ]};
     project := sampleProject Unknown;
     tileTable := [] |}.

(** Scenario S3: the root path does not exist. *)
Definition missingRootWorld : World :=
  {| fs := ∅; project := sampleProject Pipeline; tileTable := numberedTiles 2 |}.

(** Scenario S5: only a legacy [dashboard.json], with extents and one group
    of one tile. *)
Definition dashboardDoc : JsonContent :=
  {| pipelineFormat := None; extents := None; tiles := None;
     monitor := Some (Some {| minimumX := Some 0; maximumX := Some 10;
                              minimumY := Some 0; maximumY := Some 20;
                              minimumZ := Some 0; maximumZ := Some 30 |});
     tileMap := [ ("2017-01-01"%string,
                   [ {| IDashboardJsonTile.id := Some 7;
                        IDashboardJsonTile.relativePath := "2017-01-01/00/00007";
                        IDashboardJsonTile.contents :=
                          {| latticePosition := None; latticeStep := None |};
                        IDashboardJsonTile.isComplete := true |} ]) ] |}.

Definition dashboardWorld : World :=
  {| fs := {[ "/nrs/sample"%string := Directory;
              "/nrs/sample/dashboard.json"%string := File (InventoryDoc dashboardDoc) ]};
     project := sampleProject Unknown;
     tileTable := [] |}.

(** Scenario S4, at the threshold: 1002 rows are persisted, a snapshot of an
    earlier pass is on disk, and the inventory now lists a single tile. *)
Definition guardTripWorld : World :=
  {| fs := {[ "/nrs/sample"%string := Directory;
              "/nrs/sample/pipeline-input.json"%string :=
                File (InventoryDoc (pipelineDoc [jsonTile 0 "0" false]));
              "/nrs/sample/pipeline-storage.json"%string :=
                File (TileVector [parsedTile "0" Incomplete; parsedTile "1" Incomplete]) ]};
     project := sampleProject Pipeline;
     tileTable := numberedTiles 1002 |}.

(** The completion record and the delivery of scenario S6. *)
Definition sampleTaskExecution : IWorkerTaskExecutionAttributes :=
  {| remote_task_execution_id := "e1"; pipeline_stage_id := "s1"; tile_id := "x/1.tif";
     submitted_at := 10; started_at := 20; completed_at := 30 |}.

(** Collaborators of which the hub refuses the first [k] dispatches and
    accepts from then on, and the metrics sink always answers. *)
Definition acceptsAt (k : nat) : Env :=
  λ n, {| writeTaskExecution := Fulfilled ();
          onTaskExecutionComplete := Fulfilled (bool_decide (k ≤ n)%nat) |}.

Definition sampleMessage : Message :=
  {| deliveryTag := 7; content := Some sampleTaskExecution |}.

(** A hub that owns no scheduler for the record's stage. *)
Definition alwaysRefuses : Env :=
  λ _, {| writeTaskExecution := Fulfilled ();
          onTaskExecutionComplete := Fulfilled false |}.

(** ** Further notions for the ingestor *)

(** The data file that [performJsonUpdate] chooses in an existing root, with
    the input-source state that it publishes for the choice. *)
Definition selectedInput (path_join : string → string → string) (w : World)
    (root : string) : option (string * ProjectInputSourceState) :=
  if existsSync w (path_join root pipelineInputJsonFile)
  then Some (path_join root pipelineInputJsonFile, Pipeline)
  else if existsSync w (path_join root dashboardJsonFile)
       then Some (path_join root dashboardJsonFile, Dashboard)
       else None.

(** A file that [parsePipelineInput] can parse: it holds a document that
    either carries [pipelineFormat] and a [tiles] array, or carries no
    [pipelineFormat] and has a [monitor] object. *)
Definition parsable (w : World) (dataFile : string) : Prop :=
  ∃ jsonContent,
    fs w !! dataFile = Some (File (InventoryDoc jsonContent)) ∧
    if negb (isNullOrUndefined (pipelineFormat jsonContent))
    then is_Some (tiles jsonContent) else is_Some (monitor jsonContent).

(** The six sample bounds of a project row. *)
Definition sampleBounds (p : IProject.t) : list (option Z) :=
  [IProject.sample_x_min p; IProject.sample_x_max p;
   IProject.sample_y_min p; IProject.sample_y_max p;
   IProject.sample_z_min p; IProject.sample_z_max p].

(** The six bounds of a document's extents, in the same order. *)
Definition extentBounds (e : Extents) : list (option Z) :=
  [minimumX e; maximumX e; minimumY e; maximumY e; minimumZ e; maximumZ e].

(** The tiles that a document is parsed to, by its format. *)
Definition documentTiles (path_basename : string → string) (jsonContent : JsonContent)
  : list IPipelineTileAttributes :=
  if negb (isNullOrUndefined (pipelineFormat jsonContent))
  then pipelineTile path_basename <$> default [] (tiles jsonContent)
  else tileMap jsonContent ≫= λ group, dashboardTile path_basename <$> group.2.

(** A world whose [pipeline-input.json] is not JSON, one whose document has
    extents but no [tiles] array, and one whose [pipeline-input.json] holds a
    document in the dashboard format. *)
Definition worldWith (content : FileContent) : World :=
  {| fs := {[ "/nrs/sample"%string := Directory;
              "/nrs/sample/pipeline-input.json"%string := File content;
              "/nrs/sample/pipeline-storage.json"%string :=
                File (TileVector [parsedTile "0" Incomplete]) ]};
     project := sampleProject Unknown;
     tileTable := numberedTiles 2 |}.

Definition sampleExtents : Extents :=
  {| minimumX := Some 0; maximumX := Some 10;
     minimumY := Some 0; maximumY := Some 20;
     minimumZ := Some 0; maximumZ := Some 30 |}.

Definition tilelessDoc : JsonContent :=
  {| pipelineFormat := Some (JNumber 1); extents := Some sampleExtents;
     tiles := None; monitor := None; tileMap := [] |}.

(** ** Notions for the connection set-up *)

(** How often an event occurs in a set-up trace. *)
Definition occurrences (e : SetupEvent) (trace : list SetupEvent) : nat :=
  length (filter (λ e', e' = e) trace).

(** The calls of a run that goes through, on connection and channel [n]. *)
Definition readyRun (n : nat) : list SetupEvent :=
  [AmqpConnect; CreateChannel n; OnError n;
   AssertQueue n TaskExecutionUpdateQueue true; Prefetch n 50;
   Consume n TaskExecutionUpdateQueue false; ResolveConnect].

(** Whether an event is a timer, a subscription. *)
Definition isTimer (e : Event) : bool :=
  match e with EvSetTimeout => true | _ => false end.

(** A broker that refuses connections twice, then fails to declare the queue
    once, and is ready from then on. *)
Definition readyAt3 : nat → Broker :=
  λ n, match n with
       | 0%nat | 1%nat => ConnectFails
       | 2%nat => AssertQueueFails
       | _ => Ready
       end.

(** Collaborators of which the metrics sink rejects the third write. *)
Definition metricsRejectAt2 : Env :=
  λ n, {| writeTaskExecution := if bool_decide (n = 2%nat) then Rejected else Fulfilled ();
          onTaskExecutionComplete := Fulfilled false |}.

(** A root whose snapshot is in place and whose backup path is a directory. *)
Definition backupDirectoryWorld : World :=
  {| fs := {[ "/nrs/sample"%string := Directory;
              "/nrs/sample/pipeline-input.json"%string := File (InventoryDoc firstIngestDoc);
              "/nrs/sample/pipeline-storage.json"%string :=
                File (TileVector [parsedTile "0" Incomplete]);
              "/nrs/sample/pipeline-storage.json.last"%string := Directory ]};
     project := sampleProject Unknown;
     tileTable := numberedTiles 2 |}.

(** * Part III: facts and properties *)

(** ** Facts about the lodash functions *)

Lemma keys_cons t l : keys (t :: l) = relative_path t :: keys l.
Proof. reflexivity. Qed.

Lemma elem_of_differenceBy array values t :
  t ∈ differenceBy array values ↔ t ∈ array ∧ relative_path t ∉ keys values.
Proof. unfold differenceBy. rewrite list_elem_of_filter. tauto. Qed.

Lemma keys_differenceBy array values :
  keys (differenceBy array values) = filter (λ k, k ∉ keys values) (keys array).
Proof.
  unfold differenceBy. induction array as [|t rest IH]; [done|].
  rewrite keys_cons, !filter_cons.
  destruct (decide (relative_path t ∉ keys values)).
  - rewrite keys_cons. f_equal. apply IH.
  - apply IH.
Qed.

Lemma NoDup_keys_differenceBy array values :
  NoDup (keys array) → NoDup (keys (differenceBy array values)).
Proof. intros H. rewrite keys_differenceBy. by apply NoDup_filter. Qed.

Lemma elem_of_keys k (l : list IPipelineTileAttributes) :
  k ∈ keys l ↔ ∃ t, t ∈ l ∧ relative_path t = k.
Proof.
  unfold keys. rewrite list_elem_of_fmap. split; intros (t & H1 & H2); eauto.
Qed.

Lemma firstByKey_Some k l t :
  firstByKey k l = Some t → t ∈ l ∧ relative_path t = k.
Proof.
  unfold firstByKey. intros H. apply head_Some_elem_of in H.
  by apply list_elem_of_filter in H as [? ?].
Qed.

Lemma firstByKey_None k l : firstByKey k l = None ↔ k ∉ keys l.
Proof.
  unfold firstByKey. induction l as [|t rest IH].
  - split; [intros _; apply not_elem_of_nil | done].
  - rewrite filter_cons, keys_cons, not_elem_of_cons.
    destruct (decide (relative_path t = k)) as [E|E]; simpl.
    + split; [done | intros [? _]; congruence].
    + rewrite IH. split; [intros ?; split; [congruence|done] | tauto].
Qed.

Lemma firstByKey_cons k t rest :
  firstByKey k (t :: rest) =
    if decide (relative_path t = k) then Some t else firstByKey k rest.
Proof. unfold firstByKey. rewrite filter_cons. by destruct (decide _). Qed.

Lemma firstByKey_unique l t :
  NoDup (keys l) → t ∈ l → firstByKey (relative_path t) l = Some t.
Proof.
  induction l as [|u rest IH]; intros Hnd Hin.
  - by apply elem_of_nil in Hin.
  - rewrite keys_cons in Hnd. apply NoDup_cons in Hnd as [Hu Hnd].
    rewrite firstByKey_cons. apply elem_of_cons in Hin as [->|Hin].
    + by rewrite decide_True.
    + rewrite decide_False; [by apply IH|].
      intros E. apply Hu. rewrite E. apply list_elem_of_fmap. eauto.
Qed.

Lemma not_elem_seen (k k' : string) (seen : gset string) :
  k ∉ ({[k']} ∪ seen : gset string) ↔ k ≠ k' ∧ k ∉ seen.
Proof. by rewrite not_elem_of_union, not_elem_of_singleton. Qed.

Lemma baseIntersection_elem seen array values t :
  t ∈ baseIntersection seen array values ↔
    (relative_path t ∉ seen) ∧ relative_path t ∈ keys values ∧
    firstByKey (relative_path t) array = Some t.
Proof.
  revert seen. induction array as [|u rest IH]; intros seen; simpl.
  - split; [intros H; by apply elem_of_nil in H | by intros (_ & _ & ?)].
  - rewrite firstByKey_cons.
    destruct (decide (relative_path u ∈ seen)) as [Hs|Hs].
    + rewrite IH. destruct (decide (relative_path u = relative_path t)) as [E|E].
      * split; [intros (H & _); congruence | intros (H & _); congruence].
      * tauto.
    + destruct (decide (relative_path u ∈ keys values)) as [Hv|Hv].
      * rewrite elem_of_cons, IH.
        destruct (decide (relative_path u = relative_path t)) as [E|E].
        -- split.
           ++ intros [->|(H & _)]; [done|]. apply not_elem_seen in H as [H _]. congruence.
           ++ intros (_ & _ & [= ->]). by left.
        -- split.
           ++ intros [->|(H & ? & ?)]; [done|]. apply not_elem_seen in H as [_ H]. done.
           ++ intros (? & ? & ?). right. rewrite not_elem_seen. done.
      * rewrite IH. destruct (decide (relative_path u = relative_path t)) as [E|E].
        -- split; [intros (_ & H & _); congruence | intros (_ & H & _); congruence].
        -- tauto.
Qed.

Lemma NoDup_keys_baseIntersection seen array values :
  NoDup (keys (baseIntersection seen array values)).
Proof.
  revert seen. induction array as [|u rest IH]; intros seen; simpl.
  - constructor.
  - destruct (decide _); [apply IH|]. destruct (decide _); [|apply IH].
    rewrite keys_cons. apply NoDup_cons. split; [|apply IH].
    intros H. apply elem_of_keys in H as (t & Ht & E).
    apply baseIntersection_elem in Ht as (Hs & _). rewrite E in Hs.
    apply not_elem_seen in Hs as [Hs _]. done.
Qed.

Lemma elem_of_intersectionBy array values t :
  t ∈ intersectionBy array values ↔
    relative_path t ∈ keys values ∧ firstByKey (relative_path t) array = Some t.
Proof.
  unfold intersectionBy. rewrite baseIntersection_elem.
  split; [tauto | intros ?; split; [apply not_elem_of_empty | done]].
Qed.

Lemma NoDup_keys_intersectionBy array values :
  NoDup (keys (intersectionBy array values)).
Proof. apply NoDup_keys_baseIntersection. Qed.

(** ** Facts about [existingTilePaths] *)

Lemma lastIndex_Some k l j :
  lastIndex k l = Some j → ∃ t, l !! j = Some t ∧ relative_path t = k.
Proof.
  revert j. induction l as [|u rest IH]; intros j; simpl; [done|].
  destruct (lastIndex k rest) as [j'|].
  - intros [= <-]. apply (IH j' eq_refl).
  - destruct (decide (relative_path u = k)); [|done].
    intros [= <-]. by exists u.
Qed.

Lemma lastIndex_None k l : lastIndex k l = None ↔ k ∉ keys l.
Proof.
  induction l as [|u rest IH]; simpl.
  - split; [intros _; apply not_elem_of_nil | done].
  - rewrite keys_cons, not_elem_of_cons. destruct (lastIndex k rest) as [j|].
    + split; [done | intros [_ H]; by apply IH in H].
    + destruct (decide (relative_path u = k)) as [E|E].
      * split; [done | intros [H _]; congruence].
      * split; [intros _; split; [congruence | by apply IH] | done].
Qed.

Lemma setAll_lookup m base l k :
  setAll m base l !! k =
    match lastIndex k l with
    | Some j => Some (base + j)%nat
    | None => m !! k
    end.
Proof.
  revert m base. induction l as [|u rest IH]; intros m base; simpl; [done|].
  rewrite IH. destruct (lastIndex k rest) as [j|].
  - f_equal. lia.
  - destruct (decide (relative_path u = k)) as [E|E].
    + rewrite E, lookup_insert_eq. f_equal. lia.
    + by rewrite lookup_insert_ne.
Qed.

Lemma existingTilePaths_lookup knownOutput k :
  existingTilePaths knownOutput !! k = lastIndex k knownOutput.
Proof.
  unfold existingTilePaths. rewrite setAll_lookup.
  destruct (lastIndex k knownOutput); [done | apply lookup_empty].
Qed.

Lemma existingTilePaths_Some knownOutput k r :
  existingTilePaths knownOutput !! k = Some r →
  ∃ t, knownOutput !! r = Some t ∧ relative_path t = k.
Proof. rewrite existingTilePaths_lookup. apply lastIndex_Some. Qed.

Lemma existingTilePaths_is_Some knownOutput k :
  k ∈ keys knownOutput → is_Some (existingTilePaths knownOutput !! k).
Proof.
  intros H. rewrite existingTilePaths_lookup.
  destruct (lastIndex k knownOutput) eqn:E; [by eexists|].
  by apply lastIndex_None in E.
Qed.

Lemma lastByKey_Some k l t :
  lastByKey k l = Some t → t ∈ l ∧ relative_path t = k.
Proof.
  unfold lastByKey. destruct (lastIndex k l) as [j|] eqn:E; simpl; [|done].
  intros H. apply lastIndex_Some in E as (t' & H' & Hk).
  rewrite H in H'. injection H' as <-. split; [|done].
  apply list_elem_of_lookup. eauto.
Qed.

Lemma lastIndex_unique l j t :
  NoDup (keys l) → l !! j = Some t → lastIndex (relative_path t) l = Some j.
Proof.
  revert j. induction l as [|u rest IH]; intros j Hnd Hj; [done|].
  rewrite keys_cons in Hnd. apply NoDup_cons in Hnd as [Hu Hnd]. simpl.
  destruct j as [|j]; simpl in Hj.
  - injection Hj as ->.
    destruct (lastIndex (relative_path t) rest) eqn:E.
    + apply lastIndex_Some in E as (t' & H' & Hk).
      exfalso. apply Hu. apply elem_of_keys. exists t'. split; [|done].
      apply list_elem_of_lookup. eauto.
    + by rewrite decide_True.
  - by rewrite (IH j Hnd Hj).
Qed.

Lemma lastByKey_unique l t :
  NoDup (keys l) → t ∈ l → lastByKey (relative_path t) l = Some t.
Proof.
  intros Hnd Hin. apply list_elem_of_lookup in Hin as [j Hj].
  unfold lastByKey. by rewrite (lastIndex_unique l j t Hnd Hj).
Qed.

(** ** The merge, read off the store as it was before the call *)

Lemma storeInv_existingTilePaths knownOutput :
  storeInv (existingTilePaths knownOutput) knownOutput.
Proof. intros k r. apply existingTilePaths_Some. Qed.

Lemma mergePure_ext clock look1 look2 l ticks :
  (∀ i, i ∈ l → look1 (relative_path i) = look2 (relative_path i)) →
  mergePure clock look1 l ticks = mergePure clock look2 l ticks.
Proof.
  revert ticks. induction l as [|i rest IH]; intros ticks H; simpl; [done|].
  rewrite <- (H i) by apply list_elem_of_here.
  assert (Hrest : ∀ n, mergePure clock look1 rest n = mergePure clock look2 rest n).
  { intros n. apply IH. intros i' Hi'. apply H. by apply list_elem_of_further. }
  destruct (look1 (relative_path i)) as [o|]; [|apply Hrest].
  destruct (decide _); [f_equal|]; apply Hrest.
Qed.

Lemma storeInv_inj paths st k1 k2 r :
  storeInv paths st → paths !! k1 = Some r → paths !! k2 = Some r → k1 = k2.
Proof.
  intros Hinv H1 H2.
  apply Hinv in H1 as (t1 & Ht1 & <-). apply Hinv in H2 as (t2 & Ht2 & <-).
  congruence.
Qed.

Lemma deref_cons_Some st r rs t :
  st !! r = Some t → deref st (Some r :: rs) = t :: deref st rs.
Proof. intros H. unfold deref. simpl. by rewrite H. Qed.

Lemma deref_cons_None st rs : deref st (None :: rs) = deref st rs.
Proof. reflexivity. Qed.

(** The merge never throws on tiles whose keys are all in the map, and when
    the tiles have pairwise distinct keys no object is written twice: the
    rows of the bucket, read after the call, are the merges of the rows as
    they were before the call. *)
Lemma mergeTiles_spec clock paths l st ticks :
  storeInv paths st →
  NoDup (keys l) →
  (∀ i, i ∈ l → is_Some (paths !! relative_path i)) →
  ∃ rs st' n,
    mergeTiles clock paths l st ticks = Some (rs, st', n) ∧
    deref st' rs = mergePure clock (lookupTile paths st) l ticks ∧
    (∀ r, (∀ i, i ∈ l → paths !! relative_path i ≠ Some r) → st' !! r = st !! r).
Proof.
  revert st ticks. induction l as [|i rest IH]; intros st ticks Hinv Hnd Hall.
  - exists [], st, ticks. simpl. done.
  - rewrite keys_cons in Hnd. apply NoDup_cons in Hnd as [Hi Hnd].
    destruct (Hall i (list_elem_of_here _ _)) as [r Hr].
    destruct (Hinv _ _ Hr) as (o & Ho & Hk).
    assert (Hrest : ∀ i', i' ∈ rest → is_Some (paths !! relative_path i')).
    { intros i' Hi'. apply Hall. by apply list_elem_of_further. }
    assert (Hfresh : ∀ i', i' ∈ rest → paths !! relative_path i' ≠ Some r).
    { intros i' Hi' Hr'. apply Hi.
      rewrite (storeInv_inj _ _ _ _ _ Hinv Hr Hr').
      apply elem_of_keys. eauto. }
    assert (Hl : lookupTile paths st (relative_path i) = Some o).
    { unfold lookupTile. by rewrite Hr. }
    cbn [mergeTiles mergePure]. unfold mapGet. rewrite Hr, Ho, Hl.
    destruct (decide (prev_stage_status o ≠ this_stage_status i)) as [Hp|Hp].
    + set (merged := assignUpdate o i (clock ticks)).
      set (st1 := <[r := merged]> st).
      assert (Hlt : (r < length st)%nat) by (eapply lookup_lt_Some; eauto).
      assert (Hinv1 : storeInv paths st1).
      { intros k r' Hr'. unfold st1. destruct (decide (r' = r)) as [->|Hne].
        - exists merged. rewrite list_lookup_insert_eq by done. split; [done|].
          simpl. rewrite Hk. by apply (storeInv_inj _ _ _ _ _ Hinv Hr Hr').
        - rewrite list_lookup_insert_ne by done. by apply Hinv. }
      destruct (IH st1 (S ticks) Hinv1 Hnd Hrest) as (rs & st' & n & Hm & Hd & Hf).
      exists (Some r :: rs), st', n. rewrite Hm. split; [done|]. split.
      * rewrite (deref_cons_Some _ _ _ merged).
        -- f_equal. rewrite Hd. apply mergePure_ext. intros i' Hi'.
           unfold lookupTile. destruct (Hrest i' Hi') as [r' Hr']. rewrite Hr'. simpl.
           unfold st1. apply list_lookup_insert_ne. intros ->. by apply (Hfresh i').
        -- rewrite (Hf r Hfresh). unfold st1. by apply list_lookup_insert_eq.
      * intros r0 H0. rewrite Hf.
        -- unfold st1. apply list_lookup_insert_ne. intros ->.
           by apply (H0 i (list_elem_of_here _ _)).
        -- intros i' Hi'. apply H0. by apply list_elem_of_further.
    + destruct (IH st ticks Hinv Hnd Hrest) as (rs & st' & n & Hm & Hd & Hf).
      exists (None :: rs), st', n. rewrite Hm. split; [done|]. split.
      * by rewrite deref_cons_None.
      * intros r0 H0. apply Hf. intros i' Hi'. apply H0. by apply list_elem_of_further.
Qed.

(** ** Facts about the merge *)

Lemma keyed_lookupTile paths st : storeInv paths st → keyed (lookupTile paths st).
Proof.
  intros Hinv k o. unfold lookupTile.
  destruct (paths !! k) as [r|] eqn:Hr; simpl; [|done].
  intros Ho. destruct (Hinv _ _ Hr) as (t & Ht & Hk). congruence.
Qed.

Lemma lookupTile_existingTilePaths knownOutput k :
  lookupTile (existingTilePaths knownOutput) knownOutput k = lastByKey k knownOutput.
Proof. unfold lookupTile, lastByKey. by rewrite existingTilePaths_lookup. Qed.

Lemma mergePure_keys clock look l ticks :
  keyed look → keys (mergePure clock look l ticks) `sublist_of` keys l.
Proof.
  intros Hk. revert ticks. induction l as [|i rest IH]; intros ticks.
  - constructor.
  - cbn [mergePure]. rewrite keys_cons.
    destruct (look (relative_path i)) as [o|] eqn:Ho.
    + destruct (decide _).
      * rewrite keys_cons. cbn [assignUpdate relative_path].
        rewrite (Hk _ _ Ho). apply sublist_skip, IH.
      * apply sublist_cons, IH.
    + apply sublist_cons, IH.
Qed.

(** The [j]-th row of the bucket is a merge made at clock reading
    [ticks + j]. *)
Lemma mergePure_lookup clock look l ticks j row :
  mergePure clock look l ticks !! j = Some row →
  ∃ i o, i ∈ l ∧ look (relative_path i) = Some o ∧
         prev_stage_status o ≠ this_stage_status i ∧
         row = assignUpdate o i (clock (ticks + j)%nat).
Proof.
  revert ticks j. induction l as [|i rest IH]; intros ticks j; cbn [mergePure]; [done|].
  assert (Hrest : ∀ n j', mergePure clock look rest n !! j' = Some row →
    ∃ i0 o, i0 ∈ i :: rest ∧ look (relative_path i0) = Some o ∧
            prev_stage_status o ≠ this_stage_status i0 ∧
            row = assignUpdate o i0 (clock (n + j')%nat)).
  { intros n j' H. destruct (IH n j' H) as (i0 & o & Hi0 & ?).
    exists i0, o. split; [by apply list_elem_of_further | done]. }
  destruct (look (relative_path i)) as [o|] eqn:Ho; [|apply Hrest].
  destruct (decide _) as [Hp|Hp]; [|apply Hrest].
  destruct j as [|j]; simpl.
  - intros [= <-]. exists i, o. rewrite Nat.add_0_r.
    split; [apply list_elem_of_here | done].
  - intros H. replace (ticks + S j)%nat with (S ticks + j)%nat by lia.
    by apply Hrest.
Qed.

Lemma mergePure_elem clock look l ticks i o :
  i ∈ l → look (relative_path i) = Some o →
  prev_stage_status o ≠ this_stage_status i →
  ∃ j, mergePure clock look l ticks !! j = Some (assignUpdate o i (clock (ticks + j)%nat)).
Proof.
  revert ticks. induction l as [|u rest IH]; intros ticks Hin Ho Hp.
  - by apply elem_of_nil in Hin.
  - cbn [mergePure]. apply elem_of_cons in Hin as [->|Hin].
    + rewrite Ho, decide_True by done. exists 0%nat. by rewrite Nat.add_0_r.
    + destruct (look (relative_path u)) as [o'|]; [|by apply IH].
      destruct (decide _); [|by apply IH].
      destruct (IH (S ticks) Hin Ho Hp) as [j Hj]. exists (S j).
      replace (ticks + S j)%nat with (S ticks + j)%nat by lia. done.
Qed.

Lemma keys_imap_assignInsert (f : nat → Date) l :
  keys (imap (λ k inputTile, assignInsert inputTile (f k)) l) = keys l.
Proof.
  revert f. induction l as [|t rest IH]; intros f; [done|].
  rewrite imap_cons, !keys_cons. f_equal. apply (IH (f ∘ S)).
Qed.

(** ** The muxer as a whole *)

Lemma intersectionBy_in_map knownInput knownOutput i :
  i ∈ intersectionBy knownInput knownOutput →
  is_Some (existingTilePaths knownOutput !! relative_path i).
Proof.
  intros H. apply elem_of_intersectionBy in H as [H _].
  by apply existingTilePaths_is_Some.
Qed.

Lemma mux_guard clock knownInput knownOutput :
  guardFires knownInput knownOutput →
  muxInputOutputTiles clock knownInput knownOutput = MuxNoPlan.
Proof. intros H. unfold muxInputOutputTiles. by rewrite decide_True. Qed.

Lemma mux_plan clock knownInput knownOutput :
  ¬ guardFires knownInput knownOutput →
  ∃ knownOutput',
    muxInputOutputTiles clock knownInput knownOutput =
      MuxPlan (planOf clock knownInput knownOutput) knownOutput'.
Proof.
  intros H. unfold muxInputOutputTiles. rewrite decide_False by done.
  destruct (mergeTiles_spec clock (existingTilePaths knownOutput)
              (intersectionBy knownInput knownOutput) knownOutput
              (length (differenceBy knownInput knownOutput))
              (storeInv_existingTilePaths knownOutput)
              (NoDup_keys_intersectionBy knownInput knownOutput)
              (intersectionBy_in_map knownInput knownOutput))
    as (rs & st' & n & Hm & Hd & _).
  rewrite Hm. exists st'. unfold planOf. rewrite Hd. do 2 f_equal.
  apply mergePure_ext. intros i _. apply lookupTile_existingTilePaths.
Qed.

(** ** Properties of the muxer *)

(** C2. The muxer returns no plan exactly when the persisted vector is more
    than 1000 tiles longer than the parsed inventory, and returns a plan
    exactly when the difference of the lengths is at most 1000 (negative
    differences included); the plan is then the full one: the inserts made
    of [differenceBy knownInput knownOutput], the updates merged from
    [intersectionBy knownInput knownOutput], and the paths of
    [differenceBy knownOutput knownInput] to delete. *)
Theorem mux_guard_threshold clock knownInput knownOutput :
  (muxInputOutputTiles clock knownInput knownOutput = MuxNoPlan ↔
     Z.of_nat (length knownOutput) - Z.of_nat (length knownInput) > 1000) ∧
  ((∃ sorted knownOutput',
      muxInputOutputTiles clock knownInput knownOutput = MuxPlan sorted knownOutput') ↔
     Z.of_nat (length knownOutput) - Z.of_nat (length knownInput) ≤ 1000) ∧
  (∀ sorted knownOutput',
     muxInputOutputTiles clock knownInput knownOutput = MuxPlan sorted knownOutput' →
     sorted = planOf clock knownInput knownOutput).
Proof.
  destruct (decide (guardFires knownInput knownOutput)) as [G|G].
  - rewrite (mux_guard clock _ _ G). unfold guardFires in G. split; [|split].
    + done.
    + split; [intros (? & ? & [=]) | lia].
    + done.
  - destruct (mux_plan clock _ _ G) as [st' ->]. unfold guardFires in G.
    split; [|split].
    + split; [done | intros; lia].
    + split; [intros _; lia | eauto].
    + by intros sorted st'' [= <- _].
Qed.

(** The two sides of the threshold, through the theorem: 1001 surplus rows,
    and 1000. *)
Lemma mux_guard_threshold_witness :
  muxInputOutputTiles tickingClock [] (numberedTiles 1001) = MuxNoPlan ∧
  ∃ sorted knownOutput',
    muxInputOutputTiles tickingClock [] (numberedTiles 1000) = MuxPlan sorted knownOutput'.
Proof.
  split.
  - apply (proj1 (mux_guard_threshold tickingClock [] (numberedTiles 1001))).
    vm_compute. reflexivity.
  - apply (proj1 (proj2 (mux_guard_threshold tickingClock [] (numberedTiles 1000)))).
    vm_compute. discriminate.
Defined.

(** The same two sides, evaluated. *)
Example mux_guard_1001 :
  muxInputOutputTiles tickingClock [] (numberedTiles 1001) = MuxNoPlan.
Proof. vm_compute. reflexivity. Qed.

Example mux_guard_1000 :
  ∃ sorted knownOutput',
    muxInputOutputTiles tickingClock [] (numberedTiles 1000) = MuxPlan sorted knownOutput' ∧
    toInsert sorted = [] ∧ toUpdate sorted = [] ∧
    toDelete sorted = keys (numberedTiles 1000).
Proof. eexists _, _. vm_compute. repeat split. Qed.

Lemma planOf_toUpdate_row clock knownInput knownOutput j row :
  toUpdate (planOf clock knownInput knownOutput) !! j = Some row →
  ∃ i o, firstByKey (relative_path row) knownInput = Some i ∧
         lastByKey (relative_path row) knownOutput = Some o ∧
         prev_stage_status o ≠ this_stage_status i ∧
         row = assignUpdate o i
                 (clock (length (toInsert (planOf clock knownInput knownOutput)) + j)%nat).
Proof.
  cbn [planOf toUpdate toInsert]. intros H.
  apply mergePure_lookup in H as (i & o & Hi & Ho & Hp & ->).
  apply elem_of_intersectionBy in Hi as [_ Hi].
  destruct (lastByKey_Some _ _ _ Ho) as [_ Hk].
  exists i, o. cbn [assignUpdate relative_path]. rewrite Hk, length_imap. done.
Qed.

(** C3. Let [o] be the persisted row the muxer holds for a path (the row of
    that path; the last one, should the persisted vector repeat the path)
    and [i] the inventory tile it is matched with (the tile of that path; the
    first one, should the inventory repeat it).  When the guard does not
    fire, the muxer returns a plan in which a row of that path is in
    [toUpdate] if and only if [prev_stage_status o ≠ this_stage_status i];
    the row then has [tile_name], [index], both statuses, lattice position
    and step of [i], keeps the other fields of [o], and its [updated_at] is
    the clock reading made when it was merged; when the two statuses are
    equal the path occurs in no bucket of the plan. *)
Theorem mux_to_update clock knownInput knownOutput o i :
  ¬ guardFires knownInput knownOutput →
  lastByKey (relative_path o) knownOutput = Some o →
  firstByKey (relative_path o) knownInput = Some i →
  ∃ sorted knownOutput',
    muxInputOutputTiles clock knownInput knownOutput = MuxPlan sorted knownOutput' ∧
    ((∃ row, row ∈ toUpdate sorted ∧ relative_path row = relative_path o) ↔
       prev_stage_status o ≠ this_stage_status i) ∧
    (prev_stage_status o ≠ this_stage_status i →
       ∃ j row, toUpdate sorted !! j = Some row ∧
         relative_path row = relative_path o ∧
         tile_name row = tile_name i ∧ index row = index i ∧
         prev_stage_status row = prev_stage_status i ∧
         this_stage_status row = this_stage_status i ∧
         lat_x row = lat_x i ∧ lat_y row = lat_y i ∧ lat_z row = lat_z i ∧
         step_x row = step_x i ∧ step_y row = step_y i ∧ step_z row = step_z i ∧
         updated_at row = Some (clock (length (toInsert sorted) + j)%nat) ∧
         duration row = duration o ∧ cpu_high row = cpu_high o ∧
         memory_high row = memory_high o ∧ created_at row = created_at o) ∧
    (prev_stage_status o = this_stage_status i →
       (relative_path o ∉ keys (toInsert sorted)) ∧
       (relative_path o ∉ keys (toUpdate sorted)) ∧
       (relative_path o ∉ toDelete sorted)).
Proof.
  intros G Ho Hi. destruct (mux_plan clock _ _ G) as [st' Hm].
  exists (planOf clock knownInput knownOutput), st'. split; [done|].
  destruct (lastByKey_Some _ _ _ Ho) as [HoO _].
  destruct (firstByKey_Some _ _ _ Hi) as [HiI Hik].
  assert (Hint : i ∈ intersectionBy knownInput knownOutput).
  { apply elem_of_intersectionBy. rewrite Hik. split; [|done].
    apply elem_of_keys. eauto. }
  assert (Hrow : ∀ row, row ∈ toUpdate (planOf clock knownInput knownOutput) →
            relative_path row = relative_path o →
            prev_stage_status o ≠ this_stage_status i).
  { intros row Hin Hk. apply list_elem_of_lookup in Hin as [j Hj].
    apply planOf_toUpdate_row in Hj as (i' & o' & Hi' & Ho' & Hp & _).
    rewrite Hk in Hi', Ho'. congruence. }
  split; [split|split].
  - intros (row & Hin & Hk). by apply (Hrow row).
  - intros Hp.
    destruct (mergePure_elem clock (λ k, lastByKey k knownOutput)
                (intersectionBy knownInput knownOutput)
                (length (differenceBy knownInput knownOutput)) i o Hint)
      as [j Hj]; [by rewrite Hik | done |].
    exists (assignUpdate o i
              (clock (length (differenceBy knownInput knownOutput) + j)%nat)).
    split; [|reflexivity].
    apply list_elem_of_lookup. exists j. exact Hj.
  - intros Hp.
    destruct (mergePure_elem clock (λ k, lastByKey k knownOutput)
                (intersectionBy knownInput knownOutput)
                (length (differenceBy knownInput knownOutput)) i o Hint)
      as [j Hj]; [by rewrite Hik | done |].
    exists j, (assignUpdate o i
                 (clock (length (differenceBy knownInput knownOutput) + j)%nat)).
    cbn [planOf toUpdate toInsert]. rewrite length_imap. split; [exact Hj|].
    cbn. repeat split; reflexivity.
  - intros Hp. cbn [planOf toUpdate toInsert toDelete]. split; [|split].
    + rewrite keys_imap_assignInsert, keys_differenceBy, list_elem_of_filter.
      intros [Hn _]. apply Hn. apply elem_of_keys. eauto.
    + intros Hin. apply elem_of_keys in Hin as (row & Hin & Hk).
      by apply (Hrow row Hin Hk).
    + change (relative_path o ∉ keys (differenceBy knownOutput knownInput)).
      rewrite keys_differenceBy, list_elem_of_filter.
      intros [Hn _]. apply Hn. rewrite <- Hik. apply elem_of_keys. eauto.
Qed.

(** Scenario S2: the persisted row of "x/1.tif" is Incomplete, the inventory
    reports the tile complete. *)
Lemma mux_to_update_witness :
  ∃ sorted knownOutput',
    muxInputOutputTiles tickingClock
      [parsedTile "x/1.tif" Complete] [storedTile "x/1.tif" Incomplete]
      = MuxPlan sorted knownOutput' ∧
    ((∃ row, row ∈ toUpdate sorted ∧ relative_path row = "x/1.tif"%string) ↔
       Incomplete ≠ Complete) ∧
    (Incomplete ≠ Complete →
       ∃ j row, toUpdate sorted !! j = Some row ∧
         relative_path row = "x/1.tif"%string ∧
         tile_name row = "x/1.tif"%string ∧ index row = None ∧
         prev_stage_status row = Complete ∧
         this_stage_status row = Complete ∧
         lat_x row = None ∧ lat_y row = None ∧ lat_z row = None ∧
         step_x row = None ∧ step_y row = None ∧ step_z row = None ∧
         updated_at row = Some (tickingClock (length (toInsert sorted) + j)%nat) ∧
         duration row = Some 0 ∧ cpu_high row = Some 0 ∧
         memory_high row = Some 0 ∧ created_at row = Some 0) ∧
    (Incomplete = Complete →
       ("x/1.tif"%string ∉ keys (toInsert sorted)) ∧
       ("x/1.tif"%string ∉ keys (toUpdate sorted)) ∧
       ("x/1.tif"%string ∉ toDelete sorted)).
Proof.
  apply (mux_to_update tickingClock
           [parsedTile "x/1.tif" Complete] [storedTile "x/1.tif" Incomplete]
           (storedTile "x/1.tif" Incomplete) (parsedTile "x/1.tif" Complete)).
  - unfold guardFires. simpl. lia.
  - reflexivity.
  - reflexivity.
Defined.

Lemma mux_plan_inv clock knownInput knownOutput sorted knownOutput' :
  muxInputOutputTiles clock knownInput knownOutput = MuxPlan sorted knownOutput' →
  ¬ guardFires knownInput knownOutput ∧ sorted = planOf clock knownInput knownOutput.
Proof.
  intros Hm. destruct (decide (guardFires knownInput knownOutput)) as [G|G].
  - by rewrite (mux_guard clock _ _ G) in Hm.
  - destruct (mux_plan clock _ _ G) as [st' Hm']. rewrite Hm' in Hm.
    by injection Hm as <- _.
Qed.

Lemma keyed_lastByKey knownOutput : keyed (λ k, lastByKey k knownOutput).
Proof. intros k o H. by apply lastByKey_Some in H as [_ ?]. Qed.

(** C8, refuted as stated: an inventory that lists the new path "a/b.tif"
    twice yields two inserts for that path. *)
Lemma mux_insert_not_deduplicated :
  ¬ bucketsDeduplicated tickingClock
      [parsedTile "a/b.tif" Incomplete; parsedTile "a/b.tif" Incomplete] [].
Proof.
  intros H.
  destruct (H _ _ eq_refl) as [Hins _].
  vm_compute in Hins. apply NoDup_cons in Hins as [Hin _].
  apply Hin. apply list_elem_of_here.
Qed.

(** C8, amended.  Of the three buckets only [toUpdate] is deduplicated by
    the muxer: it has at most one row per [relative_path] whatever the two
    vectors are.  [toInsert] keeps, in order, every inventory tile whose path
    is not persisted, repeated paths included, so it is free of repetitions
    when the inventory is.  [toDelete] keeps, in order, every persisted path
    that the inventory does not have, so it is free of repetitions when the
    persisted vector is (the table's uniqueness invariant). *)
Theorem mux_buckets_unique clock knownInput knownOutput sorted knownOutput' :
  muxInputOutputTiles clock knownInput knownOutput = MuxPlan sorted knownOutput' →
  NoDup (keys (toUpdate sorted)) ∧
  keys (toInsert sorted) = filter (λ k, k ∉ keys knownOutput) (keys knownInput) ∧
  (NoDup (keys knownInput) → NoDup (keys (toInsert sorted))) ∧
  toDelete sorted = filter (λ k, k ∉ keys knownInput) (keys knownOutput) ∧
  (NoDup (keys knownOutput) → NoDup (toDelete sorted)).
Proof.
  intros Hm. apply mux_plan_inv in Hm as [_ ->].
  cbn [planOf toInsert toUpdate toDelete]. split; [|split; [|split; [|split]]].
  - apply (sublist_NoDup _ (keys (intersectionBy knownInput knownOutput))).
    + apply NoDup_keys_intersectionBy.
    + apply mergePure_keys, keyed_lastByKey.
  - by rewrite keys_imap_assignInsert, keys_differenceBy.
  - intros HI. rewrite keys_imap_assignInsert. by apply NoDup_keys_differenceBy.
  - apply (keys_differenceBy knownOutput knownInput).
  - intros HO. by apply (NoDup_keys_differenceBy knownOutput knownInput).
Qed.

(** A pass over vectors that both list paths twice: the persisted path
    "x/1.tif", listed twice in the inventory, is updated once; the new path
    and the vanished path are inserted and deleted twice each. *)
Lemma mux_buckets_unique_witness :
  NoDup (keys [assignUpdate (storedTile "x/1.tif" Incomplete)
                 (parsedTile "x/1.tif" Complete) 1002]) ∧
  keys [assignInsert (parsedTile "new.tif" Incomplete) 1000;
        assignInsert (parsedTile "new.tif" Incomplete) 1001] =
    filter (λ k, k ∉ keys [storedTile "x/1.tif" Incomplete; storedTile "old.tif" Complete;
                            storedTile "old.tif" Complete])
      (keys [parsedTile "x/1.tif" Complete; parsedTile "new.tif" Incomplete;
             parsedTile "x/1.tif" Complete; parsedTile "new.tif" Incomplete]) ∧
  (NoDup (keys [parsedTile "x/1.tif" Complete; parsedTile "new.tif" Incomplete;
                parsedTile "x/1.tif" Complete; parsedTile "new.tif" Incomplete]) →
   NoDup (keys [assignInsert (parsedTile "new.tif" Incomplete) 1000;
                assignInsert (parsedTile "new.tif" Incomplete) 1001])) ∧
  ["old.tif"%string; "old.tif"%string] =
    filter (λ k, k ∉ keys [parsedTile "x/1.tif" Complete; parsedTile "new.tif" Incomplete;
                            parsedTile "x/1.tif" Complete; parsedTile "new.tif" Incomplete])
      (keys [storedTile "x/1.tif" Incomplete; storedTile "old.tif" Complete;
             storedTile "old.tif" Complete]) ∧
  (NoDup (keys [storedTile "x/1.tif" Incomplete; storedTile "old.tif" Complete;
                storedTile "old.tif" Complete]) →
   NoDup ["old.tif"%string; "old.tif"%string]).
Proof.
  apply (mux_buckets_unique tickingClock
           [parsedTile "x/1.tif" Complete; parsedTile "new.tif" Incomplete;
            parsedTile "x/1.tif" Complete; parsedTile "new.tif" Incomplete]
           [storedTile "x/1.tif" Incomplete; storedTile "old.tif" Complete;
            storedTile "old.tif" Complete]
           {| toInsert := [assignInsert (parsedTile "new.tif" Incomplete) 1000;
                           assignInsert (parsedTile "new.tif" Incomplete) 1001];
              toUpdate := [assignUpdate (storedTile "x/1.tif" Incomplete)
                             (parsedTile "x/1.tif" Complete) 1002];
              toReset := [];
              toDelete := ["old.tif"%string; "old.tif"%string] |}
           [assignUpdate (storedTile "x/1.tif" Incomplete)
              (parsedTile "x/1.tif" Complete) 1002;
            storedTile "old.tif" Complete; storedTile "old.tif" Complete]).
  vm_compute. reflexivity.
Defined.

(** C10. Every tile of the update candidate list (the intersection of the
    inventory with the persisted tiles by [relative_path]) has an entry in
    [existingTilePaths]: the lookup yields an object of [knownOutput] with
    the same path, neither [null] nor [undefined].  So the missing-tile
    branch is never taken, the merge runs to its end, and the muxer never
    ends by the throw that a failed lookup would cause. *)
Theorem mux_lookup_total clock knownInput knownOutput :
  (∀ inputTile, inputTile ∈ intersectionBy knownInput knownOutput →
     ∃ r existingTile,
       mapGet (existingTilePaths knownOutput) (relative_path inputTile) = JsObject r ∧
       knownOutput !! r = Some existingTile ∧
       relative_path existingTile = relative_path inputTile) ∧
  (∃ rs st' n,
     mergeTiles clock (existingTilePaths knownOutput)
       (intersectionBy knownInput knownOutput) knownOutput
       (length (differenceBy knownInput knownOutput)) = Some (rs, st', n)) ∧
  muxInputOutputTiles clock knownInput knownOutput ≠ MuxThrows.
Proof.
  split; [|split].
  - intros inputTile Hin.
    destruct (intersectionBy_in_map _ _ _ Hin) as [r Hr].
    destruct (existingTilePaths_Some _ _ _ Hr) as (t & Ht & Hk).
    exists r, t. unfold mapGet. by rewrite Hr.
  - destruct (mergeTiles_spec clock (existingTilePaths knownOutput)
                (intersectionBy knownInput knownOutput) knownOutput
                (length (differenceBy knownInput knownOutput))
                (storeInv_existingTilePaths knownOutput)
                (NoDup_keys_intersectionBy knownInput knownOutput)
                (intersectionBy_in_map knownInput knownOutput))
      as (rs & st' & n & Hm & _).
    by exists rs, st', n.
  - destruct (decide (guardFires knownInput knownOutput)) as [G|G].
    + by rewrite (mux_guard clock _ _ G).
    + destruct (mux_plan clock _ _ G) as [st' ->]. done.
Qed.

(** The candidate of scenario S2 and the object the map holds for it. *)
Lemma mux_lookup_total_witness :
  ∃ r existingTile,
    mapGet (existingTilePaths [storedTile "x/1.tif" Incomplete]) "x/1.tif" = JsObject r ∧
    [storedTile "x/1.tif" Incomplete] !! r = Some existingTile ∧
    relative_path existingTile = "x/1.tif"%string.
Proof.
  apply (proj1 (mux_lookup_total tickingClock
                  [parsedTile "x/1.tif" Complete] [storedTile "x/1.tif" Incomplete])
           (parsedTile "x/1.tif" Complete)).
  vm_compute. apply list_elem_of_here.
Defined.

(** ** Facts about applying a plan *)

Lemma keys_filter (P : string → Prop) `{∀ k, Decision (P k)}
    (l : list IPipelineTileAttributes) :
  keys (filter (λ t, P (relative_path t)) l) = filter P (keys l).
Proof.
  induction l as [|t rest IH]; [done|].
  rewrite keys_cons, !filter_cons. destruct (decide (P (relative_path t))).
  - rewrite keys_cons. by f_equal.
  - done.
Qed.

Lemma keys_app l1 l2 : keys (l1 ++ l2) = keys l1 ++ keys l2.
Proof. unfold keys. apply fmap_app. Qed.

(** With a persisted vector and an inventory that list no path twice, the
    table that results from applying the muxer's plan lists no path twice
    either. *)
Lemma applyPlan_unique clock knownInput knownOutput sorted knownOutput' :
  muxInputOutputTiles clock knownInput knownOutput = MuxPlan sorted knownOutput' →
  NoDup (keys knownOutput) → NoDup (keys knownInput) →
  NoDup (keys (applyPlan sorted knownOutput)).
Proof.
  intros Hm HO HI. apply mux_plan_inv in Hm as [_ ->].
  unfold applyPlan. cbv zeta.
  set (upd := λ row : IPipelineTileAttributes, default row _).
  pose proof (keys_filter (λ k, k ∉ toDelete (planOf clock knownInput knownOutput))
                (upd <$> knownOutput ++ toInsert (planOf clock knownInput knownOutput)))
    as E.
  cbv beta in E. rewrite E. clear E. apply NoDup_filter.
  assert (Hupd : ∀ l, keys (upd <$> l) = keys l).
  { intros l. induction l as [|row l IH]; [done|].
    rewrite fmap_cons, !keys_cons, IH. f_equal. unfold upd.
    destruct (firstByKey _ _) as [u|] eqn:E; [|done].
    by apply firstByKey_Some in E as [_ ?]. }
  rewrite Hupd, keys_app. cbn [planOf toInsert].
  rewrite keys_imap_assignInsert, keys_differenceBy.
  apply NoDup_app. split; [done|]. split.
  - intros k Hk Hin. by apply list_elem_of_filter in Hin as [? _].
  - by apply NoDup_filter.
Qed.

(** ** Properties of the path mapper *)

Lemma startsWith_app p rest : startsWith (p +:+ rest) p = true.
Proof.
  unfold startsWith. induction p as [|c p IH]; simpl.
  - by destruct rest.
  - destruct (ascii_dec c c); [apply IH | done].
Qed.

Lemma slice_app p rest : slice (p +:+ rest) (String.length p) = rest.
Proof. induction p as [|c p IH]; simpl; [done | apply IH]. Qed.

Lemma startsWith_true s p :
  startsWith s p = true ↔ ∃ rest, s = p +:+ rest.
Proof.
  split.
  - unfold startsWith. revert s. induction p as [|c p IH]; intros s H.
    + by exists s.
    + destruct s as [|c' s]; simpl in H; [done|].
      destruct (ascii_dec c c') as [->|]; [|done].
      destruct (IH s H) as [rest ->]. by exists rest.
  - intros [rest ->]. apply startsWith_app.
Qed.

Lemma mapDrive_match d rest :
  mapDrive (remote d +:+ rest) d = local d +:+ rest.
Proof. unfold mapDrive. by rewrite startsWith_app, slice_app. Qed.

Lemma mapRoot_app pre post root :
  mapRoot (pre ++ post) root = mapRoot post (mapRoot pre root).
Proof. apply fold_left_app. Qed.

Lemma mapRoot_unmatched driveMapping root :
  (∀ d, d ∈ driveMapping → startsWith root (remote d) = false) →
  mapRoot driveMapping root = root.
Proof.
  induction driveMapping as [|d rest IH]; intros H; [done|].
  cbn [mapRoot fold_left]. unfold mapDrive at 2.
  rewrite (H d (list_elem_of_here _ _)). apply IH.
  intros d' Hd'. apply H. by apply list_elem_of_further.
Qed.

Lemma pathMapperSpec_unmatched driveMapping root :
  (∀ d, d ∈ driveMapping → startsWith root (remote d) = false) →
  pathMapperSpec driveMapping root = root.
Proof.
  induction driveMapping as [|d rest IH]; intros H; [done|].
  cbn [pathMapperSpec]. rewrite (H d (list_elem_of_here _ _)). apply IH.
  intros d' Hd'. apply H. by apply list_elem_of_further.
Qed.

Lemma pathMapperSpec_first pre d post rest :
  (∀ d', d' ∈ pre → startsWith (remote d +:+ rest) (remote d') = false) →
  pathMapperSpec (pre ++ d :: post) (remote d +:+ rest) = local d +:+ rest.
Proof.
  induction pre as [|d0 pre IH]; intros H.
  - cbn [app pathMapperSpec]. by rewrite startsWith_app, slice_app.
  - cbn [app pathMapperSpec]. rewrite (H d0 (list_elem_of_here _ _)). apply IH.
    intros d' Hd'. apply H. by apply list_elem_of_further.
Qed.

(** C6, refuted as stated: after the first pair has rewritten "/nrs/sample"
    to "/groups/sample" the second pair is applied to the result, where the
    first-match mapper of the spec stops. *)
Lemma mapRoot_applies_later_pair :
  mapRoot chainedMapping "/nrs/sample" = "/mnt/groups/sample"%string ∧
  pathMapperSpec chainedMapping "/nrs/sample" = "/groups/sample"%string ∧
  mapRoot chainedMapping "/nrs/sample" ≠ pathMapperSpec chainedMapping "/nrs/sample".
Proof. repeat split. vm_compute. discriminate. Qed.

(** A later pair that matches need not change the result: the second pair
    rewrites "/groups/sample" to itself. *)
Example mapRoot_later_pair_idle :
  startsWith "/groups/sample" "/groups" = true ∧
  mapRoot [ {| remote := "/nrs"; local := "/groups" |};
            {| remote := "/groups"; local := "/groups" |} ] "/nrs/sample"
    = pathMapperSpec [ {| remote := "/nrs"; local := "/groups" |};
                       {| remote := "/groups"; local := "/groups" |} ] "/nrs/sample".
Proof. split; reflexivity. Qed.

(** One more pair at the end of the configuration: what it does to the path
    as the pairs before it have left it. *)
Lemma mapRoot_snoc driveMapping d path :
  (∀ rest, mapRoot driveMapping path = remote d +:+ rest →
     mapRoot (driveMapping ++ [d]) path = local d +:+ rest) ∧
  (startsWith (mapRoot driveMapping path) (remote d) = false →
     mapRoot (driveMapping ++ [d]) path = mapRoot driveMapping path).
Proof.
  rewrite mapRoot_app. cbn [mapRoot fold_left]. split.
  - intros rest ->. apply mapDrive_match.
  - intros H. unfold mapDrive. by rewrite H.
Qed.

(** C6, amended.  The mapper runs every pair, in order, on the path as
    rewritten so far: a pair whose [remote] is a literal prefix of the
    current path rewrites it to [local] followed by the remainder, any other
    pair leaves it as it is.  A path that no pair's [remote] is a prefix of
    is returned unchanged.  When [d] is the first pair whose [remote] is a
    prefix of the path, the path becomes [local d] followed by the
    remainder, and the pairs after [d] are then run on that result; the
    outcome is the first-match rewriting of the spec exactly when the later
    pairs, run on the rewritten path, give it back unchanged, which is so
    whenever none of their [remote]s is a prefix of it. *)
Theorem mapRoot_runs_every_pair pre d post root rest :
  (∀ d', d' ∈ pre → startsWith root (remote d') = false) →
  root = remote d +:+ rest →
  mapRoot pre root = root ∧
  mapRoot (pre ++ d :: post) root = mapRoot post (local d +:+ rest) ∧
  pathMapperSpec (pre ++ d :: post) root = local d +:+ rest ∧
  ((∀ d', d' ∈ post → startsWith (local d +:+ rest) (remote d') = false) →
   mapRoot (pre ++ d :: post) root = local d +:+ rest) ∧
  (∀ driveMapping path,
     (∀ d', d' ∈ driveMapping → startsWith path (remote d') = false) →
     mapRoot driveMapping path = path) ∧
  (mapRoot (pre ++ d :: post) root = pathMapperSpec (pre ++ d :: post) root ↔
   mapRoot post (local d +:+ rest) = local d +:+ rest) ∧
  (∀ driveMapping d' path,
     (∀ rest', mapRoot driveMapping path = remote d' +:+ rest' →
        mapRoot (driveMapping ++ [d']) path = local d' +:+ rest') ∧
     (startsWith (mapRoot driveMapping path) (remote d') = false →
        mapRoot (driveMapping ++ [d']) path = mapRoot driveMapping path)).
Proof.
  intros Hpre ->. split; [by apply mapRoot_unmatched|].
  assert (Hm : mapRoot (pre ++ d :: post) (remote d +:+ rest)
               = mapRoot post (local d +:+ rest)).
  { rewrite mapRoot_app, (mapRoot_unmatched pre _ Hpre).
    cbn [mapRoot fold_left]. by rewrite mapDrive_match. }
  pose proof (pathMapperSpec_first pre d post rest Hpre) as Hs.
  split; [exact Hm|]. split; [exact Hs|]. split; [|split; [|split]].
  - intros Hpost. rewrite Hm. by apply mapRoot_unmatched.
  - apply mapRoot_unmatched.
  - by rewrite Hm, Hs.
  - apply mapRoot_snoc.
Qed.

Lemma mapRoot_runs_every_pair_witness :
  mapRoot [ {| remote := "/mnt"; local := "/x" |} ] "/nrs/sample" = "/nrs/sample"%string ∧
  mapRoot ([ {| remote := "/mnt"; local := "/x" |} ]
             ++ {| remote := "/nrs"; local := "/groups" |}
             :: [ {| remote := "/groups"; local := "/mnt/groups" |} ]) "/nrs/sample"
    = mapRoot [ {| remote := "/groups"; local := "/mnt/groups" |} ] ("/groups" +:+ "/sample") ∧
  pathMapperSpec ([ {| remote := "/mnt"; local := "/x" |} ]
             ++ {| remote := "/nrs"; local := "/groups" |}
             :: [ {| remote := "/groups"; local := "/mnt/groups" |} ]) "/nrs/sample"
    = ("/groups" +:+ "/sample") ∧
  ((∀ d', d' ∈ [ {| remote := "/groups"; local := "/mnt/groups" |} ] →
          startsWith ("/groups" +:+ "/sample") (remote d') = false) →
   mapRoot ([ {| remote := "/mnt"; local := "/x" |} ]
             ++ {| remote := "/nrs"; local := "/groups" |}
             :: [ {| remote := "/groups"; local := "/mnt/groups" |} ]) "/nrs/sample"
     = ("/groups" +:+ "/sample")) ∧
  (∀ driveMapping path,
     (∀ d', d' ∈ driveMapping → startsWith path (remote d') = false) →
     mapRoot driveMapping path = path) ∧
  (mapRoot ([ {| remote := "/mnt"; local := "/x" |} ]
             ++ {| remote := "/nrs"; local := "/groups" |}
             :: [ {| remote := "/groups"; local := "/mnt/groups" |} ]) "/nrs/sample"
     = pathMapperSpec ([ {| remote := "/mnt"; local := "/x" |} ]
             ++ {| remote := "/nrs"; local := "/groups" |}
             :: [ {| remote := "/groups"; local := "/mnt/groups" |} ]) "/nrs/sample" ↔
   mapRoot [ {| remote := "/groups"; local := "/mnt/groups" |} ] ("/groups" +:+ "/sample")
     = ("/groups" +:+ "/sample")) ∧
  (∀ driveMapping d' path,
     (∀ rest', mapRoot driveMapping path = remote d' +:+ rest' →
        mapRoot (driveMapping ++ [d']) path = local d' +:+ rest') ∧
     (startsWith (mapRoot driveMapping path) (remote d') = false →
        mapRoot (driveMapping ++ [d']) path = mapRoot driveMapping path)).
Proof.
  apply (mapRoot_runs_every_pair
           [ {| remote := "/mnt"; local := "/x" |} ]
           {| remote := "/nrs"; local := "/groups" |}
           [ {| remote := "/groups"; local := "/mnt/groups" |} ]
           "/nrs/sample" "/sample").
  - intros d' Hd'. apply list_elem_of_singleton in Hd'. subst d'. reflexivity.
  - reflexivity.
Defined.

(** ** Path normalization *)

Lemma replaceBackslashes_replaced s : backslashesReplaced s (replaceBackslashes s).
Proof.
  split.
  - induction s as [|c s IH]; simpl; [done | by rewrite IH].
  - induction s as [|c s IH]; intros n; simpl; [done|].
    destruct n as [|n]; [done | apply IH].
Qed.

Lemma slashOf_not_backslash c : slashOf c ≠ backslash.
Proof.
  unfold slashOf. destruct (Ascii.eqb c backslash) eqn:E.
  - discriminate.
  - by apply Ascii.eqb_neq in E.
Qed.

Lemma replaceBackslashes_noBackslash s : noBackslash (replaceBackslashes s).
Proof.
  intros n. destruct (replaceBackslashes_replaced s) as [_ H]. rewrite H.
  destruct (String.get n s) as [c|]; simpl; [|done].
  intros [= E]. by apply (slashOf_not_backslash c).
Qed.

Lemma normalizedFrom_intro input t :
  relative_path t = replaceBackslashes input → normalizedFrom input t.
Proof.
  intros E. unfold normalizedFrom. rewrite E.
  split; [done|]. split; [apply replaceBackslashes_replaced|].
  apply replaceBackslashes_noBackslash.
Qed.

Lemma Forall2_normalized_fmap {A} (f : A → string) (g : A → IPipelineTileAttributes) l :
  (∀ a, relative_path (g a) = replaceBackslashes (f a)) →
  Forall2 normalizedFrom (f <$> l) (g <$> l).
Proof.
  intros H. induction l as [|a l IH]; [constructor|].
  rewrite !fmap_cons. constructor; [|done]. by apply normalizedFrom_intro.
Qed.

(** When the parse returns: the file holds a document that either carries
    [pipelineFormat] and a [tiles] array, or carries no [pipelineFormat] and
    has a [monitor] object. *)
Lemma parsePipelineInput_Returns path_basename dataFile projectUpdate w jsonContent :
  fs w !! dataFile = Some (File (InventoryDoc jsonContent)) →
  (if negb (isNullOrUndefined (pipelineFormat jsonContent))
   then is_Some (tiles jsonContent) else is_Some (monitor jsonContent)) →
  ∃ projectUpdate' parsed w',
    parsePipelineInput path_basename dataFile projectUpdate w
      = Returns (projectUpdate', parsed) w'.
Proof.
  intros Hf Hs. unfold parsePipelineInput. rewrite Hf.
  destruct (negb (isNullOrUndefined (pipelineFormat jsonContent))).
  - unfold parsePipelineDefaultInput. destruct (applyExtents _ _ _) as [pu w1].
    destruct Hs as [ts ->]. eauto.
  - unfold parseDashboardInput. destruct Hs as [e ->].
    destruct (applyExtents _ _ _) as [pu w1]. eauto.
Qed.

(** C9. Whichever of the two formats a document is parsed as, the parsed
    vector has one tile per tile record of the document, in order, and the
    [relative_path] of each is the record's [relativePath] with every
    backslash replaced by a forward slash; it contains no backslash. *)
Theorem parsed_relative_path_normalized path_basename dataFile projectUpdate w
    projectUpdate' parsed w' :
  parsePipelineInput path_basename dataFile projectUpdate w
    = Returns (projectUpdate', parsed) w' →
  ∃ jsonContent,
    fs w !! dataFile = Some (File (InventoryDoc jsonContent)) ∧
    Forall2 normalizedFrom (documentPaths jsonContent) parsed ∧
    (∀ t, t ∈ parsed → noBackslash (relative_path t)).
Proof.
  unfold parsePipelineInput. intros H.
  destruct (fs w !! dataFile) as [[|[|jsonContent|]]|]; try done.
  exists jsonContent. split; [done|].
  assert (HF : Forall2 normalizedFrom (documentPaths jsonContent) parsed).
  { unfold documentPaths.
    destruct (negb (isNullOrUndefined (pipelineFormat jsonContent))).
    - unfold parsePipelineDefaultInput in H.
      destruct (applyExtents _ _ _) as [pu w1].
      destruct (tiles jsonContent) as [ts|]; [|done].
      injection H as _ <- _. simpl. by apply Forall2_normalized_fmap.
    - unfold parseDashboardInput in H.
      destruct (monitor jsonContent) as [e|]; [|done].
      destruct (applyExtents _ _ _) as [pu w1].
      injection H as _ <- _.
      induction (tileMap jsonContent) as [|group groups IH]; [constructor|].
      rewrite !bind_cons. apply Forall2_app; [|done].
      by apply Forall2_normalized_fmap. }
  split; [done|].
  intros t Ht. apply list_elem_of_lookup in Ht as [n Hn].
  destruct (Forall2_lookup_r _ _ _ _ _ HF Hn) as (input & _ & _ & _ & Hno).
  exact Hno.
Qed.

(** ** Frame facts about the parsers and the writer *)

Lemma applyExtents_sameStorage e projectUpdate w :
  sameStorage w (applyExtents e projectUpdate w).2.
Proof. by destruct e. Qed.

Lemma parsePipelineInput_sameStorage path_basename dataFile projectUpdate w :
  sameStorage w (worldOf (parsePipelineInput path_basename dataFile projectUpdate w)).
Proof.
  unfold parsePipelineInput.
  destruct (fs w !! dataFile) as [[|[|jsonContent|]]|]; try done.
  destruct (negb _).
  - unfold parsePipelineDefaultInput.
    pose proof (applyExtents_sameStorage (extents jsonContent) projectUpdate w) as H.
    destruct (applyExtents _ _ _) as [pu w1]. by destruct (tiles jsonContent).
  - unfold parseDashboardInput. destruct (monitor jsonContent) as [e|]; [|done].
    pose proof (applyExtents_sameStorage e projectUpdate w) as H.
    by destruct (applyExtents _ _ _) as [pu w1].
Qed.

Lemma writeTileStatus_state path_join root tiles w :
  IProject.input_source_state (project (worldOf (writeTileStatus path_join root tiles w)))
    = IProject.input_source_state (project w).
Proof.
  unfold writeTileStatus.
  destruct (if existsSync w _ then _ else _) as [fs1|]; [|done].
  by destruct (fs1 !! _) as [[|?]|].
Qed.

(** The disk after a call of [writeTileStatus] that returns. *)
Lemma writeTileStatus_fs path_join root tiles w tiles' w' :
  writeTileStatus path_join root tiles w = Returns tiles' w' →
  tiles' = tiles ∧
  w' = setFs (<[path_join root tileStatusJsonFile := File (TileVector tiles)]>
                (delete (path_join root tileStatusJsonFile)
                   match fs w !! path_join root tileStatusJsonFile with
                   | Some node => <[path_join root tileStatusLastJsonFile := node]> (fs w)
                   | None => fs w
                   end)) w.
Proof.
  unfold writeTileStatus, existsSync, copySync.
  set (outputFile := path_join root tileStatusJsonFile).
  set (backupFile := path_join root tileStatusLastJsonFile).
  destruct (fs w !! outputFile) as [[|content]|] eqn:Ho.
  - rewrite bool_decide_eq_true_2 by by eexists.
    destruct (decide (backupFile = outputFile)) as [E|E].
    + rewrite E, Ho, Ho. done.
    + destruct (fs w !! backupFile) as [?|].
      * by rewrite Ho.
      * by rewrite lookup_insert_ne, Ho.
  - rewrite bool_decide_eq_true_2 by by eexists.
    destruct (fs w !! backupFile) as [[|?]|]; [done| |].
    + destruct (<[backupFile:=File content]> (fs w) !! outputFile) as [[|?]|] eqn:H1;
        [|by intros [= <- <-]..].
      destruct (decide (backupFile = outputFile)) as [E|E].
      * by rewrite E, lookup_insert_eq in H1.
      * rewrite lookup_insert_ne, Ho in H1 by done. done.
    + destruct (<[backupFile:=File content]> (fs w) !! outputFile) as [[|?]|] eqn:H1;
        [|by intros [= <- <-]..].
      destruct (decide (backupFile = outputFile)) as [E|E].
      * by rewrite E, lookup_insert_eq in H1.
      * rewrite lookup_insert_ne, Ho in H1 by done. done.
  - rewrite bool_decide_eq_false_2 by (intros [? ?]; done).
    rewrite Ho. by intros [= <- <-].
Qed.

Lemma writeTileStatus_Returns path_join root tiles w tiles' w' :
  writeTileStatus path_join root tiles w = Returns tiles' w' →
  tiles' = tiles ∧ tileTable w' = tileTable w ∧
  fs w' !! path_join root tileStatusJsonFile = Some (File (TileVector tiles)) ∧
  (path_join root tileStatusLastJsonFile ≠ path_join root tileStatusJsonFile →
   ∀ node, fs w !! path_join root tileStatusJsonFile = Some node →
           fs w' !! path_join root tileStatusLastJsonFile = Some node).
Proof.
  set (outputFile := path_join root tileStatusJsonFile).
  set (backupFile := path_join root tileStatusLastJsonFile).
  set (fs1 := match fs w !! outputFile with
              | Some node => <[backupFile := node]> (fs w)
              | None => fs w
              end).
  intros H.
  assert (Hw : tiles' = tiles ∧
               w' = setFs (<[outputFile := File (TileVector tiles)]> (delete outputFile fs1)) w).
  { exact (writeTileStatus_fs _ _ _ _ _ _ H). }
  destruct Hw as [-> ->]. split; [done|]. split; [done|]. split.
  - apply lookup_insert_eq.
  - intros Hne node Hnode. cbn [setFs fs].
    rewrite lookup_insert_ne, lookup_delete_ne by done.
    unfold fs1. rewrite Hnode. apply lookup_insert_eq.
Qed.

Lemma parseAndStore_state path_join path_basename root dataFile w :
  IProject.input_source_state
    (project (worldOf (parseAndStore path_join path_basename root dataFile w)))
    = IProject.input_source_state (project w).
Proof.
  unfold parseAndStore.
  pose proof (parsePipelineInput_sameStorage path_basename dataFile (projectUpdateOf w) w)
    as (_ & _ & Hs).
  destruct (parsePipelineInput _ _ _ _) as [[pu tiles] w1|w1]; [|done].
  rewrite writeTileStatus_state. exact Hs.
Qed.

Lemma parseAndStore_Returns path_join path_basename root dataFile w tiles w' :
  parseAndStore path_join path_basename root dataFile w = Returns tiles w' →
  (∃ projectUpdate w1,
     parsePipelineInput path_basename dataFile (projectUpdateOf w) w
       = Returns (projectUpdate, tiles) w1) ∧
  tileTable w' = tileTable w ∧
  fs w' !! path_join root tileStatusJsonFile = Some (File (TileVector tiles)) ∧
  (path_join root tileStatusLastJsonFile ≠ path_join root tileStatusJsonFile →
   ∀ node, fs w !! path_join root tileStatusJsonFile = Some node →
           fs w' !! path_join root tileStatusLastJsonFile = Some node).
Proof.
  unfold parseAndStore. intros H.
  pose proof (parsePipelineInput_sameStorage path_basename dataFile (projectUpdateOf w) w)
    as (Hfs & Htab & _).
  destruct (parsePipelineInput _ _ _ _) as [[pu parsed] w1|w1]; [|done].
  cbn [worldOf] in Hfs, Htab.
  apply writeTileStatus_Returns in H as (-> & Ht & Hout & Hbak).
  split; [by exists pu, w1|]. split; [congruence|]. split; [done|].
  intros Hne node Hnode. apply Hbak; [done | by rewrite Hfs].
Qed.

Lemma applyExtents_root_path e projectUpdate w :
  IProject.root_path (project (applyExtents e projectUpdate w).2)
    = IProject.root_path (project w).
Proof. by destruct e. Qed.

Lemma parsePipelineInput_root_path path_basename dataFile projectUpdate w :
  IProject.root_path
    (project (worldOf (parsePipelineInput path_basename dataFile projectUpdate w)))
    = IProject.root_path (project w).
Proof.
  unfold parsePipelineInput.
  destruct (fs w !! dataFile) as [[|[|jsonContent|]]|]; try done.
  destruct (negb _).
  - unfold parsePipelineDefaultInput.
    pose proof (applyExtents_root_path (extents jsonContent) projectUpdate w) as H.
    destruct (applyExtents _ _ _) as [pu w1]. by destruct (tiles jsonContent).
  - unfold parseDashboardInput. destruct (monitor jsonContent) as [e|]; [|done].
    pose proof (applyExtents_root_path e projectUpdate w) as H.
    by destruct (applyExtents _ _ _) as [pu w1].
Qed.

(** The writer touches two paths only, and makes no backup when there is no
    snapshot. *)
Lemma writeTileStatus_frame path_join root tiles w tiles' w' :
  writeTileStatus path_join root tiles w = Returns tiles' w' →
  project w' = project w ∧
  (∀ p, p ≠ path_join root tileStatusJsonFile →
        p ≠ path_join root tileStatusLastJsonFile → fs w' !! p = fs w !! p) ∧
  (fs w !! path_join root tileStatusJsonFile = None →
   path_join root tileStatusLastJsonFile ≠ path_join root tileStatusJsonFile →
   fs w' !! path_join root tileStatusLastJsonFile
     = fs w !! path_join root tileStatusLastJsonFile).
Proof.
  set (outputFile := path_join root tileStatusJsonFile).
  set (backupFile := path_join root tileStatusLastJsonFile).
  set (fs1 := match fs w !! outputFile with
              | Some node => <[backupFile := node]> (fs w)
              | None => fs w
              end).
  intros H.
  assert (Hw : w' = setFs (<[outputFile := File (TileVector tiles)]>
                             (delete outputFile fs1)) w).
  { exact (proj2 (writeTileStatus_fs _ _ _ _ _ _ H)). }
  subst w'. split; [done|]. cbn [setFs fs]. split.
  - intros p Ho Hb. rewrite lookup_insert_ne, lookup_delete_ne by done.
    unfold fs1. destruct (fs w !! outputFile); [|done]. by rewrite lookup_insert_ne.
  - intros Hnone Hne. rewrite lookup_insert_ne, lookup_delete_ne by done.
    unfold fs1. by rewrite Hnone.
Qed.

Lemma parseAndStore_frame path_join path_basename root dataFile w tiles w' :
  parseAndStore path_join path_basename root dataFile w = Returns tiles w' →
  IProject.root_path (project w') = IProject.root_path (project w) ∧
  (∀ p, p ≠ path_join root tileStatusJsonFile →
        p ≠ path_join root tileStatusLastJsonFile → fs w' !! p = fs w !! p) ∧
  (fs w !! path_join root tileStatusJsonFile = None →
   path_join root tileStatusLastJsonFile ≠ path_join root tileStatusJsonFile →
   fs w' !! path_join root tileStatusLastJsonFile
     = fs w !! path_join root tileStatusLastJsonFile).
Proof.
  unfold parseAndStore. intros H.
  pose proof (parsePipelineInput_sameStorage path_basename dataFile (projectUpdateOf w) w)
    as (Hfs & _ & _).
  pose proof (parsePipelineInput_root_path path_basename dataFile (projectUpdateOf w) w)
    as Hroot.
  destruct (parsePipelineInput _ _ _ _) as [[pu parsed] w1|w1]; [|done].
  cbn [worldOf] in Hfs, Hroot.
  apply writeTileStatus_frame in H as (Hp & Hframe & Hnb).
  rewrite Hp. split; [done|]. rewrite <- Hfs. by split.
Qed.

(** ** Properties of the inventory reader *)

(** The parse of scenario S1. *)
Lemma parsed_relative_path_normalized_witness :
  ∃ jsonContent,
    fs firstIngestWorld !! "/nrs/sample/pipeline-input.json"%string
      = Some (File (InventoryDoc jsonContent)) ∧
    Forall2 normalizedFrom (documentPaths jsonContent)
      [ pipelineTile posixBasename (jsonTile 1 ("a" +:+ String backslash "b.tif") false);
        pipelineTile posixBasename (jsonTile 2 "c/d.tif" true) ] ∧
    (∀ t, t ∈ [ pipelineTile posixBasename (jsonTile 1 ("a" +:+ String backslash "b.tif") false);
                pipelineTile posixBasename (jsonTile 2 "c/d.tif" true) ] →
          noBackslash (relative_path t)).
Proof.
  apply (parsed_relative_path_normalized posixBasename
           "/nrs/sample/pipeline-input.json" (projectUpdateOf firstIngestWorld)
           firstIngestWorld (projectUpdateOf firstIngestWorld)
           [ pipelineTile posixBasename (jsonTile 1 ("a" +:+ String backslash "b.tif") false);
             pipelineTile posixBasename (jsonTile 2 "c/d.tif" true) ]
           firstIngestWorld).
  vm_compute. reflexivity.
Defined.

Example firstIngest_paths :
  keys [ pipelineTile posixBasename (jsonTile 1 ("a" +:+ String backslash "b.tif") false);
         pipelineTile posixBasename (jsonTile 2 "c/d.tif" true) ]
    = ["a/b.tif"%string; "c/d.tif"%string] ∧
  tile_name (pipelineTile posixBasename (jsonTile 1 ("a" +:+ String backslash "b.tif") false))
    = "b.tif"%string.
Proof. split; reflexivity. Qed.

(** C7. [performJsonUpdate] classifies the input source as follows, where
    [root] is the mapped root path.  If [root] does not exist, the state is
    set to [BadLocation] and the inventory is empty.  Else, if
    [pipeline-input.json] exists in [root], the state is set to [Pipeline]
    and the inventory, when there is one, is what the parser makes of that
    file.  Else, if [dashboard.json] exists, the state is set to [Dashboard]
    and that file is parsed.  Else the state is set to [Missing] and the
    inventory is empty. *)
Theorem performJsonUpdate_classifies path_join path_basename driveMapping w :
  let root := mapRoot driveMapping (IProject.root_path (project w)) in
  let pipelineFile := path_join root pipelineInputJsonFile in
  let dashboardFile := path_join root dashboardJsonFile in
  let result := performJsonUpdate path_join path_basename driveMapping w in
  let parsedFrom dataFile state :=
    result = parseAndStore path_join path_basename root dataFile (updateProject state w) ∧
    IProject.input_source_state (project (worldOf result)) = state ∧
    (∀ inventory w', result = Returns inventory w' →
       ∃ projectUpdate w1,
         parsePipelineInput path_basename dataFile
           (projectUpdateOf (updateProject state w)) (updateProject state w)
           = Returns (projectUpdate, inventory) w1) in
  (existsSync w root = false →
     result = Returns [] (updateProject BadLocation w)) ∧
  (existsSync w root = true → existsSync w pipelineFile = true →
     parsedFrom pipelineFile Pipeline) ∧
  (existsSync w root = true → existsSync w pipelineFile = false →
   existsSync w dashboardFile = true →
     parsedFrom dashboardFile Dashboard) ∧
  (existsSync w root = true → existsSync w pipelineFile = false →
   existsSync w dashboardFile = false →
     result = Returns [] (updateProject Missing w)).
Proof.
  cbv zeta. unfold performJsonUpdate.
  assert (Hp : ∀ dataFile state,
    let r := parseAndStore path_join path_basename
               (mapRoot driveMapping (IProject.root_path (project w)))
               dataFile (updateProject state w) in
    IProject.input_source_state (project (worldOf r)) = state ∧
    (∀ inventory w', r = Returns inventory w' →
       ∃ projectUpdate w1,
         parsePipelineInput path_basename dataFile
           (projectUpdateOf (updateProject state w)) (updateProject state w)
           = Returns (projectUpdate, inventory) w1)).
  { intros dataFile state r. split.
    - unfold r. by rewrite parseAndStore_state.
    - intros inventory w' Hr. by apply parseAndStore_Returns in Hr as [? _]. }
  split; [|split; [|split]].
  - by intros ->.
  - intros -> ->. split; [done|]. apply Hp.
  - intros -> -> ->. split; [done|]. apply Hp.
  - by intros -> -> ->.
Qed.

(** Scenario S1 again: the root and [pipeline-input.json] exist. *)
Lemma performJsonUpdate_classifies_witness :
  performJsonUpdate joinSlash posixBasename [] firstIngestWorld
    = parseAndStore joinSlash posixBasename "/nrs/sample"
        "/nrs/sample/pipeline-input.json" (updateProject Pipeline firstIngestWorld) ∧
  IProject.input_source_state
    (project (worldOf (performJsonUpdate joinSlash posixBasename [] firstIngestWorld)))
    = Pipeline ∧
  (∀ inventory w',
     performJsonUpdate joinSlash posixBasename [] firstIngestWorld = Returns inventory w' →
     ∃ projectUpdate w1,
       parsePipelineInput posixBasename "/nrs/sample/pipeline-input.json"
         (projectUpdateOf (updateProject Pipeline firstIngestWorld))
         (updateProject Pipeline firstIngestWorld)
         = Returns (projectUpdate, inventory) w1).
Proof.
  apply (performJsonUpdate_classifies joinSlash posixBasename [] firstIngestWorld).
  - vm_compute. reflexivity.
  - vm_compute. reflexivity.
Defined.

(** Scenarios S3 and S5, and a root without any inventory file. *)
Example missingRoot_BadLocation :
  performJsonUpdate joinSlash posixBasename [] missingRootWorld
    = Returns [] (updateProject BadLocation missingRootWorld).
Proof. reflexivity. Qed.

Example dashboard_Dashboard :
  ∃ w', performJsonUpdate joinSlash posixBasename [] dashboardWorld
          = Returns [dashboardTile posixBasename
                       {| IDashboardJsonTile.id := Some 7;
                          IDashboardJsonTile.relativePath := "2017-01-01/00/00007";
                          IDashboardJsonTile.contents :=
                            {| latticePosition := None; latticeStep := None |};
                          IDashboardJsonTile.isComplete := true |}] w' ∧
        IProject.input_source_state (project w') = Dashboard ∧
        IProject.sample_z_max (project w') = Some 30.
Proof. eexists. vm_compute. repeat split. Qed.

(** ** One tick under the mass-deletion guard *)

Lemma guardTripWorld_update :
  ∃ w1, performJsonUpdate joinSlash posixBasename [] guardTripWorld
          = Returns [pipelineTile posixBasename (jsonTile 0 "0" false)] w1 ∧
        tileTable w1 = numberedTiles 1002.
Proof. eexists. split; vm_compute; reflexivity. Qed.

(** C1, refuted as stated: with 1002 persisted rows and an inventory of one
    tile the guard fires, yet after the tick [pipeline-storage.json] holds
    the one-tile inventory instead of the earlier snapshot. *)
Lemma guard_tick_rewrites_snapshot :
  ¬ guardTickWritesNothing joinSlash posixBasename [] tickingClock guardTripWorld.
Proof.
  intros H. destruct guardTripWorld_update as (w1 & Hw1 & Ht1).
  destruct (H _ w1 Hw1) as [Hfs _].
  { unfold guardFires. rewrite Ht1. vm_compute. reflexivity. }
  vm_compute in Hfs. discriminate Hfs.
Qed.

(** What a returning [parseAndStore] has done to the disk: the snapshot
    holds the parsed tiles, the backup holds the snapshot that was replaced,
    no other path has changed; the disk is as before only when the snapshot
    and the backup both held these tiles already. *)
Lemma parseAndStore_disk path_join path_basename root dataFile w tiles w' :
  parseAndStore path_join path_basename root dataFile w = Returns tiles w' →
  fs w' !! path_join root tileStatusJsonFile = Some (File (TileVector tiles)) ∧
  (∀ p, p ≠ path_join root tileStatusJsonFile →
        p ≠ path_join root tileStatusLastJsonFile → fs w' !! p = fs w !! p) ∧
  (path_join root tileStatusLastJsonFile ≠ path_join root tileStatusJsonFile →
   (∀ node, fs w !! path_join root tileStatusJsonFile = Some node →
            fs w' !! path_join root tileStatusLastJsonFile = Some node) ∧
   (fs w !! path_join root tileStatusJsonFile = None →
    fs w' !! path_join root tileStatusLastJsonFile
      = fs w !! path_join root tileStatusLastJsonFile) ∧
   (fs w' = fs w ↔
      fs w !! path_join root tileStatusJsonFile = Some (File (TileVector tiles)) ∧
      fs w !! path_join root tileStatusLastJsonFile = Some (File (TileVector tiles)))).
Proof.
  intros H.
  destruct (parseAndStore_Returns _ _ _ _ _ _ _ H) as (_ & _ & Hout & Hbak).
  destruct (parseAndStore_frame _ _ _ _ _ _ _ H) as (_ & Hframe & Hnone).
  split; [done|]. split; [done|]. intros Hne.
  split; [by apply Hbak|]. split; [by intros ?; apply Hnone|]. split.
  - intros Hsame. rewrite Hsame in Hout. split; [done|].
    rewrite <- Hsame. by apply Hbak.
  - intros [Ho Hb]. apply map_eq. intros p.
    destruct (decide (p = path_join root tileStatusJsonFile)) as [->|Hp].
    { by rewrite Hout, Ho. }
    destruct (decide (p = path_join root tileStatusLastJsonFile)) as [->|Hp'].
    { by rewrite (Hbak Hne _ Ho), Hb. }
    by apply Hframe.
Qed.

(** C1, amended.  In a tick in which the guard fires the muxer returns no
    plan and the tile-status table is left as it was, and after
    [performJsonUpdate] has returned nothing more is written to disk.  The
    snapshot however is written by [performJsonUpdate], before the muxer
    runs: whenever an inventory file was found and parsed,
    [pipeline-storage.json] holds the freshly parsed vector at the end of
    the tick, the snapshot it replaced, if any, is in
    [pipeline-storage.json.last], and no other path has changed; the disk is
    then as the tick found it exactly when the snapshot and its backup both
    held that vector already.  When no inventory file was found the disk is
    as the tick found it. *)
Theorem guard_tick_effects path_join path_basename driveMapping clock w knownInput w1 :
  performJsonUpdate path_join path_basename driveMapping w = Returns knownInput w1 →
  guardFires knownInput (tileTable w1) →
  let root := mapRoot driveMapping (IProject.root_path (project w)) in
  let outputFile := path_join root tileStatusJsonFile in
  let backupFile := path_join root tileStatusLastJsonFile in
  refreshTileStatus path_join path_basename driveMapping clock w = Returns true w1 ∧
  muxInputOutputTiles clock knownInput (tileTable w1) = MuxNoPlan ∧
  tileTable w1 = tileTable w ∧
  (inventoryFound path_join w root = true →
     fs w1 !! outputFile = Some (File (TileVector knownInput)) ∧
     (∀ p, p ≠ outputFile → p ≠ backupFile → fs w1 !! p = fs w !! p) ∧
     (backupFile ≠ outputFile →
      (∀ node, fs w !! outputFile = Some node → fs w1 !! backupFile = Some node) ∧
      (fs w !! outputFile = None → fs w1 !! backupFile = fs w !! backupFile) ∧
      (fs w1 = fs w ↔
         fs w !! outputFile = Some (File (TileVector knownInput)) ∧
         fs w !! backupFile = Some (File (TileVector knownInput))))) ∧
  (inventoryFound path_join w root = false → fs w1 = fs w ∧ knownInput = []).
Proof.
  intros Hp G. cbv zeta.
  pose proof (mux_guard clock _ _ G) as Hm.
  split; [|split; [done|]].
  { unfold refreshTileStatus, refreshWithKnownInput. by rewrite Hp, Hm. }
  unfold performJsonUpdate in Hp. unfold inventoryFound.
  set (root := mapRoot driveMapping (IProject.root_path (project w))) in *.
  destruct (existsSync w root); cbn [negb andb] in *.
  - destruct (existsSync w (path_join root pipelineInputJsonFile)); cbn [negb orb] in *.
    + pose proof (parseAndStore_disk _ _ _ _ _ _ _ Hp) as Hd.
      apply parseAndStore_Returns in Hp as (_ & Ht & _).
      split; [exact Ht|]. split; [intros _; exact Hd | done].
    + destruct (existsSync w (path_join root dashboardJsonFile)); cbn [negb] in *.
      * pose proof (parseAndStore_disk _ _ _ _ _ _ _ Hp) as Hd.
        apply parseAndStore_Returns in Hp as (_ & Ht & _).
      split; [exact Ht|]. split; [intros _; exact Hd | done].
      * injection Hp as <- <-. by repeat split.
  - injection Hp as <- <-. by repeat split.
Qed.

(** The tick of scenario S4 at the threshold. *)
Lemma guard_tick_effects_witness :
  let w1 := worldOf (performJsonUpdate joinSlash posixBasename [] guardTripWorld) in
  refreshTileStatus joinSlash posixBasename [] tickingClock guardTripWorld
    = Returns true w1 ∧
  muxInputOutputTiles tickingClock
    [pipelineTile posixBasename (jsonTile 0 "0" false)] (tileTable w1) = MuxNoPlan ∧
  tileTable w1 = tileTable guardTripWorld ∧
  (inventoryFound joinSlash guardTripWorld "/nrs/sample" = true →
     fs w1 !! "/nrs/sample/pipeline-storage.json"%string
       = Some (File (TileVector [pipelineTile posixBasename (jsonTile 0 "0" false)])) ∧
     (∀ p, p ≠ "/nrs/sample/pipeline-storage.json"%string →
           p ≠ "/nrs/sample/pipeline-storage.json.last"%string →
           fs w1 !! p = fs guardTripWorld !! p) ∧
     ("/nrs/sample/pipeline-storage.json.last"%string
        ≠ "/nrs/sample/pipeline-storage.json"%string →
      (∀ node,
         fs guardTripWorld !! "/nrs/sample/pipeline-storage.json"%string = Some node →
         fs w1 !! "/nrs/sample/pipeline-storage.json.last"%string = Some node) ∧
      (fs guardTripWorld !! "/nrs/sample/pipeline-storage.json"%string = None →
       fs w1 !! "/nrs/sample/pipeline-storage.json.last"%string
         = fs guardTripWorld !! "/nrs/sample/pipeline-storage.json.last"%string) ∧
      (fs w1 = fs guardTripWorld ↔
         fs guardTripWorld !! "/nrs/sample/pipeline-storage.json"%string
           = Some (File (TileVector [pipelineTile posixBasename (jsonTile 0 "0" false)])) ∧
         fs guardTripWorld !! "/nrs/sample/pipeline-storage.json.last"%string
           = Some (File (TileVector [pipelineTile posixBasename (jsonTile 0 "0" false)]))))) ∧
  (inventoryFound joinSlash guardTripWorld "/nrs/sample" = false →
     fs w1 = fs guardTripWorld ∧
     [pipelineTile posixBasename (jsonTile 0 "0" false)] = []).
Proof.
  apply (guard_tick_effects joinSlash posixBasename [] tickingClock guardTripWorld
           [pipelineTile posixBasename (jsonTile 0 "0" false)]
           (worldOf (performJsonUpdate joinSlash posixBasename [] guardTripWorld))).
  - vm_compute. reflexivity.
  - unfold guardFires. vm_compute. reflexivity.
Defined.

(** A guard tick that finds an inventory file and still leaves the disk as
    it found it: after two passes the snapshot and its backup hold the
    vector that the tick parses again. *)
Example guard_tick_settled_disk :
  let w := worldOf (performJsonUpdate joinSlash posixBasename []
             (worldOf (performJsonUpdate joinSlash posixBasename [] guardTripWorld))) in
  inventoryFound joinSlash w "/nrs/sample" = true ∧
  muxInputOutputTiles tickingClock
    [pipelineTile posixBasename (jsonTile 0 "0" false)] (tileTable w) = MuxNoPlan ∧
  fs (worldOf (refreshTileStatus joinSlash posixBasename [] tickingClock w)) = fs w.
Proof. cbv zeta. split; [|split]; vm_compute; reflexivity. Qed.

(** Scenario S1 as a whole tick: two inserts, the state [Pipeline], and the
    snapshot on disk. *)
Example firstIngest_tick :
  ∃ w', refreshTileStatus joinSlash posixBasename [] tickingClock firstIngestWorld
          = Returns true w' ∧
        keys (tileTable w') = ["a/b.tif"%string; "c/d.tif"%string] ∧
        prev_stage_status <$> tileTable w' = [Incomplete; Complete] ∧
        this_stage_status <$> tileTable w' = [Incomplete; Complete] ∧
        IProject.input_source_state (project w') = Pipeline ∧
        is_Some (fs w' !! "/nrs/sample/pipeline-storage.json"%string).
Proof. eexists. vm_compute. repeat split. by eexists. Qed.

(** Scenario S2: the persisted row of "x/1.tif" is incomplete and the
    inventory reports the tile complete; one update, nothing else. *)
Example deltaUpdate_plan :
  muxInputOutputTiles tickingClock
    [parsedTile "x/1.tif" Complete] [storedTile "x/1.tif" Incomplete]
  = MuxPlan
      {| toInsert := [];
         toUpdate := [assignUpdate (storedTile "x/1.tif" Incomplete)
                        (parsedTile "x/1.tif" Complete) 1000];
         toReset := []; toDelete := [] |}
      [assignUpdate (storedTile "x/1.tif" Incomplete)
         (parsedTile "x/1.tif" Complete) 1000].
Proof. reflexivity. Qed.

(** ** Facts about the retry loop *)

Lemma count_app p l1 l2 : count p (l1 ++ l2) = (count p l1 + count p l2)%nat.
Proof. unfold count. by rewrite filter_app, length_app. Qed.

Lemma count_refusedRounds k taskExecution :
  count isWrite (refusedRounds k taskExecution) = k ∧
  count isHandled (refusedRounds k taskExecution) = 0%nat ∧
  count isAck (refusedRounds k taskExecution) = 0%nat.
Proof.
  induction k as [|k (IH1 & IH2 & IH3)]; [done|].
  cbn [refusedRounds]. rewrite !count_app, IH1, IH2, IH3. done.
Qed.

Lemma count_accepted taskExecution :
  count isWrite [EvWriteTaskExecution taskExecution;
                 EvOnTaskExecutionComplete taskExecution true] = 1%nat ∧
  count isHandled [EvWriteTaskExecution taskExecution;
                   EvOnTaskExecutionComplete taskExecution true] = 1%nat ∧
  count isAck [EvWriteTaskExecution taskExecution;
               EvOnTaskExecutionComplete taskExecution true] = 0%nat.
Proof. repeat split. Qed.

(** The calls of [acknowledgeMessage] never acknowledge by themselves. *)
Lemma acknowledgeMessage_no_ack fuel env taskExecution n e :
  e ∈ (acknowledgeMessage fuel env taskExecution n).1 → isAck e = false.
Proof.
  revert n. induction fuel as [|fuel IH]; intros n; simpl.
  - intros H. by apply elem_of_nil in H.
  - destruct (writeTaskExecution (env n)) as [[]|].
    + destruct (onTaskExecutionComplete (env n)) as [[|]|].
      * intros H. repeat (apply elem_of_cons in H as [->|H]; [done|]).
        by apply elem_of_nil in H.
      * specialize (IH (S n)).
        destruct (acknowledgeMessage fuel env taskExecution (S n)) as [trace s].
        intros H. repeat (apply elem_of_cons in H as [->|H]; [done|]).
        by apply IH.
      * intros H. repeat (apply elem_of_cons in H as [->|H]; [done|]).
        by apply elem_of_nil in H.
    + intros H. repeat (apply elem_of_cons in H as [->|H]; [done|]).
      by apply elem_of_nil in H.
Qed.

(** A resolved promise: [k] refused rounds, then a write and an accepted
    dispatch, in the call numbered [n + k]. *)
Lemma acknowledgeMessage_Resolved fuel env taskExecution n trace :
  acknowledgeMessage fuel env taskExecution n = (trace, Resolved) →
  ∃ k, (k < fuel)%nat ∧
    trace = refusedRounds k taskExecution
              ++ [EvWriteTaskExecution taskExecution;
                  EvOnTaskExecutionComplete taskExecution true] ∧
    onTaskExecutionComplete (env (n + k)%nat) = Fulfilled true ∧
    (∀ j, (j < k)%nat → onTaskExecutionComplete (env (n + j)%nat) = Fulfilled false) ∧
    (∀ j, (j ≤ k)%nat → writeTaskExecution (env (n + j)%nat) = Fulfilled ()).
Proof.
  revert n trace. induction fuel as [|fuel IH]; intros n trace; simpl; [done|].
  destruct (writeTaskExecution (env n)) as [[]|] eqn:Hw; [|done].
  destruct (onTaskExecutionComplete (env n)) as [[|]|] eqn:Hh; [| |done].
  - intros [= <-]. exists 0%nat. rewrite Nat.add_0_r.
    split; [lia|]. split; [done|]. split; [done|]. split; [intros; lia|].
    intros j Hj. by replace j with 0%nat by lia; rewrite Nat.add_0_r.
  - specialize (IH (S n)).
    destruct (acknowledgeMessage fuel env taskExecution (S n)) as [trace' s].
    intros [= <- ->].
    destruct (IH trace' eq_refl) as (k & Hk & -> & Ht & Hf & Hm).
    exists (S k). split; [lia|]. split; [done|].
    replace (n + S k)%nat with (S n + k)%nat by lia. split; [done|]. split.
    + intros [|j] Hj; [by rewrite Nat.add_0_r|].
      replace (n + S j)%nat with (S n + j)%nat by lia. apply Hf. lia.
    + intros [|j] Hj; [by rewrite Nat.add_0_r|].
      replace (n + S j)%nat with (S n + j)%nat by lia. apply Hm. lia.
Qed.

(** Enough fuel gives the result. *)
Lemma acknowledgeMessage_enough fuel env taskExecution n k :
  (∀ j, (j ≤ k)%nat → writeTaskExecution (env (n + j)%nat) = Fulfilled ()) →
  (∀ j, (j < k)%nat → onTaskExecutionComplete (env (n + j)%nat) = Fulfilled false) →
  onTaskExecutionComplete (env (n + k)%nat) = Fulfilled true →
  (k < fuel)%nat →
  acknowledgeMessage fuel env taskExecution n =
    (refusedRounds k taskExecution
       ++ [EvWriteTaskExecution taskExecution;
           EvOnTaskExecutionComplete taskExecution true], Resolved).
Proof.
  revert n fuel. induction k as [|k IH]; intros n fuel Hm Hf Ht Hlt.
  - destruct fuel as [|fuel]; [lia|]. simpl.
    rewrite Nat.add_0_r in Ht. specialize (Hm 0%nat). rewrite Nat.add_0_r in Hm.
    by rewrite Hm, Ht by lia.
  - destruct fuel as [|fuel]; [lia|]. cbn [acknowledgeMessage].
    pose proof (Hm 0%nat) as Hm0. pose proof (Hf 0%nat) as Hf0.
    rewrite Nat.add_0_r in Hm0, Hf0. rewrite Hm0, Hf0 by lia.
    rewrite (IH (S n) fuel); [done| | | |lia].
    + intros j Hj. replace (S n + j)%nat with (n + S j)%nat by lia. apply Hm. lia.
    + intros j Hj. replace (S n + j)%nat with (n + S j)%nat by lia. apply Hf. lia.
    + by replace (S n + k)%nat with (n + S k)%nat by lia.
Qed.

Lemma ack_position (t pre post : list Event) a b :
  (∀ e, e ∈ t → isAck e = false) →
  t ++ [EvAck a] = pre ++ EvAck b :: post →
  pre = t ∧ post = [] ∧ b = a.
Proof.
  revert pre. induction t as [|e t IH]; intros pre Ht H.
  - destruct pre as [|e' pre]; simpl in H.
    + by injection H as <- <-.
    + injection H as _ H. by destruct pre.
  - destruct pre as [|e' pre]; simpl in H.
    + injection H as -> _. by specialize (Ht _ (list_elem_of_here _ _)).
    + injection H as <- H.
      destruct (IH pre) as (-> & -> & ->); [|done|done].
      intros e' He'. apply Ht. by apply list_elem_of_further.
Qed.

(** ** Properties of the completion intake *)

(** C4. In the processing of a delivery an acknowledgement, if there is one,
    is the last event and carries the delivery's tag; everything before it
    is a run of refused rounds followed by a metrics write for the record
    and a dispatch that the hub answered with [true], so the write and the
    hub's [true] both precede the acknowledgement.  A delivery whose
    dispatch the hub never answers with [true] is not acknowledged, however
    long it is processed. *)
Theorem ack_only_after_success fuel env msg :
  (∀ pre post tag,
     consumeCallback fuel env msg = pre ++ EvAck tag :: post →
     post = [] ∧ tag = deliveryTag msg ∧
     ∃ taskExecution k,
       content msg = Some taskExecution ∧
       pre = refusedRounds k taskExecution
               ++ [EvWriteTaskExecution taskExecution;
                   EvOnTaskExecutionComplete taskExecution true] ∧
       onTaskExecutionComplete (env k) = Fulfilled true ∧
       EvWriteTaskExecution taskExecution ∈ pre ∧
       EvOnTaskExecutionComplete taskExecution true ∈ pre ∧
       count isAck pre = 0%nat) ∧
  ((∀ n, onTaskExecutionComplete (env n) ≠ Fulfilled true) →
   ∀ tag, EvAck tag ∉ consumeCallback fuel env msg).
Proof.
  unfold consumeCallback, handleOneMessage.
  destruct (content msg) as [taskExecution|].
  2:{ split.
      - intros [|e [|e' pre]] post tag H; by simplify_eq/=.
      - intros _ tag H. apply list_elem_of_singleton in H. done. }
  pose proof (acknowledgeMessage_no_ack fuel env taskExecution 0) as Hno.
  pose proof (acknowledgeMessage_Resolved fuel env taskExecution 0) as Hres.
  destruct (acknowledgeMessage fuel env taskExecution 0) as [trace s].
  cbn [fst] in Hno.
  assert (Hnone : s ≠ Resolved → ∀ tag, EvAck tag ∉ trace).
  { intros _ tag Hin. by apply Hno in Hin. }
  split.
  - intros pre post tag H. destruct s.
    + apply ack_position in H as (-> & -> & ->); [|done].
      split; [done|]. split; [done|].
      destruct (Hres trace eq_refl) as (k & _ & -> & Ht & _).
      exists taskExecution, k. split; [done|]. split; [done|]. split; [done|].
      split; [|split].
      * apply elem_of_app. right. apply list_elem_of_here.
      * apply elem_of_app. right. apply list_elem_of_further, list_elem_of_here.
      * rewrite count_app.
        destruct (count_refusedRounds k taskExecution) as (_ & _ & ->).
        by destruct (count_accepted taskExecution) as (_ & _ & ->).
    + exfalso. apply (Hnone ltac:(done) tag). rewrite H.
      apply elem_of_app. right. apply list_elem_of_here.
    + exfalso. apply (Hnone ltac:(done) tag). rewrite H.
      apply elem_of_app. right. apply list_elem_of_here.
  - intros Hnever tag. destruct s; [|by apply Hnone..].
    destruct (Hres trace eq_refl) as (k & _ & _ & Ht & _). by apply Hnever in Ht.
Qed.

(** Scenario S6: the third call is accepted, and the acknowledgement follows
    it; and a delivery that the hub keeps refusing. *)
Lemma ack_only_after_success_witness :
  (∀ tag, EvAck tag ∉ consumeCallback 5 alwaysRefuses sampleMessage) ∧
  [] = @nil Event ∧ 7%nat = deliveryTag sampleMessage ∧
  ∃ taskExecution k,
    content sampleMessage = Some taskExecution ∧
    refusedRounds 2 sampleTaskExecution
      ++ [EvWriteTaskExecution sampleTaskExecution;
          EvOnTaskExecutionComplete sampleTaskExecution true]
      = refusedRounds k taskExecution
          ++ [EvWriteTaskExecution taskExecution;
              EvOnTaskExecutionComplete taskExecution true] ∧
    onTaskExecutionComplete (acceptsAt 2 k) = Fulfilled true ∧
    EvWriteTaskExecution taskExecution
      ∈ refusedRounds 2 sampleTaskExecution
          ++ [EvWriteTaskExecution sampleTaskExecution;
              EvOnTaskExecutionComplete sampleTaskExecution true] ∧
    EvOnTaskExecutionComplete taskExecution true
      ∈ refusedRounds 2 sampleTaskExecution
          ++ [EvWriteTaskExecution sampleTaskExecution;
              EvOnTaskExecutionComplete sampleTaskExecution true] ∧
    count isAck (refusedRounds 2 sampleTaskExecution
                   ++ [EvWriteTaskExecution sampleTaskExecution;
                       EvOnTaskExecutionComplete sampleTaskExecution true]) = 0%nat.
Proof.
  split.
  - apply (proj2 (ack_only_after_success 5 alwaysRefuses sampleMessage)).
    intros n. discriminate.
  - apply (proj1 (ack_only_after_success 5 (acceptsAt 2) sampleMessage)
             (refusedRounds 2 sampleTaskExecution
                ++ [EvWriteTaskExecution sampleTaskExecution;
                    EvOnTaskExecutionComplete sampleTaskExecution true])
             [] 7%nat).
    reflexivity.
Defined.

(** C5, refuted as stated: when the hub refuses the first dispatch and
    accepts the second, the record has been written to the metrics sink
    twice by the time the processing returns success. *)
Lemma retry_repeats_metrics_write :
  handleOneMessage 2 (acceptsAt 1) sampleTaskExecution
    = (refusedRound sampleTaskExecution
         ++ [EvWriteTaskExecution sampleTaskExecution;
             EvOnTaskExecutionComplete sampleTaskExecution true], Resolved) ∧
  ¬ oneWritePerMessage 2 (acceptsAt 1) sampleTaskExecution.
Proof.
  split; [reflexivity|].
  intros H. destruct (H _ eq_refl) as [Hc _]. vm_compute in Hc. discriminate Hc.
Qed.

(** C5, amended.  A message whose processing returns success has been
    through some number [k] of refused dispatches and then one accepted
    dispatch, and each of these [k + 1] dispatches was preceded by a metrics
    write of its own: there are exactly [k + 1] metrics writes (exactly one
    only when the first dispatch is accepted) and exactly one successful
    dispatch, the last.  The result does not depend on how long the
    processing is observed beyond that, and the delivery is then
    acknowledged exactly once. *)
Theorem writes_match_attempts fuel env taskExecution trace :
  handleOneMessage fuel env taskExecution = (trace, Resolved) →
  ∃ k, (k < fuel)%nat ∧
    trace = refusedRounds k taskExecution
              ++ [EvWriteTaskExecution taskExecution;
                  EvOnTaskExecutionComplete taskExecution true] ∧
    count isWrite trace = S k ∧
    count isHandled trace = 1%nat ∧
    onTaskExecutionComplete (env k) = Fulfilled true ∧
    (∀ j, (j < k)%nat → onTaskExecutionComplete (env j) = Fulfilled false) ∧
    (∀ fuel', (k < fuel')%nat →
       handleOneMessage fuel' env taskExecution = (trace, Resolved)) ∧
    (∀ tag,
       consumeCallback fuel env {| deliveryTag := tag; content := Some taskExecution |}
         = trace ++ [EvAck tag] ∧
       count isAck (trace ++ [EvAck tag]) = 1%nat).
Proof.
  unfold handleOneMessage. intros H.
  destruct (acknowledgeMessage_Resolved _ _ _ _ _ H) as (k & Hk & -> & Ht & Hf & Hm).
  destruct (count_refusedRounds k taskExecution) as (Hc1 & Hc2 & Hc3).
  destruct (count_accepted taskExecution) as (Ha1 & Ha2 & Ha3).
  exists k. split; [done|]. split; [done|]. rewrite !count_app, Hc1, Hc2, Ha1, Ha2.
  split; [lia|]. split; [done|].
  split; [by rewrite Nat.add_0_l in Ht|]. split; [done|]. split.
  - intros fuel' Hlt. unfold handleOneMessage. by apply acknowledgeMessage_enough.
  - intros tag. unfold consumeCallback, handleOneMessage. cbn [content deliveryTag].
    rewrite H. split; [done|]. by rewrite !count_app, Hc3, Ha3.
Qed.

(** Scenario S6: two refusals, then success; three metrics writes. *)
Lemma writes_match_attempts_witness :
  ∃ k, (k < 5)%nat ∧
    refusedRounds 2 sampleTaskExecution
      ++ [EvWriteTaskExecution sampleTaskExecution;
          EvOnTaskExecutionComplete sampleTaskExecution true]
      = refusedRounds k sampleTaskExecution
          ++ [EvWriteTaskExecution sampleTaskExecution;
              EvOnTaskExecutionComplete sampleTaskExecution true] ∧
    count isWrite (refusedRounds 2 sampleTaskExecution
      ++ [EvWriteTaskExecution sampleTaskExecution;
          EvOnTaskExecutionComplete sampleTaskExecution true]) = S k ∧
    count isHandled (refusedRounds 2 sampleTaskExecution
      ++ [EvWriteTaskExecution sampleTaskExecution;
          EvOnTaskExecutionComplete sampleTaskExecution true]) = 1%nat ∧
    onTaskExecutionComplete (acceptsAt 2 k) = Fulfilled true ∧
    (∀ j, (j < k)%nat → onTaskExecutionComplete (acceptsAt 2 j) = Fulfilled false) ∧
    (∀ fuel', (k < fuel')%nat →
       handleOneMessage fuel' (acceptsAt 2) sampleTaskExecution
         = (refusedRounds 2 sampleTaskExecution
              ++ [EvWriteTaskExecution sampleTaskExecution;
                  EvOnTaskExecutionComplete sampleTaskExecution true], Resolved)) ∧
    (∀ tag,
       consumeCallback 5 (acceptsAt 2)
         {| deliveryTag := tag; content := Some sampleTaskExecution |}
         = (refusedRounds 2 sampleTaskExecution
              ++ [EvWriteTaskExecution sampleTaskExecution;
                  EvOnTaskExecutionComplete sampleTaskExecution true]) ++ [EvAck tag] ∧
       count isAck ((refusedRounds 2 sampleTaskExecution
              ++ [EvWriteTaskExecution sampleTaskExecution;
                  EvOnTaskExecutionComplete sampleTaskExecution true]) ++ [EvAck tag])
         = 1%nat).
Proof.
  apply (writes_match_attempts 5 (acceptsAt 2) sampleTaskExecution
           (refusedRounds 2 sampleTaskExecution
              ++ [EvWriteTaskExecution sampleTaskExecution;
                  EvOnTaskExecutionComplete sampleTaskExecution true])).
  reflexivity.
Defined.

Example three_writes_before_ack :
  count isWrite (consumeCallback 5 (acceptsAt 2) sampleMessage) = 3%nat ∧
  count isAck (consumeCallback 5 (acceptsAt 2) sampleMessage) = 1%nat ∧
  last (consumeCallback 5 (acceptsAt 2) sampleMessage) = Some (EvAck 7).
Proof. repeat split. Qed.

(** * Part IV: further properties of the code *)

(** ** The muxer *)

(** ** More facts about the lodash functions and the merge *)

Lemma differenceBy_keys_ext array values values' :
  keys values' = keys values → differenceBy array values' = differenceBy array values.
Proof. intros E. unfold differenceBy. by rewrite E. Qed.

Lemma baseIntersection_keys_ext seen array values values' :
  keys values' = keys values →
  baseIntersection seen array values' = baseIntersection seen array values.
Proof.
  intros E. revert seen. induction array as [|u rest IH]; intros seen; [done|].
  cbn [baseIntersection]. rewrite E, !IH. done.
Qed.

Lemma lastIndex_keys_ext k l l' : keys l' = keys l → lastIndex k l' = lastIndex k l.
Proof.
  revert l'. induction l as [|u rest IH]; intros [|u' rest'] E; try done.
  rewrite !keys_cons in E. injection E as Eu Er.
  cbn [lastIndex]. by rewrite (IH rest' Er), Eu.
Qed.

Lemma existingTilePaths_keys_ext l l' :
  keys l' = keys l → existingTilePaths l' = existingTilePaths l.
Proof.
  intros E. apply map_eq. intros k.
  by rewrite !existingTilePaths_lookup, (lastIndex_keys_ext k l l' E).
Qed.

Lemma differenceBy_nil_r array : differenceBy array [] = array.
Proof.
  unfold differenceBy. induction array as [|t rest IH]; [done|].
  rewrite filter_cons_True; [by rewrite IH | apply not_elem_of_nil].
Qed.

Lemma baseIntersection_nil_r seen array : baseIntersection seen array [] = [].
Proof.
  revert seen. induction array as [|t rest IH]; intros seen; [done|].
  cbn [baseIntersection]. destruct (decide _); [apply IH|].
  rewrite decide_False; [apply IH | apply not_elem_of_nil].
Qed.

(** What [muxInputOutputTiles] returns, in terms of the merge. *)
Lemma mux_plan_merge clock knownInput knownOutput sorted knownOutput' :
  muxInputOutputTiles clock knownInput knownOutput = MuxPlan sorted knownOutput' →
  ∃ rs n,
    mergeTiles clock (existingTilePaths knownOutput)
      (intersectionBy knownInput knownOutput) knownOutput
      (length (differenceBy knownInput knownOutput)) = Some (rs, knownOutput', n) ∧
    toUpdate sorted = deref knownOutput' rs.
Proof.
  unfold muxInputOutputTiles. destruct (decide _) as [G|G]; [done|].
  destruct (mergeTiles _ _ _ _ _) as [[[rs st'] m]|]; [|done].
  intros [= <- <-]. by exists rs, m.
Qed.

(** The store after the merge: its length is kept, objects that no input tile
    refers to are as before, and the object of an input tile is the merge of
    its former contents with the tile when their statuses differ (and is then
    among the references returned), and is as before when they agree. *)
Lemma mergeTiles_store clock paths l st ticks rs st' n :
  storeInv paths st →
  NoDup (keys l) →
  mergeTiles clock paths l st ticks = Some (rs, st', n) →
  length st' = length st ∧
  (∀ r, (∀ i, i ∈ l → paths !! relative_path i ≠ Some r) → st' !! r = st !! r) ∧
  (∀ i r o, i ∈ l → paths !! relative_path i = Some r → st !! r = Some o →
     if decide (prev_stage_status o ≠ this_stage_status i)
     then (∃ m, st' !! r = Some (assignUpdate o i (clock m))) ∧ Some r ∈ rs
     else st' !! r = Some o).
Proof.
  revert st ticks rs. induction l as [|i rest IH]; intros st ticks rs Hinv Hnd Hm.
  - injection Hm as <- <- <-. split; [done|]. split; [done|].
    intros i r o Hi. by apply elem_of_nil in Hi.
  - rewrite keys_cons in Hnd. apply NoDup_cons in Hnd as [Hi Hnd].
    cbn [mergeTiles] in Hm. unfold mapGet in Hm.
    destruct (paths !! relative_path i) as [r|] eqn:Hr; [|done].
    destruct (st !! r) as [o|] eqn:Ho; [|done].
    assert (Hfresh : ∀ i', i' ∈ rest → paths !! relative_path i' ≠ Some r).
    { intros i' Hi' Hr'. apply Hi.
      rewrite (storeInv_inj _ _ _ _ _ Hinv Hr Hr'). apply elem_of_keys. eauto. }
    assert (Hlt : (r < length st)%nat) by (eapply lookup_lt_Some; eauto).
    destruct (decide (prev_stage_status o ≠ this_stage_status i)) as [Hp|Hp].
    + set (merged := assignUpdate o i (clock ticks)) in *.
      set (st1 := <[r := merged]> st) in *.
      assert (Hinv1 : storeInv paths st1).
      { intros k r' Hr'. unfold st1. destruct (decide (r' = r)) as [->|Hne].
        - exists merged. rewrite list_lookup_insert_eq by done. split; [done|].
          cbn. destruct (Hinv _ _ Hr) as (t & Ht & Hk).
          rewrite Ho in Ht. injection Ht as <-. rewrite Hk.
          by apply (storeInv_inj _ _ _ _ _ Hinv Hr Hr').
        - rewrite list_lookup_insert_ne by done. by apply Hinv. }
      destruct (mergeTiles clock paths rest st1 (S ticks)) as [[[rs1 st1'] n1]|] eqn:Hm1;
        [|done].
      injection Hm as <- <- <-.
      destruct (IH st1 (S ticks) rs1 Hinv1 Hnd Hm1) as (Hlen & Hf & Hrows).
      split; [by rewrite Hlen; unfold st1; rewrite length_insert|]. split.
      * intros r0 H0. rewrite Hf.
        -- unfold st1. apply list_lookup_insert_ne. intros ->.
           by apply (H0 i (list_elem_of_here _ _)).
        -- intros i' Hi'. apply H0. by apply list_elem_of_further.
      * intros i0 r0 o0 Hi0 Hr0 Ho0. apply elem_of_cons in Hi0 as [->|Hi0].
        -- rewrite Hr in Hr0. injection Hr0 as <-. rewrite Ho in Ho0. injection Ho0 as <-.
           rewrite decide_True by done. split; [|apply list_elem_of_here].
           exists ticks. rewrite (Hf r Hfresh). unfold st1.
           by apply list_lookup_insert_eq.
        -- assert (r0 ≠ r) by (intros ->; by apply (Hfresh i0)).
           assert (Ho1 : st1 !! r0 = Some o0).
           { unfold st1. by rewrite list_lookup_insert_ne. }
           specialize (Hrows i0 r0 o0 Hi0 Hr0 Ho1).
           destruct (decide _); [|done].
           destruct Hrows as [? ?]. split; [done | by apply list_elem_of_further].
    + destruct (mergeTiles clock paths rest st ticks) as [[[rs1 st1'] n1]|] eqn:Hm1;
        [|done].
      injection Hm as <- <- <-.
      destruct (IH st ticks rs1 Hinv Hnd Hm1) as (Hlen & Hf & Hrows).
      split; [done|]. split.
      * intros r0 H0. apply Hf. intros i' Hi'. apply H0. by apply list_elem_of_further.
      * intros i0 r0 o0 Hi0 Hr0 Ho0. apply elem_of_cons in Hi0 as [->|Hi0].
        -- rewrite Hr in Hr0. injection Hr0 as <-. rewrite Ho in Ho0. injection Ho0 as <-.
           rewrite decide_False by done. rewrite (Hf r Hfresh). done.
        -- specialize (Hrows i0 r0 o0 Hi0 Hr0 Ho0).
           destruct (decide _); [|done].
           destruct Hrows as [? ?]. split; [done | by apply list_elem_of_further].
Qed.

(** A merge in which no status differs returns no row and leaves the store
    alone. *)
Lemma mergeTiles_idle clock paths l st ticks :
  (∀ i, i ∈ l → ∃ r o, paths !! relative_path i = Some r ∧ st !! r = Some o ∧
                       prev_stage_status o = this_stage_status i) →
  ∃ rs, mergeTiles clock paths l st ticks = Some (rs, st, ticks) ∧ deref st rs = [].
Proof.
  induction l as [|i rest IH]; intros H.
  - by exists [].
  - destruct (H i (list_elem_of_here _ _)) as (r & o & Hr & Ho & Hp).
    destruct IH as (rs & Hm & Hd).
    { intros i' Hi'. apply H. by apply list_elem_of_further. }
    exists (None :: rs). cbn [mergeTiles]. unfold mapGet.
    rewrite Hr, Ho, decide_False by (by intros ?). rewrite Hm. done.
Qed.

(** The objects of [knownOutput] after a call that returned a plan. *)
Lemma mux_store clock knownInput knownOutput sorted knownOutput' :
  muxInputOutputTiles clock knownInput knownOutput = MuxPlan sorted knownOutput' →
  length knownOutput' = length knownOutput ∧
  ∀ r o, knownOutput !! r = Some o →
    knownOutput' !! r = Some o ∧
      (∀ i, firstByKey (relative_path o) knownInput = Some i →
            lastIndex (relative_path o) knownOutput = Some r →
            prev_stage_status o = this_stage_status i)
    ∨ ∃ i m, firstByKey (relative_path o) knownInput = Some i ∧
             lastIndex (relative_path o) knownOutput = Some r ∧
             prev_stage_status o ≠ this_stage_status i ∧
             knownOutput' !! r = Some (assignUpdate o i (clock m)) ∧
             assignUpdate o i (clock m) ∈ toUpdate sorted.
Proof.
  intros Hm. apply mux_plan_merge in Hm as (rs & n & Hm & Hu).
  destruct (mergeTiles_store _ _ _ _ _ _ _ _ (storeInv_existingTilePaths knownOutput)
              (NoDup_keys_intersectionBy knownInput knownOutput) Hm)
    as (Hlen & Hf & Hrows).
  split; [done|]. intros r o Ho.
  destruct (decide (lastIndex (relative_path o) knownOutput = Some r)) as [Hl|Hl];
    [destruct (firstByKey (relative_path o) knownInput) as [i|] eqn:Hi|].
  - assert (Hint : i ∈ intersectionBy knownInput knownOutput).
    { destruct (firstByKey_Some _ _ _ Hi) as [_ Hk]. apply elem_of_intersectionBy.
      rewrite Hk. split; [|done]. apply elem_of_keys. exists o. split; [|done].
      apply list_elem_of_lookup. eauto. }
    destruct (firstByKey_Some _ _ _ Hi) as [_ Hk].
    assert (Hr : existingTilePaths knownOutput !! relative_path i = Some r).
    { by rewrite existingTilePaths_lookup, Hk. }
    specialize (Hrows i r o Hint Hr Ho).
    destruct (decide (prev_stage_status o ≠ this_stage_status i)) as [Hp|Hp].
    + right. destruct Hrows as [[m Hst] Hin]. exists i, m.
      split; [done|]. split; [done|]. split; [done|]. split; [done|].
      rewrite Hu. unfold deref. apply list_elem_of_omap.
      exists (Some r). split; [done|]. done.
    + left. split; [done|]. intros i' [= <-] _.
      by destruct (decide (prev_stage_status o = this_stage_status i)).
  - left. split; [|done]. rewrite <- Ho. apply Hf. intros i Hi' Hr.
    apply elem_of_intersectionBy in Hi' as [_ Hfi].
    rewrite existingTilePaths_lookup in Hr.
    destruct (lastIndex_Some _ _ _ Hr) as (t & Ht & Hk).
    rewrite Ho in Ht. injection Ht as <-. rewrite Hk in Hi. congruence.
  - left. split; [|intros; done]. rewrite <- Ho. apply Hf. intros i Hi Hr. apply Hl.
    rewrite existingTilePaths_lookup in Hr.
    destruct (lastIndex_Some _ _ _ Hr) as (t & Ht & Hk).
    rewrite Ho in Ht. injection Ht as <-. by rewrite Hk.
Qed.

Lemma mux_store_keys clock knownInput knownOutput sorted knownOutput' :
  muxInputOutputTiles clock knownInput knownOutput = MuxPlan sorted knownOutput' →
  keys knownOutput' = keys knownOutput.
Proof.
  intros Hm. destruct (mux_store _ _ _ _ _ Hm) as [Hlen Hobj].
  apply list_eq. intros r. unfold keys. rewrite !list_lookup_fmap.
  destruct (knownOutput !! r) as [o|] eqn:Ho.
  - destruct (Hobj r o Ho) as [[-> _]|(i & m & _ & _ & _ & -> & _)]; done.
  - apply lookup_ge_None in Ho. rewrite <- Hlen in Ho.
    apply lookup_ge_None in Ho. by rewrite Ho.
Qed.

Lemma baseIntersection_sublist seen array values :
  keys (baseIntersection seen array values) `sublist_of` keys array.
Proof.
  revert seen. induction array as [|u rest IH]; intros seen; [constructor|].
  cbn [baseIntersection]. rewrite keys_cons.
  destruct (decide _); [apply sublist_cons, IH|].
  destruct (decide _); [|apply sublist_cons, IH].
  rewrite keys_cons. apply sublist_skip, IH.
Qed.

(** ** Further properties of the muxer *)

(** X1. The buckets of a plan, by path: a path is inserted exactly when the
    inventory has it and the persisted vector has not; it is deleted exactly
    when the persisted vector has it and the inventory has not; it can be
    updated only when both have it.  So no path is in two buckets.  Inserts
    and updates follow the order of the inventory, deletes the order of the
    persisted vector, and [toReset] is always empty. *)
Theorem mux_bucket_contents clock knownInput knownOutput sorted knownOutput' :
  muxInputOutputTiles clock knownInput knownOutput = MuxPlan sorted knownOutput' →
  (∀ k, k ∈ keys (toInsert sorted) ↔ k ∈ keys knownInput ∧ k ∉ keys knownOutput) ∧
  (∀ k, k ∈ keys (toUpdate sorted) → k ∈ keys knownInput ∧ k ∈ keys knownOutput) ∧
  (∀ k, k ∈ toDelete sorted ↔ k ∈ keys knownOutput ∧ k ∉ keys knownInput) ∧
  keys (toInsert sorted) = filter (λ k, k ∉ keys knownOutput) (keys knownInput) ∧
  keys (toUpdate sorted) `sublist_of` keys knownInput ∧
  toDelete sorted = filter (λ k, k ∉ keys knownInput) (keys knownOutput) ∧
  toReset sorted = [].
Proof.
  intros Hm. apply mux_plan_inv in Hm as [_ ->].
  cbn [planOf toInsert toUpdate toDelete toReset].
  assert (Hins : keys (imap (λ k inputTile, assignInsert inputTile (clock k))
                         (differenceBy knownInput knownOutput))
                 = filter (λ k, k ∉ keys knownOutput) (keys knownInput)).
  { by rewrite keys_imap_assignInsert, keys_differenceBy. }
  assert (Hdel : relative_path <$> differenceBy knownOutput knownInput
                 = filter (λ k, k ∉ keys knownInput) (keys knownOutput)).
  { apply (keys_differenceBy knownOutput knownInput). }
  assert (Hupd : keys (mergePure clock (λ k, lastByKey k knownOutput)
                         (intersectionBy knownInput knownOutput)
                         (length (differenceBy knownInput knownOutput)))
                 `sublist_of` keys (intersectionBy knownInput knownOutput)).
  { apply mergePure_keys, keyed_lastByKey. }
  split; [|split; [|split; [|split; [|split; [|split]]]]]; try done.
  - intros k. rewrite Hins, list_elem_of_filter. tauto.
  - intros k Hk. apply (elem_of_sublist _ _ _ Hk) in Hupd as Hk'. clear Hk.
    rename Hk' into Hk.
    apply elem_of_keys in Hk as (i & Hi & <-).
    apply elem_of_intersectionBy in Hi as [HO Hf]. split; [|done].
    apply firstByKey_Some in Hf as [? _]. apply elem_of_keys. eauto.
  - intros k. rewrite Hdel, list_elem_of_filter. tauto.
  - etrans; [exact Hupd|]. apply baseIntersection_sublist.
Qed.

(** A pass with one insert, one update and one delete. *)
Lemma mux_bucket_contents_witness :
  (∀ k, k ∈ keys [assignInsert (parsedTile "new.tif" Incomplete) 1000] ↔
        k ∈ keys [parsedTile "x/1.tif" Complete; parsedTile "new.tif" Incomplete] ∧
        k ∉ keys [storedTile "x/1.tif" Incomplete; storedTile "old.tif" Complete]) ∧
  (∀ k, k ∈ keys [assignUpdate (storedTile "x/1.tif" Incomplete)
                    (parsedTile "x/1.tif" Complete) 1001] →
        k ∈ keys [parsedTile "x/1.tif" Complete; parsedTile "new.tif" Incomplete] ∧
        k ∈ keys [storedTile "x/1.tif" Incomplete; storedTile "old.tif" Complete]) ∧
  (∀ k, k ∈ ["old.tif"%string] ↔
        k ∈ keys [storedTile "x/1.tif" Incomplete; storedTile "old.tif" Complete] ∧
        k ∉ keys [parsedTile "x/1.tif" Complete; parsedTile "new.tif" Incomplete]) ∧
  keys [assignInsert (parsedTile "new.tif" Incomplete) 1000]
    = filter (λ k, k ∉ keys [storedTile "x/1.tif" Incomplete; storedTile "old.tif" Complete])
        (keys [parsedTile "x/1.tif" Complete; parsedTile "new.tif" Incomplete]) ∧
  keys [assignUpdate (storedTile "x/1.tif" Incomplete)
          (parsedTile "x/1.tif" Complete) 1001]
    `sublist_of` keys [parsedTile "x/1.tif" Complete; parsedTile "new.tif" Incomplete] ∧
  ["old.tif"%string]
    = filter (λ k, k ∉ keys [parsedTile "x/1.tif" Complete; parsedTile "new.tif" Incomplete])
        (keys [storedTile "x/1.tif" Incomplete; storedTile "old.tif" Complete]) ∧
  @nil IPipelineTileAttributes = [].
Proof.
  apply (mux_bucket_contents tickingClock
           [parsedTile "x/1.tif" Complete; parsedTile "new.tif" Incomplete]
           [storedTile "x/1.tif" Incomplete; storedTile "old.tif" Complete]
           {| toInsert := [assignInsert (parsedTile "new.tif" Incomplete) 1000];
              toUpdate := [assignUpdate (storedTile "x/1.tif" Incomplete)
                             (parsedTile "x/1.tif" Complete) 1001];
              toReset := [];
              toDelete := ["old.tif"%string] |}
           [assignUpdate (storedTile "x/1.tif" Incomplete)
              (parsedTile "x/1.tif" Complete) 1001;
            storedTile "old.tif" Complete]).
  vm_compute. reflexivity.
Defined.

(** X2. The rows to insert: the [j]-th one is made of the [j]-th inventory
    tile whose path is not persisted; it copies the tile's path, index, name,
    statuses, lattice position and step, starts its three aggregates at 0,
    and has the [j]-th clock reading of the call as both [created_at] and
    [updated_at]. *)
Theorem mux_insert_rows clock knownInput knownOutput sorted knownOutput' j row :
  muxInputOutputTiles clock knownInput knownOutput = MuxPlan sorted knownOutput' →
  toInsert sorted !! j = Some row →
  ∃ inputTile,
    differenceBy knownInput knownOutput !! j = Some inputTile ∧
    inputTile ∈ knownInput ∧ (relative_path inputTile ∉ keys knownOutput) ∧
    relative_path row = relative_path inputTile ∧
    index row = index inputTile ∧ tile_name row = tile_name inputTile ∧
    prev_stage_status row = prev_stage_status inputTile ∧
    this_stage_status row = this_stage_status inputTile ∧
    lat_x row = lat_x inputTile ∧ lat_y row = lat_y inputTile ∧
    lat_z row = lat_z inputTile ∧
    step_x row = step_x inputTile ∧ step_y row = step_y inputTile ∧
    step_z row = step_z inputTile ∧
    duration row = Some 0 ∧ cpu_high row = Some 0 ∧ memory_high row = Some 0 ∧
    created_at row = Some (clock j) ∧ updated_at row = Some (clock j).
Proof.
  intros Hm Hj. apply mux_plan_inv in Hm as [_ ->].
  cbn [planOf toInsert] in Hj. rewrite list_lookup_imap in Hj.
  destruct (differenceBy knownInput knownOutput !! j) as [inputTile|] eqn:Hd; [|done].
  injection Hj as <-. exists inputTile. split; [done|].
  assert (Hin : inputTile ∈ differenceBy knownInput knownOutput).
  { apply list_elem_of_lookup. eauto. }
  apply elem_of_differenceBy in Hin as [? ?]. by repeat split.
Qed.

Lemma mux_insert_rows_witness :
  ∃ inputTile,
    differenceBy [parsedTile "x/1.tif" Complete; parsedTile "new.tif" Incomplete]
      [storedTile "x/1.tif" Incomplete; storedTile "old.tif" Complete] !! 0%nat
      = Some inputTile ∧
    inputTile ∈ [parsedTile "x/1.tif" Complete; parsedTile "new.tif" Incomplete] ∧
    (relative_path inputTile
      ∉ keys [storedTile "x/1.tif" Incomplete; storedTile "old.tif" Complete]) ∧
    "new.tif"%string = relative_path inputTile ∧
    None = index inputTile ∧ "new.tif"%string = tile_name inputTile ∧
    Incomplete = prev_stage_status inputTile ∧
    Incomplete = this_stage_status inputTile ∧
    None = lat_x inputTile ∧ None = lat_y inputTile ∧ None = lat_z inputTile ∧
    None = step_x inputTile ∧ None = step_y inputTile ∧ None = step_z inputTile ∧
    Some 0 = Some 0 ∧ Some 0 = Some 0 ∧ Some 0 = Some 0 ∧
    Some 1000 = Some (tickingClock 0%nat) ∧ Some 1000 = Some (tickingClock 0%nat).
Proof.
  apply (mux_insert_rows tickingClock
           [parsedTile "x/1.tif" Complete; parsedTile "new.tif" Incomplete]
           [storedTile "x/1.tif" Incomplete; storedTile "old.tif" Complete]
           {| toInsert := [assignInsert (parsedTile "new.tif" Incomplete) 1000];
              toUpdate := [assignUpdate (storedTile "x/1.tif" Incomplete)
                             (parsedTile "x/1.tif" Complete) 1001];
              toReset := [];
              toDelete := ["old.tif"%string] |}
           [assignUpdate (storedTile "x/1.tif" Incomplete)
              (parsedTile "x/1.tif" Complete) 1001;
            storedTile "old.tif" Complete]
           0%nat (assignInsert (parsedTile "new.tif" Incomplete) 1000)).
  - vm_compute. reflexivity.
  - reflexivity.
Defined.

(** X3. The muxer changes the persisted objects in place, and only those it
    reports: after a call that returned a plan, [knownOutput] has the same
    objects at the same positions; each object is either exactly as before or
    is one of the rows of [toUpdate]; every row of [toUpdate] is one of these
    objects; and no object has changed its path, its three aggregates or its
    [created_at]. *)
Theorem mux_mutates_in_place clock knownInput knownOutput sorted knownOutput' :
  muxInputOutputTiles clock knownInput knownOutput = MuxPlan sorted knownOutput' →
  length knownOutput' = length knownOutput ∧
  (∀ row, row ∈ toUpdate sorted → row ∈ knownOutput') ∧
  (∀ r o, knownOutput !! r = Some o →
     ∃ o', knownOutput' !! r = Some o' ∧
       (o' = o ∨ o' ∈ toUpdate sorted) ∧
       relative_path o' = relative_path o ∧
       duration o' = duration o ∧ cpu_high o' = cpu_high o ∧
       memory_high o' = memory_high o ∧ created_at o' = created_at o).
Proof.
  intros Hm. destruct (mux_store _ _ _ _ _ Hm) as [Hlen Hobj].
  split; [done|]. split.
  - intros row Hrow. apply mux_plan_merge in Hm as (rs & n & _ & Hu).
    rewrite Hu in Hrow. unfold deref in Hrow.
    apply list_elem_of_omap in Hrow as ([r|] & _ & Hr); [|done].
    apply list_elem_of_lookup. by exists r.
  - intros r o Ho.
    destruct (Hobj r o Ho) as [[Hr _]|(i & m & _ & _ & _ & Hr & Hin)].
    + exists o. split; [done|]. split; [by left|]. done.
    + exists (assignUpdate o i (clock m)). split; [done|]. split; [by right|]. done.
Qed.

Lemma mux_mutates_in_place_witness :
  length [assignUpdate (storedTile "x/1.tif" Incomplete)
            (parsedTile "x/1.tif" Complete) 1001;
          storedTile "old.tif" Complete]
    = length [storedTile "x/1.tif" Incomplete; storedTile "old.tif" Complete] ∧
  (∀ row, row ∈ [assignUpdate (storedTile "x/1.tif" Incomplete)
                   (parsedTile "x/1.tif" Complete) 1001] →
          row ∈ [assignUpdate (storedTile "x/1.tif" Incomplete)
                   (parsedTile "x/1.tif" Complete) 1001;
                 storedTile "old.tif" Complete]) ∧
  (∀ r o, [storedTile "x/1.tif" Incomplete; storedTile "old.tif" Complete] !! r = Some o →
     ∃ o', [assignUpdate (storedTile "x/1.tif" Incomplete)
              (parsedTile "x/1.tif" Complete) 1001;
            storedTile "old.tif" Complete] !! r = Some o' ∧
       (o' = o ∨ o' ∈ [assignUpdate (storedTile "x/1.tif" Incomplete)
                         (parsedTile "x/1.tif" Complete) 1001]) ∧
       relative_path o' = relative_path o ∧
       duration o' = duration o ∧ cpu_high o' = cpu_high o ∧
       memory_high o' = memory_high o ∧ created_at o' = created_at o).
Proof.
  apply (mux_mutates_in_place tickingClock
           [parsedTile "x/1.tif" Complete; parsedTile "new.tif" Incomplete]
           [storedTile "x/1.tif" Incomplete; storedTile "old.tif" Complete]
           {| toInsert := [assignInsert (parsedTile "new.tif" Incomplete) 1000];
              toUpdate := [assignUpdate (storedTile "x/1.tif" Incomplete)
                             (parsedTile "x/1.tif" Complete) 1001];
              toReset := [];
              toDelete := ["old.tif"%string] |}).
  vm_compute. reflexivity.
Defined.

(** X4. Merging settles: when every inventory tile has its two statuses equal
    (as parsed tiles have), a second call of the muxer with the same
    inventory on the objects that the first call left behind returns a plan
    without updates and changes no object; its inserts and deletes are those
    of the first call. *)
Theorem mux_second_pass_idle clock clock' knownInput knownOutput sorted knownOutput' :
  (∀ i, i ∈ knownInput → prev_stage_status i = this_stage_status i) →
  muxInputOutputTiles clock knownInput knownOutput = MuxPlan sorted knownOutput' →
  ∃ sorted',
    muxInputOutputTiles clock' knownInput knownOutput' = MuxPlan sorted' knownOutput' ∧
    toUpdate sorted' = [] ∧
    keys (toInsert sorted') = keys (toInsert sorted) ∧
    toDelete sorted' = toDelete sorted.
Proof.
  intros Hst Hm.
  pose proof (mux_store_keys _ _ _ _ _ Hm) as Hkeys.
  destruct (mux_store _ _ _ _ _ Hm) as [Hlen Hobj].
  destruct (mux_plan_inv _ _ _ _ _ Hm) as [G ->].
  assert (Hidle : ∀ i, i ∈ intersectionBy knownInput knownOutput →
    ∃ r o, existingTilePaths knownOutput !! relative_path i = Some r ∧
           knownOutput' !! r = Some o ∧
           prev_stage_status o = this_stage_status i).
  { intros i Hi. destruct (intersectionBy_in_map _ _ _ Hi) as [r Hr].
    destruct (existingTilePaths_Some _ _ _ Hr) as (o & Ho & Hk).
    apply elem_of_intersectionBy in Hi as [_ Hf].
    rewrite existingTilePaths_lookup in Hr. rewrite <- Hk in Hf, Hr.
    exists r. destruct (Hobj r o Ho) as [[Hr' Hp]|(i' & m & Hf' & _ & _ & Hr' & _)].
    - exists o. rewrite existingTilePaths_lookup, <- Hk. by auto.
    - exists (assignUpdate o i' (clock m)).
      rewrite existingTilePaths_lookup, <- Hk. split; [done|]. split; [done|].
      rewrite Hf in Hf'. injection Hf' as <-. cbn.
      apply Hst. by apply firstByKey_Some in Hf as [? _]. }
  unfold muxInputOutputTiles. rewrite decide_False.
  2:{ unfold guardFires in G. by rewrite Hlen. }
  unfold intersectionBy.
  rewrite (differenceBy_keys_ext knownInput knownOutput knownOutput' Hkeys),
    (baseIntersection_keys_ext ∅ knownInput knownOutput knownOutput' Hkeys),
    (existingTilePaths_keys_ext knownOutput knownOutput' Hkeys).
  destruct (mergeTiles_idle clock' (existingTilePaths knownOutput)
              (baseIntersection ∅ knownInput knownOutput) knownOutput'
              (length (differenceBy knownInput knownOutput)) Hidle)
    as (rs & -> & Hd).
  eexists. split; [reflexivity|]. cbn [toUpdate toInsert toDelete planOf].
  split; [done|]. split; [by rewrite !keys_imap_assignInsert|].
  change (keys (differenceBy knownOutput' knownInput)
          = keys (differenceBy knownOutput knownInput)).
  by rewrite !keys_differenceBy, Hkeys.
Qed.

(** The second pass of scenario S2. *)
Lemma mux_second_pass_idle_witness :
  ∃ sorted',
    muxInputOutputTiles tickingClock [parsedTile "x/1.tif" Complete]
      [assignUpdate (storedTile "x/1.tif" Incomplete) (parsedTile "x/1.tif" Complete) 1000]
    = MuxPlan sorted'
        [assignUpdate (storedTile "x/1.tif" Incomplete)
           (parsedTile "x/1.tif" Complete) 1000] ∧
    toUpdate sorted' = [] ∧
    keys (toInsert sorted') = keys (@nil IPipelineTileAttributes) ∧
    toDelete sorted' = [].
Proof.
  apply (mux_second_pass_idle tickingClock tickingClock
           [parsedTile "x/1.tif" Complete] [storedTile "x/1.tif" Incomplete]
           {| toInsert := [];
              toUpdate := [assignUpdate (storedTile "x/1.tif" Incomplete)
                             (parsedTile "x/1.tif" Complete) 1000];
              toReset := []; toDelete := [] |}).
  - intros i Hi. apply list_elem_of_singleton in Hi. by subst i.
  - reflexivity.
Defined.

(** X5. Empty vectors.  With nothing persisted the guard cannot fire and
    every inventory tile is inserted, nothing updated or deleted.  With an
    empty inventory the plan deletes every persisted row, as long as there
    are at most 1000 of them; with more the guard fires. *)
Theorem mux_empty_vectors clock l :
  muxInputOutputTiles clock l []
    = MuxPlan {| toInsert := imap (λ k inputTile, assignInsert inputTile (clock k)) l;
                 toUpdate := []; toReset := []; toDelete := [] |} [] ∧
  ((length l ≤ 1000)%nat →
   muxInputOutputTiles clock [] l
     = MuxPlan {| toInsert := []; toUpdate := []; toReset := [];
                  toDelete := keys l |} l) ∧
  ((1000 < length l)%nat → muxInputOutputTiles clock [] l = MuxNoPlan).
Proof.
  split; [|split].
  - unfold muxInputOutputTiles. rewrite decide_False by (cbn [length]; lia).
    unfold intersectionBy. rewrite differenceBy_nil_r, baseIntersection_nil_r.
    done.
  - intros Hl. unfold muxInputOutputTiles. rewrite decide_False by (cbn [length]; lia).
    rewrite differenceBy_nil_r. done.
  - intros Hl. apply mux_guard. unfold guardFires. cbn [length]. lia.
Qed.

Lemma mux_empty_vectors_witness :
  muxInputOutputTiles tickingClock [] (numberedTiles 3)
    = MuxPlan {| toInsert := []; toUpdate := []; toReset := [];
                 toDelete := keys (numberedTiles 3) |} (numberedTiles 3) ∧
  muxInputOutputTiles tickingClock [] (numberedTiles 1001) = MuxNoPlan.
Proof.
  split.
  - apply (proj1 (proj2 (mux_empty_vectors tickingClock (numberedTiles 3)))).
    unfold numberedTiles. rewrite length_fmap, length_seq. lia.
  - apply (proj2 (proj2 (mux_empty_vectors tickingClock (numberedTiles 1001)))).
    unfold numberedTiles. rewrite length_fmap, length_seq. lia.
Defined.

(** ** The ingestor *)

(** ** Further facts about the parsers and the writer *)

Lemma replaceBackslashes_fixed s : noBackslash s → replaceBackslashes s = s.
Proof.
  induction s as [|c s IH]; intros H; [done|]. cbn [replaceBackslashes].
  rewrite IH.
  - destruct (Ascii.eqb c backslash) eqn:E; [|done].
    apply Ascii.eqb_eq in E. subst c. by specialize (H 0%nat).
  - intros n. apply (H (S n)).
Qed.

Lemma parsePipelineInput_Throws path_basename dataFile projectUpdate w :
  ¬ parsable w dataFile →
  ∃ w1, parsePipelineInput path_basename dataFile projectUpdate w = Throws w1.
Proof.
  intros Hn. unfold parsePipelineInput.
  destruct (fs w !! dataFile) as [[|[|jsonContent|]]|] eqn:Hf; try by eexists.
  destruct (negb (isNullOrUndefined (pipelineFormat jsonContent))) eqn:Hfmt.
  - unfold parsePipelineDefaultInput. destruct (applyExtents _ _ _) as [pu w1].
    destruct (tiles jsonContent) as [ts|] eqn:Ht; [|by eexists].
    exfalso. apply Hn. exists jsonContent. rewrite Hfmt, Ht. by split.
  - unfold parseDashboardInput.
    destruct (monitor jsonContent) as [e|] eqn:Hmon; [|by eexists].
    exfalso. apply Hn. exists jsonContent. rewrite Hfmt, Hmon. by split.
Qed.

(** What the parse returns is the tiles of the document, by its format. *)
Lemma parsePipelineInput_tiles path_basename dataFile projectUpdate w
    projectUpdate' parsed w' jsonContent :
  fs w !! dataFile = Some (File (InventoryDoc jsonContent)) →
  parsePipelineInput path_basename dataFile projectUpdate w
    = Returns (projectUpdate', parsed) w' →
  parsed = documentTiles path_basename jsonContent.
Proof.
  intros Hf. unfold parsePipelineInput, documentTiles. rewrite Hf.
  destruct (negb (isNullOrUndefined (pipelineFormat jsonContent))).
  - unfold parsePipelineDefaultInput. destruct (applyExtents _ _ _) as [pu w1].
    destruct (tiles jsonContent) as [ts|]; [|done]. by intros [= _ <- _].
  - unfold parseDashboardInput. destruct (monitor jsonContent) as [e|]; [|done].
    destruct (applyExtents _ _ _) as [pu w1]. by intros [= _ <- _].
Qed.

Lemma parsePipelineInput_doc path_basename dataFile projectUpdate w result w' :
  parsePipelineInput path_basename dataFile projectUpdate w = Returns result w' →
  ∃ jsonContent, fs w !! dataFile = Some (File (InventoryDoc jsonContent)).
Proof.
  unfold parsePipelineInput.
  destruct (fs w !! dataFile) as [[|[|jsonContent|]]|]; try done. eauto.
Qed.

(** [performJsonUpdate] in an existing root, by the choice of the data file. *)
Lemma performJsonUpdate_selected path_join path_basename driveMapping w :
  existsSync w (mapRoot driveMapping (IProject.root_path (project w))) = true →
  performJsonUpdate path_join path_basename driveMapping w =
    match selectedInput path_join w (mapRoot driveMapping (IProject.root_path (project w))) with
    | Some (dataFile, state) =>
        parseAndStore path_join path_basename
          (mapRoot driveMapping (IProject.root_path (project w))) dataFile
          (updateProject state w)
    | None => Returns [] (updateProject Missing w)
    end.
Proof.
  intros Hroot. unfold performJsonUpdate, selectedInput. rewrite Hroot. cbn [negb].
  destruct (existsSync w (path_join _ pipelineInputJsonFile)); [done|]. cbn [negb].
  by destruct (existsSync w (path_join _ dashboardJsonFile)).
Qed.

Lemma inventoryFound_selected path_join w root :
  inventoryFound path_join w root = true →
  existsSync w root = true ∧ is_Some (selectedInput path_join w root).
Proof.
  unfold inventoryFound, selectedInput. intros H.
  apply andb_true_iff in H as [-> H]. split; [done|].
  destruct (existsSync w (path_join root pipelineInputJsonFile)); [by eexists|].
  destruct (existsSync w (path_join root dashboardJsonFile)); [by eexists|done].
Qed.

(** ** Further properties of the inventory reader and writer *)

(** X6. A data file that cannot be parsed (text that is not JSON, a document
    in the pipeline format without [tiles], a document without
    [pipelineFormat] and without [monitor]) makes [performJsonUpdate] throw.
    The input-source state has been published by then, according to the name
    of the file; the files on disk, the snapshot among them, and the
    tile-status table are as they were. *)
Theorem performJsonUpdate_parse_failure path_join path_basename driveMapping w
    dataFile state :
  let root := mapRoot driveMapping (IProject.root_path (project w)) in
  existsSync w root = true →
  selectedInput path_join w root = Some (dataFile, state) →
  ¬ parsable w dataFile →
  ∃ w1,
    performJsonUpdate path_join path_basename driveMapping w = Throws w1 ∧
    IProject.input_source_state (project w1) = state ∧
    fs w1 = fs w ∧ tileTable w1 = tileTable w.
Proof.
  intros root Hroot Hsel Hn.
  rewrite (performJsonUpdate_selected _ _ _ _ Hroot). fold root. rewrite Hsel.
  unfold parseAndStore.
  destruct (parsePipelineInput_Throws path_basename dataFile
              (projectUpdateOf (updateProject state w)) (updateProject state w))
    as [w1 Hp]; [done|].
  pose proof (parsePipelineInput_sameStorage path_basename dataFile
                (projectUpdateOf (updateProject state w)) (updateProject state w))
    as (Hfs & Ht & Hs).
  rewrite Hp in *. cbn [worldOf] in *. by exists w1.
Qed.

Lemma performJsonUpdate_parse_failure_witness :
  ∃ w1,
    performJsonUpdate joinSlash posixBasename [] (worldWith NotJson) = Throws w1 ∧
    IProject.input_source_state (project w1) = Pipeline ∧
    fs w1 = fs (worldWith NotJson) ∧ tileTable w1 = tileTable (worldWith NotJson).
Proof.
  apply (performJsonUpdate_parse_failure joinSlash posixBasename [] (worldWith NotJson)
           "/nrs/sample/pipeline-input.json" Pipeline).
  - vm_compute. reflexivity.
  - vm_compute. reflexivity.
  - intros (jsonContent & Hf & _). vm_compute in Hf. discriminate Hf.
Defined.

(** X7. A document in the pipeline format that has extents but no [tiles]
    array makes [performJsonUpdate] throw after the extents have been stored:
    the six sample bounds of the project are those of the document, although
    no tile was read and nothing was written to disk. *)
Theorem extents_stored_before_failure path_join path_basename driveMapping w
    dataFile state jsonContent e :
  let root := mapRoot driveMapping (IProject.root_path (project w)) in
  existsSync w root = true →
  selectedInput path_join w root = Some (dataFile, state) →
  fs w !! dataFile = Some (File (InventoryDoc jsonContent)) →
  isNullOrUndefined (pipelineFormat jsonContent) = false →
  extents jsonContent = Some e →
  tiles jsonContent = None →
  ∃ w1,
    performJsonUpdate path_join path_basename driveMapping w = Throws w1 ∧
    sampleBounds (project w1) = extentBounds e ∧
    IProject.input_source_state (project w1) = state ∧
    fs w1 = fs w ∧ tileTable w1 = tileTable w.
Proof.
  intros root Hroot Hsel Hf Hfmt He Ht.
  rewrite (performJsonUpdate_selected _ _ _ _ Hroot). fold root. rewrite Hsel.
  unfold parseAndStore, parsePipelineInput. cbn [updateProject fs].
  rewrite Hf, Hfmt. cbn [negb]. unfold parsePipelineDefaultInput.
  rewrite He, Ht. cbn [applyExtents]. eexists. split; [reflexivity|]. done.
Qed.

Lemma extents_stored_before_failure_witness :
  ∃ w1,
    performJsonUpdate joinSlash posixBasename [] (worldWith (InventoryDoc tilelessDoc))
      = Throws w1 ∧
    sampleBounds (project w1) = extentBounds sampleExtents ∧
    IProject.input_source_state (project w1) = Pipeline ∧
    fs w1 = fs (worldWith (InventoryDoc tilelessDoc)) ∧
    tileTable w1 = tileTable (worldWith (InventoryDoc tilelessDoc)).
Proof.
  apply (extents_stored_before_failure joinSlash posixBasename []
           (worldWith (InventoryDoc tilelessDoc))
           "/nrs/sample/pipeline-input.json" Pipeline tilelessDoc sampleExtents).
  - vm_compute. reflexivity.
  - vm_compute. reflexivity.
  - vm_compute. reflexivity.
  - reflexivity.
  - reflexivity.
  - reflexivity.
Defined.

(** X8. The published state follows the name of the chosen file, the parser
    follows its content: whichever of the two files is chosen, the inventory
    returned is made by the pipeline parser when the document carries
    [pipelineFormat] and by the dashboard parser when it does not, while the
    state is [Pipeline] for [pipeline-input.json] and [Dashboard] for
    [dashboard.json]. *)
Theorem state_by_name_parser_by_content path_join path_basename driveMapping w
    dataFile state jsonContent inventory w' :
  let root := mapRoot driveMapping (IProject.root_path (project w)) in
  existsSync w root = true →
  selectedInput path_join w root = Some (dataFile, state) →
  fs w !! dataFile = Some (File (InventoryDoc jsonContent)) →
  performJsonUpdate path_join path_basename driveMapping w = Returns inventory w' →
  IProject.input_source_state (project w') = state ∧
  (state = Pipeline ∧ dataFile = path_join root pipelineInputJsonFile ∨
   state = Dashboard ∧ dataFile = path_join root dashboardJsonFile) ∧
  inventory =
    if isNullOrUndefined (pipelineFormat jsonContent)
    then tileMap jsonContent ≫= λ group, dashboardTile path_basename <$> group.2
    else pipelineTile path_basename <$> default [] (tiles jsonContent).
Proof.
  intros root Hroot Hsel Hf Hp.
  pose proof (parseAndStore_state path_join path_basename root dataFile
                (updateProject state w)) as Hs.
  rewrite (performJsonUpdate_selected _ _ _ _ Hroot) in Hp. fold root in Hp.
  rewrite Hsel in Hp. rewrite Hp in Hs. cbn [worldOf] in Hs.
  split; [exact Hs|]. split.
  - unfold selectedInput in Hsel.
    destruct (existsSync w (path_join root pipelineInputJsonFile)).
    + injection Hsel as <- <-. by left.
    + destruct (existsSync w (path_join root dashboardJsonFile)); [|done].
      injection Hsel as <- <-. by right.
  - apply parseAndStore_Returns in Hp as ((pu & w1 & Hparse) & _).
    apply (parsePipelineInput_tiles _ _ _ _ _ _ _ jsonContent) in Hparse; [|done].
    rewrite Hparse. unfold documentTiles.
    by destruct (isNullOrUndefined (pipelineFormat jsonContent)).
Qed.

(** A [pipeline-input.json] that holds a document in the dashboard format. *)
Lemma state_by_name_parser_by_content_witness :
  IProject.input_source_state
    (project (worldOf (performJsonUpdate joinSlash posixBasename []
                         (worldWith (InventoryDoc dashboardDoc))))) = Pipeline ∧
  (Pipeline = Pipeline ∧
   "/nrs/sample/pipeline-input.json"%string
     = joinSlash (mapRoot [] "/nrs/sample") pipelineInputJsonFile ∨
   Pipeline = Dashboard ∧
   "/nrs/sample/pipeline-input.json"%string
     = joinSlash (mapRoot [] "/nrs/sample") dashboardJsonFile) ∧
  tileMap dashboardDoc ≫= (λ group, dashboardTile posixBasename <$> group.2) =
    if isNullOrUndefined (pipelineFormat dashboardDoc)
    then tileMap dashboardDoc ≫= λ group, dashboardTile posixBasename <$> group.2
    else pipelineTile posixBasename <$> default [] (tiles dashboardDoc).
Proof.
  apply (state_by_name_parser_by_content joinSlash posixBasename []
           (worldWith (InventoryDoc dashboardDoc))
           "/nrs/sample/pipeline-input.json" Pipeline dashboardDoc
           (tileMap dashboardDoc ≫= λ group, dashboardTile posixBasename <$> group.2)
           (worldOf (performJsonUpdate joinSlash posixBasename []
                       (worldWith (InventoryDoc dashboardDoc))))).
  - vm_compute. reflexivity.
  - vm_compute. reflexivity.
  - vm_compute. reflexivity.
  - vm_compute. reflexivity.
Defined.

Lemma performJsonUpdate_frame path_join path_basename driveMapping w tiles w' :
  performJsonUpdate path_join path_basename driveMapping w = Returns tiles w' →
  IProject.root_path (project w') = IProject.root_path (project w) ∧
  (∀ p, p ≠ path_join (mapRoot driveMapping (IProject.root_path (project w)))
              tileStatusJsonFile →
        p ≠ path_join (mapRoot driveMapping (IProject.root_path (project w)))
              tileStatusLastJsonFile →
        fs w' !! p = fs w !! p) ∧
  (∀ p, existsSync w p = true → existsSync w' p = true).
Proof.
  intros Hp.
  set (root := mapRoot driveMapping (IProject.root_path (project w))) in *.
  assert (Hcases :
    (fs w' = fs w ∧ IProject.root_path (project w') = IProject.root_path (project w)) ∨
    ∃ dataFile state,
      parseAndStore path_join path_basename root dataFile (updateProject state w)
        = Returns tiles w').
  { unfold performJsonUpdate in Hp. fold root in Hp.
    destruct (existsSync w root); cbn [negb] in Hp;
      [|left; by injection Hp as <- <-].
    destruct (existsSync w (path_join root pipelineInputJsonFile)); cbn [negb] in Hp;
      [right; eauto|].
    destruct (existsSync w (path_join root dashboardJsonFile)); cbn [negb] in Hp;
      [right; eauto|left; by injection Hp as <- <-]. }
  destruct Hcases as [[Hfs Hr]|(dataFile & state & Hps)].
  - split; [done|]. split; [intros; by rewrite Hfs|].
    intros p. unfold existsSync. by rewrite Hfs.
  - pose proof (parseAndStore_frame _ _ _ _ _ _ _ Hps) as (Hr & Hframe & _).
    pose proof (parseAndStore_Returns _ _ _ _ _ _ _ Hps) as (_ & _ & Hout & Hbak).
    cbn [updateProject fs project IProject.root_path] in *.
    split; [done|]. split; [done|].
    intros p Hex. unfold existsSync in *. apply bool_decide_eq_true in Hex.
    apply bool_decide_eq_true.
    destruct (decide (p = path_join root tileStatusJsonFile)) as [->|Hno];
      [by rewrite Hout|].
    destruct (decide (p = path_join root tileStatusLastJsonFile)) as [->|Hnb];
      [|by rewrite Hframe].
    destruct (fs w !! path_join root tileStatusJsonFile) as [node|] eqn:Hnode.
    + by rewrite (Hbak Hno node eq_refl).
    + pose proof (parseAndStore_frame _ _ _ _ _ _ _ Hps) as (_ & _ & Hkeep).
      cbn [updateProject fs] in Hkeep. by rewrite (Hkeep Hnode Hno).
Qed.

(** X9. The snapshot and its backup over two passes.  After a pass that
    found an inventory file, [pipeline-storage.json] holds the inventory it
    returned.  The next pass then finds an inventory file again, writes its
    own inventory to [pipeline-storage.json] and leaves the inventory of the
    first pass in [pipeline-storage.json.last].  A pass that finds no
    snapshot writes one and leaves [pipeline-storage.json.last] as it is. *)
Theorem snapshot_rotation path_join path_basename driveMapping w t1 w1 t2 w2 :
  let root := mapRoot driveMapping (IProject.root_path (project w)) in
  let outputFile := path_join root tileStatusJsonFile in
  let backupFile := path_join root tileStatusLastJsonFile in
  performJsonUpdate path_join path_basename driveMapping w = Returns t1 w1 →
  performJsonUpdate path_join path_basename driveMapping w1 = Returns t2 w2 →
  inventoryFound path_join w root = true →
  backupFile ≠ outputFile →
  fs w1 !! outputFile = Some (File (TileVector t1)) ∧
  fs w2 !! outputFile = Some (File (TileVector t2)) ∧
  fs w2 !! backupFile = Some (File (TileVector t1)) ∧
  (fs w !! outputFile = None → fs w1 !! backupFile = fs w !! backupFile).
Proof.
  intros root outputFile backupFile H1 H2 Hfound Hne.
  destruct (inventoryFound_selected _ _ _ Hfound) as [Hroot [[dataFile state] Hsel]].
  pose proof (performJsonUpdate_frame _ _ _ _ _ _ H1) as (Hrp & _ & Hex).
  assert (Hroot1 : mapRoot driveMapping (IProject.root_path (project w1)) = root).
  { by rewrite Hrp. }
  rewrite (performJsonUpdate_selected _ _ _ _ Hroot) in H1. fold root in H1.
  rewrite Hsel in H1.
  pose proof (parseAndStore_Returns _ _ _ _ _ _ _ H1) as (_ & _ & Hout1 & _).
  pose proof (parseAndStore_frame _ _ _ _ _ _ _ H1) as (_ & _ & Hkeep1).
  fold outputFile backupFile in Hout1, Hkeep1. cbn [updateProject fs] in Hkeep1.
  assert (Hfound1 : inventoryFound path_join w1 root = true).
  { unfold inventoryFound in *. apply andb_true_iff in Hfound as [Hr Hf].
    apply andb_true_iff. split; [by apply Hex|].
    apply orb_true_iff in Hf as [Hf|Hf]; apply orb_true_iff;
      [left|right]; by apply Hex. }
  destruct (inventoryFound_selected _ _ _ Hfound1) as [Hroot1' [[dataFile1 state1] Hsel1]].
  rewrite performJsonUpdate_selected in H2 by (by rewrite Hroot1).
  rewrite Hroot1, Hsel1 in H2.
  pose proof (parseAndStore_Returns _ _ _ _ _ _ _ H2) as (_ & _ & Hout2 & Hbak2).
  fold outputFile backupFile in Hout2, Hbak2. cbn [updateProject fs] in Hbak2.
  split; [done|]. split; [done|]. split; [by apply Hbak2|].
  intros Hnone. by apply Hkeep1.
Qed.

(** Two passes over the tree of scenario S4. *)
Lemma snapshot_rotation_witness :
  let w1 := worldOf (performJsonUpdate joinSlash posixBasename [] guardTripWorld) in
  let w2 := worldOf (performJsonUpdate joinSlash posixBasename [] w1) in
  fs w1 !! "/nrs/sample/pipeline-storage.json"%string
    = Some (File (TileVector [pipelineTile posixBasename (jsonTile 0 "0" false)])) ∧
  fs w2 !! "/nrs/sample/pipeline-storage.json"%string
    = Some (File (TileVector [pipelineTile posixBasename (jsonTile 0 "0" false)])) ∧
  fs w2 !! "/nrs/sample/pipeline-storage.json.last"%string
    = Some (File (TileVector [pipelineTile posixBasename (jsonTile 0 "0" false)])) ∧
  (fs guardTripWorld !! "/nrs/sample/pipeline-storage.json"%string = None →
   fs w1 !! "/nrs/sample/pipeline-storage.json.last"%string
     = fs guardTripWorld !! "/nrs/sample/pipeline-storage.json.last"%string).
Proof.
  apply (snapshot_rotation joinSlash posixBasename [] guardTripWorld
           [pipelineTile posixBasename (jsonTile 0 "0" false)]
           (worldOf (performJsonUpdate joinSlash posixBasename [] guardTripWorld))
           [pipelineTile posixBasename (jsonTile 0 "0" false)]
           (worldOf (performJsonUpdate joinSlash posixBasename []
              (worldOf (performJsonUpdate joinSlash posixBasename [] guardTripWorld))))).
  - vm_compute. reflexivity.
  - vm_compute. reflexivity.
  - vm_compute. reflexivity.
  - vm_compute. discriminate.
Defined.

(** X10. A second pass over an unchanged tree returns the same inventory:
    when the snapshot and its backup are paths other than the root and the
    two inventory files, [performJsonUpdate] run again after a pass that
    returned reads the same file and returns the same tile vector; the
    snapshot and its backup then hold the same vector. *)
Theorem second_pass_same_inventory path_join path_basename driveMapping w t1 w1 t2 w2 :
  let root := mapRoot driveMapping (IProject.root_path (project w)) in
  let outputFile := path_join root tileStatusJsonFile in
  let backupFile := path_join root tileStatusLastJsonFile in
  performJsonUpdate path_join path_basename driveMapping w = Returns t1 w1 →
  performJsonUpdate path_join path_basename driveMapping w1 = Returns t2 w2 →
  (∀ p, p ∈ [root; path_join root pipelineInputJsonFile;
             path_join root dashboardJsonFile] →
        p ≠ outputFile ∧ p ≠ backupFile) →
  backupFile ≠ outputFile →
  t2 = t1 ∧
  (inventoryFound path_join w root = true →
   fs w2 !! outputFile = Some (File (TileVector t1)) ∧
   fs w2 !! backupFile = Some (File (TileVector t1))).
Proof.
  intros root outputFile backupFile H1 H2 Hdist Hne.
  pose proof (performJsonUpdate_frame _ _ _ _ _ _ H1) as (Hrp & Hframe & _).
  fold root outputFile backupFile in Hframe.
  assert (Hroot1 : mapRoot driveMapping (IProject.root_path (project w1)) = root).
  { by rewrite Hrp. }
  assert (Hsame : ∀ p, p ∈ [root; path_join root pipelineInputJsonFile;
                            path_join root dashboardJsonFile] →
                       fs w1 !! p = fs w !! p).
  { intros p Hp. destruct (Hdist p Hp). by apply Hframe. }
  assert (Hex : ∀ p, p ∈ [root; path_join root pipelineInputJsonFile;
                          path_join root dashboardJsonFile] →
                     existsSync w1 p = existsSync w p).
  { intros p Hp. unfold existsSync. by rewrite (Hsame p Hp). }
  assert (Hin0 : root ∈ [root; path_join root pipelineInputJsonFile;
                         path_join root dashboardJsonFile]) by apply list_elem_of_here.
  assert (Hin1 : path_join root pipelineInputJsonFile
                 ∈ [root; path_join root pipelineInputJsonFile;
                    path_join root dashboardJsonFile]).
  { apply list_elem_of_further, list_elem_of_here. }
  assert (Hin2 : path_join root dashboardJsonFile
                 ∈ [root; path_join root pipelineInputJsonFile;
                    path_join root dashboardJsonFile]).
  { do 2 apply list_elem_of_further. apply list_elem_of_here. }
  assert (Heq : t2 = t1).
  { unfold performJsonUpdate in H1, H2. rewrite Hroot1 in H2. fold root in H1.
    rewrite (Hex _ Hin0), (Hex _ Hin1), (Hex _ Hin2) in H2.
    destruct (existsSync w root); cbn [negb] in H1, H2;
      [|injection H1 as <- _; by injection H2 as <- _].
    assert (Hparse : ∀ dataFile state,
      dataFile ∈ [root; path_join root pipelineInputJsonFile;
                  path_join root dashboardJsonFile] →
      parseAndStore path_join path_basename root dataFile (updateProject state w)
        = Returns t1 w1 →
      parseAndStore path_join path_basename root dataFile (updateProject state w1)
        = Returns t2 w2 → t2 = t1).
    { intros dataFile state Hd Ha Hb.
      apply parseAndStore_Returns in Ha as ((pu & wa & Ha) & _).
      apply parseAndStore_Returns in Hb as ((pu' & wb & Hb) & _).
      destruct (parsePipelineInput_doc _ _ _ _ _ _ Ha) as [jsonContent Hdoc].
      rewrite (parsePipelineInput_tiles _ _ _ _ _ _ _ jsonContent Hdoc Ha).
      apply (parsePipelineInput_tiles _ _ _ _ _ _ _ jsonContent) in Hb; [done|].
      cbn [updateProject fs] in *. by rewrite (Hsame _ Hd). }
    destruct (existsSync w (path_join root pipelineInputJsonFile)); cbn [negb] in H1, H2;
      [by apply (Hparse _ _ Hin1 H1 H2)|].
    destruct (existsSync w (path_join root dashboardJsonFile)); cbn [negb] in H1, H2;
      [by apply (Hparse _ _ Hin2 H1 H2)|].
    injection H1 as <- _. by injection H2 as <- _. }
  split; [done|]. intros Hfound.
  destruct (inventoryFound_selected _ _ _ Hfound) as [Hroot [[dataFile state] Hsel]].
  assert (Hfound1 : inventoryFound path_join w1 root = true).
  { unfold inventoryFound in *. by rewrite (Hex _ Hin0), (Hex _ Hin1), (Hex _ Hin2). }
  destruct (inventoryFound_selected _ _ _ Hfound1) as [Hroot1' [[dataFile1 state1] Hsel1]].
  rewrite (performJsonUpdate_selected _ _ _ _ Hroot) in H1. fold root in H1.
  rewrite Hsel in H1.
  pose proof (parseAndStore_Returns _ _ _ _ _ _ _ H1) as (_ & _ & Hout1 & _).
  rewrite performJsonUpdate_selected in H2 by (by rewrite Hroot1).
  rewrite Hroot1, Hsel1 in H2.
  pose proof (parseAndStore_Returns _ _ _ _ _ _ _ H2) as (_ & _ & Hout2 & Hbak2).
  fold outputFile backupFile in Hout1, Hout2, Hbak2. cbn [updateProject fs] in Hbak2.
  rewrite <- Heq. split; [by rewrite Hout2, Heq|]. rewrite Heq. by apply Hbak2.
Qed.

Lemma second_pass_same_inventory_witness :
  let w1 := worldOf (performJsonUpdate joinSlash posixBasename [] firstIngestWorld) in
  let w2 := worldOf (performJsonUpdate joinSlash posixBasename [] w1) in
  pipelineTile posixBasename <$> default [] (tiles firstIngestDoc)
    = pipelineTile posixBasename <$> default [] (tiles firstIngestDoc) ∧
  (inventoryFound joinSlash firstIngestWorld (mapRoot [] "/nrs/sample") = true →
   fs w2 !! "/nrs/sample/pipeline-storage.json"%string
     = Some (File (TileVector (pipelineTile posixBasename
                                 <$> default [] (tiles firstIngestDoc)))) ∧
   fs w2 !! "/nrs/sample/pipeline-storage.json.last"%string
     = Some (File (TileVector (pipelineTile posixBasename
                                 <$> default [] (tiles firstIngestDoc))))).
Proof.
  apply (second_pass_same_inventory joinSlash posixBasename [] firstIngestWorld
           (pipelineTile posixBasename <$> default [] (tiles firstIngestDoc))
           (worldOf (performJsonUpdate joinSlash posixBasename [] firstIngestWorld))
           (pipelineTile posixBasename <$> default [] (tiles firstIngestDoc))
           (worldOf (performJsonUpdate joinSlash posixBasename []
              (worldOf (performJsonUpdate joinSlash posixBasename [] firstIngestWorld))))).
  - vm_compute. reflexivity.
  - vm_compute. reflexivity.
  - intros p Hp. repeat (apply elem_of_cons in Hp as [->|Hp]);
      [| | |by apply elem_of_nil in Hp]; split; vm_compute; discriminate.
  - vm_compute. discriminate.
Defined.

Lemma documentTiles_fresh path_basename jsonContent t :
  t ∈ documentTiles path_basename jsonContent →
  prev_stage_status t = this_stage_status t ∧
  (this_stage_status t = Complete ∨ this_stage_status t = Incomplete) ∧
  tile_name t = path_basename (relative_path t) ∧
  duration t = None ∧ cpu_high t = None ∧ memory_high t = None ∧
  created_at t = None ∧ updated_at t = None.
Proof.
  unfold documentTiles. destruct (negb _).
  - intros H. apply list_elem_of_fmap in H as (tile & -> & _). cbn.
    split; [done|]. split; [|done]. destruct (IJsonTile.isComplete tile); auto.
  - intros H. apply list_elem_of_bind in H as (group & H & _).
    apply list_elem_of_fmap in H as (tile & -> & _). cbn.
    split; [done|]. split; [|done]. destruct (IDashboardJsonTile.isComplete tile); auto.
Qed.

(** X11. Every tile that the parsers return, from either format, is a
    stage-zero tile: its two statuses are equal and are [Complete] or
    [Incomplete], its name is the basename of its normalized path, and it
    carries no aggregates and no timestamps.  There is one tile per tile
    record of the document. *)
Theorem parsed_tiles_fresh path_basename dataFile projectUpdate w
    projectUpdate' parsed w' :
  parsePipelineInput path_basename dataFile projectUpdate w
    = Returns (projectUpdate', parsed) w' →
  (∃ jsonContent,
     fs w !! dataFile = Some (File (InventoryDoc jsonContent)) ∧
     length parsed = length (documentPaths jsonContent)) ∧
  ∀ t, t ∈ parsed →
    prev_stage_status t = this_stage_status t ∧
    (this_stage_status t = Complete ∨ this_stage_status t = Incomplete) ∧
    tile_name t = path_basename (relative_path t) ∧
    duration t = None ∧ cpu_high t = None ∧ memory_high t = None ∧
    created_at t = None ∧ updated_at t = None.
Proof.
  intros H. destruct (parsePipelineInput_doc _ _ _ _ _ _ H) as [jsonContent Hdoc].
  rewrite (parsePipelineInput_tiles _ _ _ _ _ _ _ jsonContent Hdoc H). split.
  - exists jsonContent. split; [done|]. unfold documentTiles, documentPaths.
    destruct (negb _); [by rewrite !length_fmap|].
    induction (tileMap jsonContent) as [|group groups IH]; [done|].
    by rewrite !bind_cons, !length_app, !length_fmap, IH.
  - intros t. apply documentTiles_fresh.
Qed.

Lemma parsed_tiles_fresh_witness :
  (∃ jsonContent,
     fs firstIngestWorld !! "/nrs/sample/pipeline-input.json"%string
       = Some (File (InventoryDoc jsonContent)) ∧
     length (pipelineTile posixBasename <$> default [] (tiles firstIngestDoc))
       = length (documentPaths jsonContent)) ∧
  ∀ t, t ∈ pipelineTile posixBasename <$> default [] (tiles firstIngestDoc) →
    prev_stage_status t = this_stage_status t ∧
    (this_stage_status t = Complete ∨ this_stage_status t = Incomplete) ∧
    tile_name t = posixBasename (relative_path t) ∧
    duration t = None ∧ cpu_high t = None ∧ memory_high t = None ∧
    created_at t = None ∧ updated_at t = None.
Proof.
  apply (parsed_tiles_fresh posixBasename "/nrs/sample/pipeline-input.json"
           (projectUpdateOf firstIngestWorld) firstIngestWorld
           (projectUpdateOf firstIngestWorld)
           (pipelineTile posixBasename <$> default [] (tiles firstIngestDoc))
           firstIngestWorld).
  vm_compute. reflexivity.
Defined.

(** X12. Normalizing a path is idempotent, leaves exactly the paths without
    a backslash unchanged, and goes through concatenation: a path that is
    already in posix form is its own [relative_path]. *)
Theorem replaceBackslashes_idempotent s1 s2 :
  replaceBackslashes (replaceBackslashes s1) = replaceBackslashes s1 ∧
  (replaceBackslashes s1 = s1 ↔ noBackslash s1) ∧
  replaceBackslashes (s1 +:+ s2) = replaceBackslashes s1 +:+ replaceBackslashes s2.
Proof.
  split; [|split].
  - apply replaceBackslashes_fixed, replaceBackslashes_noBackslash.
  - split; [|apply replaceBackslashes_fixed].
    intros <-. apply replaceBackslashes_noBackslash.
  - induction s1 as [|c s1 IH]; [done|].
    change (String c s1 +:+ s2) with (String c (s1 +:+ s2)).
    cbn [replaceBackslashes]. rewrite IH. reflexivity.
Qed.

(** X13. A tick that finds no inventory file.  When the mapped root, or
    both inventory files in it, do not exist, [performJsonUpdate] returns an
    empty inventory without touching the disk or the persisted table, and
    publishes [BadLocation] or [Missing].  Of that inventory and the
    persisted rows the muxer makes a plan that deletes every persisted
    path; only a table of more than 1000 rows is kept, by the guard. *)
Theorem missing_inventory_deletes_all path_join path_basename driveMapping clock w :
  inventoryFound path_join w
    (mapRoot driveMapping (IProject.root_path (project w))) = false →
  ∃ w',
    performJsonUpdate path_join path_basename driveMapping w = Returns [] w' ∧
    fs w' = fs w ∧ tileTable w' = tileTable w ∧
    (IProject.input_source_state (project w') = BadLocation ∨
     IProject.input_source_state (project w') = Missing) ∧
    muxInputOutputTiles clock [] (tileTable w')
      = if decide (length (tileTable w) ≤ 1000)%nat
        then MuxPlan {| toInsert := []; toUpdate := []; toReset := [];
                        toDelete := keys (tileTable w) |} (tileTable w)
        else MuxNoPlan.
Proof.
  intros Hnone.
  assert (∀ l, muxInputOutputTiles clock [] l
               = if decide (length l ≤ 1000)%nat
                 then MuxPlan {| toInsert := []; toUpdate := []; toReset := [];
                                 toDelete := keys l |} l
                 else MuxNoPlan) as Hmux.
  { intros l. destruct (decide (length l ≤ 1000)%nat) as [Hl|Hl].
    - unfold muxInputOutputTiles. rewrite decide_False by (cbn [length]; lia).
      by rewrite differenceBy_nil_r.
    - apply mux_guard. unfold guardFires. cbn [length]. lia. }
  unfold inventoryFound in Hnone. unfold performJsonUpdate.
  destruct (existsSync w (mapRoot driveMapping (IProject.root_path (project w))));
    cbn [negb andb] in *.
  - apply orb_false_iff in Hnone as [-> ->]. cbn [negb].
    exists (updateProject Missing w). repeat split; [by right|apply Hmux].
  - exists (updateProject BadLocation w). repeat split; [by left|apply Hmux].
Qed.

Lemma missing_inventory_deletes_all_witness :
  ∃ w',
    performJsonUpdate joinSlash posixBasename [] missingRootWorld = Returns [] w' ∧
    fs w' = fs missingRootWorld ∧ tileTable w' = tileTable missingRootWorld ∧
    (IProject.input_source_state (project w') = BadLocation ∨
     IProject.input_source_state (project w') = Missing) ∧
    muxInputOutputTiles tickingClock [] (tileTable w')
      = if decide (length (tileTable missingRootWorld) ≤ 1000)%nat
        then MuxPlan {| toInsert := []; toUpdate := []; toReset := [];
                        toDelete := keys (tileTable missingRootWorld) |}
               (tileTable missingRootWorld)
        else MuxNoPlan.
Proof.
  apply (missing_inventory_deletes_all joinSlash posixBasename [] tickingClock
           missingRootWorld).
  vm_compute. reflexivity.
Defined.

(** ** The writer's error paths *)

Lemma parsePipelineInput_parsable path_basename dataFile projectUpdate w :
  parsable w dataFile →
  ∃ projectUpdate' tiles w1,
    parsePipelineInput path_basename dataFile projectUpdate w
      = Returns (projectUpdate', tiles) w1.
Proof.
  intros (jsonContent & Hf & Hp). unfold parsePipelineInput. rewrite Hf.
  destruct (negb (isNullOrUndefined (pipelineFormat jsonContent))).
  - unfold parsePipelineDefaultInput. destruct (applyExtents _ _ _) as [pu w1].
    destruct Hp as [ts ->]. by eexists _, _, _.
  - unfold parseDashboardInput. destruct Hp as [e ->].
    destruct (applyExtents _ _ _) as [pu w1]. by eexists _, _, _.
Qed.

(** How [writeTileStatus] ends, by what is at the snapshot and backup
    paths. *)
Lemma writeTileStatus_outcome path_join root tiles w :
  path_join root tileStatusLastJsonFile ≠ path_join root tileStatusJsonFile →
  match fs w !! path_join root tileStatusJsonFile with
  | None => ∃ w', writeTileStatus path_join root tiles w = Returns tiles w'
  | Some (File _) =>
      match fs w !! path_join root tileStatusLastJsonFile with
      | Some Directory => writeTileStatus path_join root tiles w = Throws w
      | _ => ∃ w', writeTileStatus path_join root tiles w = Returns tiles w'
      end
  | Some Directory =>
      ∃ w', writeTileStatus path_join root tiles w = Throws w' ∧
            tileTable w' = tileTable w ∧ project w' = project w ∧
            fs w' !! path_join root tileStatusJsonFile = Some Directory
  end.
Proof.
  intros Hne. unfold writeTileStatus, existsSync, copySync.
  set (outputFile := path_join root tileStatusJsonFile) in *.
  set (backupFile := path_join root tileStatusLastJsonFile) in *.
  destruct (fs w !! outputFile) as [[|content]|] eqn:Ho.
  - rewrite bool_decide_eq_true_2 by by eexists.
    destruct (fs w !! backupFile) as [?|].
    + rewrite Ho. by eexists.
    + rewrite lookup_insert_ne, Ho by done. eexists. repeat split.
      cbn [setFs fs]. by rewrite lookup_insert_ne.
  - rewrite bool_decide_eq_true_2 by by eexists.
    destruct (fs w !! backupFile) as [[|?]|]; [done| |];
      rewrite lookup_insert_ne, Ho by done; by eexists.
  - rewrite bool_decide_eq_false_2 by (intros [? ?]; done).
    rewrite Ho. by eexists.
Qed.

(** X19. When [performJsonUpdate] returns.  With the root and a parsable
    inventory file in place, the call returns exactly when the snapshot path
    is not a directory and, if there is a snapshot, the backup path is not a
    directory either.  Otherwise it throws, after the state has been
    published: the tile-status table and the snapshot path are as they were,
    and when it is the backup path that is a directory nothing on disk has
    changed. *)
Theorem performJsonUpdate_returns_iff path_join path_basename driveMapping w
    dataFile state :
  let root := mapRoot driveMapping (IProject.root_path (project w)) in
  let outputFile := path_join root tileStatusJsonFile in
  let backupFile := path_join root tileStatusLastJsonFile in
  existsSync w root = true →
  selectedInput path_join w root = Some (dataFile, state) →
  parsable w dataFile →
  backupFile ≠ outputFile →
  ((∃ tiles w1,
      performJsonUpdate path_join path_basename driveMapping w = Returns tiles w1) ↔
   fs w !! outputFile ≠ Some Directory ∧
   (is_Some (fs w !! outputFile) → fs w !! backupFile ≠ Some Directory)) ∧
  (∀ w1, performJsonUpdate path_join path_basename driveMapping w = Throws w1 →
     tileTable w1 = tileTable w ∧
     IProject.input_source_state (project w1) = state ∧
     fs w1 !! outputFile = fs w !! outputFile ∧
     (fs w !! outputFile ≠ Some Directory → fs w1 = fs w)).
Proof.
  intros root outputFile backupFile Hroot Hsel Hpars Hne.
  rewrite (performJsonUpdate_selected _ _ _ _ Hroot). fold root. rewrite Hsel.
  unfold parseAndStore.
  assert (parsable (updateProject state w) dataFile) as Hpars' by exact Hpars.
  destruct (parsePipelineInput_parsable path_basename dataFile
              (projectUpdateOf (updateProject state w)) _ Hpars')
    as (pu & tiles & w0 & Hparse).
  pose proof (parsePipelineInput_sameStorage path_basename dataFile
                (projectUpdateOf (updateProject state w)) (updateProject state w))
    as (Hfs & Htab & Hst).
  rewrite Hparse in *. cbn [worldOf updateProject fs tileTable project
                            IProject.input_source_state] in Hfs, Htab, Hst.
  pose proof (writeTileStatus_outcome path_join root tiles w0 Hne) as Hout.
  fold outputFile backupFile in Hout. rewrite Hfs in Hout.
  destruct (fs w !! outputFile) as [[|content]|] eqn:Ho.
  - destruct Hout as (w' & -> & Ht & Hp & Hd). split.
    + split; [by intros (? & ? & ?)|]. by intros [? _].
    + intros w1 [= <-]. rewrite Ht, Hp. repeat split; [done..|].
      intros ?; done.
  - destruct (fs w !! backupFile) as [[|?]|] eqn:Hb.
    + rewrite Hout. split.
      * split; [by intros (? & ? & ?)|]. intros [_ H]. exfalso. by apply H.
      * intros w1 [= <-]. rewrite Hfs, Ho. by repeat split.
    + destruct Hout as (w' & ->). split; [|done].
      split; [|by eexists _, _]. intros _. split; [done|]. by intros _.
    + destruct Hout as (w' & ->). split; [|done].
      split; [|by eexists _, _]. intros _. split; [done|]. by intros _.
  - destruct Hout as (w' & ->). split; [|done].
    split; [|by eexists _, _]. intros _. split; [done|]. by intros [? ?].
Qed.

Lemma performJsonUpdate_returns_iff_witness :
  ((∃ tiles w1,
      performJsonUpdate joinSlash posixBasename [] backupDirectoryWorld
        = Returns tiles w1) ↔
   fs backupDirectoryWorld !! "/nrs/sample/pipeline-storage.json"%string
     ≠ Some Directory ∧
   (is_Some (fs backupDirectoryWorld !! "/nrs/sample/pipeline-storage.json"%string) →
    fs backupDirectoryWorld !! "/nrs/sample/pipeline-storage.json.last"%string
      ≠ Some Directory)) ∧
  (∀ w1, performJsonUpdate joinSlash posixBasename [] backupDirectoryWorld = Throws w1 →
     tileTable w1 = tileTable backupDirectoryWorld ∧
     IProject.input_source_state (project w1) = Pipeline ∧
     fs w1 !! "/nrs/sample/pipeline-storage.json"%string
       = fs backupDirectoryWorld !! "/nrs/sample/pipeline-storage.json"%string ∧
     (fs backupDirectoryWorld !! "/nrs/sample/pipeline-storage.json"%string
        ≠ Some Directory →
      fs w1 = fs backupDirectoryWorld)).
Proof.
  apply (performJsonUpdate_returns_iff joinSlash posixBasename [] backupDirectoryWorld
           "/nrs/sample/pipeline-input.json" Pipeline).
  - vm_compute. reflexivity.
  - vm_compute. reflexivity.
  - exists firstIngestDoc. split; vm_compute; [reflexivity | by eexists].
  - discriminate.
Defined.

(** The pass over [backupDirectoryWorld] throws and leaves the disk alone. *)
Example backupDirectory_throws :
  ∃ w1, performJsonUpdate joinSlash posixBasename [] backupDirectoryWorld = Throws w1 ∧
        fs w1 = fs backupDirectoryWorld.
Proof. eexists. split; vm_compute; reflexivity. Qed.

(** ** The completion intake *)

(** ** Facts about abandoned and running deliveries *)

(** What the [n]-th and later calls of [acknowledgeMessage] leave behind:
    [k] refused rounds, followed by the rejected, accepted or unobserved
    call. *)
Lemma acknowledgeMessage_shape fuel env taskExecution n :
  ∃ k tail s,
    acknowledgeMessage fuel env taskExecution n
      = (refusedRounds k taskExecution ++ tail, s) ∧
    (∀ j, (j < k)%nat →
       writeTaskExecution (env (n + j)%nat) = Fulfilled () ∧
       onTaskExecutionComplete (env (n + j)%nat) = Fulfilled false) ∧
    ((k = fuel ∧ tail = [] ∧ s = Retrying) ∨
     ((k < fuel)%nat ∧ writeTaskExecution (env (n + k)%nat) = Rejected ∧
      tail = [EvUnhandledRejection] ∧ s = Abandoned) ∨
     ((k < fuel)%nat ∧ writeTaskExecution (env (n + k)%nat) = Fulfilled () ∧
      onTaskExecutionComplete (env (n + k)%nat) = Rejected ∧
      tail = [EvWriteTaskExecution taskExecution; EvUnhandledRejection] ∧
      s = Abandoned) ∨
     ((k < fuel)%nat ∧ writeTaskExecution (env (n + k)%nat) = Fulfilled () ∧
      onTaskExecutionComplete (env (n + k)%nat) = Fulfilled true ∧
      tail = [EvWriteTaskExecution taskExecution;
              EvOnTaskExecutionComplete taskExecution true] ∧
      s = Resolved)).
Proof.
  revert n. induction fuel as [|fuel IH]; intros n.
  - exists 0%nat, [], Retrying. split; [done|]. split; [intros; lia|]. by left.
  - cbn [acknowledgeMessage].
    destruct (writeTaskExecution (env n)) as [[]|] eqn:Hw.
    + destruct (onTaskExecutionComplete (env n)) as [[|]|] eqn:Hh.
      * exists 0%nat, [EvWriteTaskExecution taskExecution;
                       EvOnTaskExecutionComplete taskExecution true], Resolved.
        rewrite Nat.add_0_r. split; [done|]. split; [intros; lia|].
        right; right; right. repeat split; [lia|done..].
      * destruct (IH (S n)) as (k & tail & s & -> & Hr & Hc).
        exists (S k), tail, s. split; [done|]. split.
        { intros [|j] Hj; [by rewrite Nat.add_0_r|].
          replace (n + S j)%nat with (S n + j)%nat by lia. apply Hr. lia. }
        replace (n + S k)%nat with (S n + k)%nat by lia.
        destruct Hc as [(-> & -> & ->)|[(? & ? & ? & ?)|[(? & ? & ? & ? & ?)|(? & ? & ? & ? & ?)]]].
        -- by left.
        -- right; left. repeat split; [lia|done..].
        -- right; right; left. repeat split; [lia|done..].
        -- right; right; right. repeat split; [lia|done..].
      * exists 0%nat, [EvWriteTaskExecution taskExecution; EvUnhandledRejection],
          Abandoned.
        rewrite Nat.add_0_r. split; [done|]. split; [intros; lia|].
        right; right; left. repeat split; [lia|done..].
    + exists 0%nat, [EvUnhandledRejection], Abandoned.
      rewrite Nat.add_0_r. split; [done|]. split; [intros; lia|].
      right; left. repeat split; [lia|done].
Qed.

Lemma count_nil p : count p [] = 0%nat.
Proof. done. Qed.

Lemma count_cons p e l :
  count p (e :: l) = ((if p e then 1 else 0) + count p l)%nat.
Proof.
  unfold count. rewrite filter_cons. destruct (p e); [|by rewrite decide_False].
  by rewrite decide_True.
Qed.

Ltac count_events :=
  rewrite ?count_app, ?count_cons, ?count_nil;
  cbn [isTimer isWrite isHandled isAck]; try lia.

Ltac split_invariants :=
  split; [|split; [|split; [|split; [|split; [|split]]]]].

Lemma count_timers k taskExecution :
  count isTimer (refusedRounds k taskExecution) = k.
Proof.
  induction k as [|k IH]; [done|].
  cbn [refusedRounds]. by rewrite count_app, IH.
Qed.

Lemma elem_of_refusedRounds k taskExecution e :
  e ∈ refusedRounds k taskExecution →
  e = EvWriteTaskExecution taskExecution ∨
  e = EvOnTaskExecutionComplete taskExecution false ∨ e = EvSetTimeout.
Proof.
  induction k as [|k IH]; cbn [refusedRounds]; intros H.
  - by apply elem_of_nil in H.
  - apply elem_of_app in H as [H|H]; [|by apply IH].
    unfold refusedRound in H.
    repeat (apply elem_of_cons in H as [->|H]; [by auto|]).
    by apply elem_of_nil in H.
Qed.

(** An abandoned promise: [k] refused rounds, then a call in which one of
    the collaborators rejects. *)
Lemma acknowledgeMessage_Abandoned fuel env taskExecution n k :
  (∀ j, (j < k)%nat →
     writeTaskExecution (env (n + j)%nat) = Fulfilled () ∧
     onTaskExecutionComplete (env (n + j)%nat) = Fulfilled false) →
  (k < fuel)%nat →
  (writeTaskExecution (env (n + k)%nat) = Rejected →
   acknowledgeMessage fuel env taskExecution n
     = (refusedRounds k taskExecution ++ [EvUnhandledRejection], Abandoned)) ∧
  (writeTaskExecution (env (n + k)%nat) = Fulfilled () →
   onTaskExecutionComplete (env (n + k)%nat) = Rejected →
   acknowledgeMessage fuel env taskExecution n
     = (refusedRounds k taskExecution
          ++ [EvWriteTaskExecution taskExecution; EvUnhandledRejection], Abandoned)).
Proof.
  revert n fuel. induction k as [|k IH]; intros n fuel Hr Hlt.
  - destruct fuel as [|fuel]; [lia|]. rewrite Nat.add_0_r. cbn.
    split; [by intros ->|]. by intros -> ->.
  - destruct fuel as [|fuel]; [lia|]. cbn [acknowledgeMessage].
    destruct (Hr 0%nat) as [Hw Hh]; [lia|]. rewrite Nat.add_0_r in Hw, Hh.
    rewrite Hw, Hh.
    destruct (IH (S n) fuel) as [IH1 IH2]; [|lia|].
    { intros j Hj. replace (S n + j)%nat with (n + S j)%nat by lia. apply Hr. lia. }
    replace (S n + k)%nat with (n + S k)%nat in IH1, IH2 by lia.
    split.
    + intros H. by rewrite (IH1 H).
    + intros H1 H2. by rewrite (IH2 H1 H2).
Qed.

(** X14. A rejection by the metrics sink or by the hub, in the first call
    or in a retry, abandons the delivery: the promise of [handleOneMessage]
    stays pending, so the callback neither acknowledges the delivery nor
    reaches its [catch] block, and no further retry is scheduled however
    long one observes.  A rejected hub dispatch has had its metrics write. *)
Theorem rejection_abandons_delivery fuel env msg taskExecution k :
  content msg = Some taskExecution →
  (∀ j, (j < k)%nat →
     writeTaskExecution (env j) = Fulfilled () ∧
     onTaskExecutionComplete (env j) = Fulfilled false) →
  writeTaskExecution (env k) = Rejected ∨
    onTaskExecutionComplete (env k) = Rejected →
  (k < fuel)%nat →
  ∃ tail,
    consumeCallback fuel env msg
      = refusedRounds k taskExecution ++ tail ++ [EvUnhandledRejection] ∧
    tail = match writeTaskExecution (env k) with
           | Rejected => []
           | Fulfilled _ => [EvWriteTaskExecution taskExecution]
           end ∧
    (handleOneMessage fuel env taskExecution).2 = Abandoned ∧
    count isAck (consumeCallback fuel env msg) = 0%nat ∧
    count isTimer (consumeCallback fuel env msg) = k ∧
    EvDebug ∉ consumeCallback fuel env msg.
Proof.
  intros Hc Hr Hk Hlt.
  destruct (acknowledgeMessage_Abandoned fuel env taskExecution 0 k Hr Hlt)
    as [H1 H2]. cbn [Nat.add] in H1, H2.
  unfold consumeCallback, handleOneMessage. rewrite Hc.
  destruct (writeTaskExecution (env k)) as [[]|] eqn:Hw.
  - destruct Hk as [Hk|Hk]; [done|].
    rewrite (H2 eq_refl Hk). exists [EvWriteTaskExecution taskExecution].
    split; [done|]. split; [done|]. split; [done|].
    rewrite !(count_app _ (refusedRounds _ _)), count_timers.
    destruct (count_refusedRounds k taskExecution) as (_ & _ & ->).
    split; [count_events|]. split; [count_events|].
    intros H. apply elem_of_app in H as [H|H].
    + by destruct (elem_of_refusedRounds _ _ _ H) as [?|[?|?]].
    + repeat (apply elem_of_cons in H as [?|H]; [done|]). by apply elem_of_nil in H.
  - rewrite (H1 eq_refl). exists [].
    split; [done|]. split; [done|]. split; [done|].
    rewrite !(count_app _ (refusedRounds _ _)), count_timers.
    destruct (count_refusedRounds k taskExecution) as (_ & _ & ->).
    split; [count_events|]. split; [count_events|].
    intros H. apply elem_of_app in H as [H|H].
    + by destruct (elem_of_refusedRounds _ _ _ H) as [?|[?|?]].
    + repeat (apply elem_of_cons in H as [?|H]; [done|]). by apply elem_of_nil in H.
Qed.

Lemma rejection_abandons_delivery_witness :
  ∃ tail,
    consumeCallback 9 metricsRejectAt2 sampleMessage
      = refusedRounds 2 sampleTaskExecution ++ tail ++ [EvUnhandledRejection] ∧
    tail = match writeTaskExecution (metricsRejectAt2 2) with
           | Rejected => []
           | Fulfilled _ => [EvWriteTaskExecution sampleTaskExecution]
           end ∧
    (handleOneMessage 9 metricsRejectAt2 sampleTaskExecution).2 = Abandoned ∧
    count isAck (consumeCallback 9 metricsRejectAt2 sampleMessage) = 0%nat ∧
    count isTimer (consumeCallback 9 metricsRejectAt2 sampleMessage) = 2%nat ∧
    EvDebug ∉ consumeCallback 9 metricsRejectAt2 sampleMessage.
Proof.
  apply (rejection_abandons_delivery 9 metricsRejectAt2 sampleMessage
           sampleTaskExecution 2).
  - reflexivity.
  - intros j Hj. unfold metricsRejectAt2. cbn.
    rewrite bool_decide_eq_false_2 by lia. done.
  - left. reflexivity.
  - lia.
Defined.

(** X15. Whatever the collaborators answer and however long one observes,
    the processing of one delivery acknowledges exactly as often as the hub
    accepts, at most once, as its last event and with the tag of the
    delivery; it writes metrics once per call, one call per timer plus the
    first; and every write and dispatch carries the parsed payload. *)
Theorem consume_trace_invariants fuel env msg :
  count isAck (consumeCallback fuel env msg)
    = count isHandled (consumeCallback fuel env msg) ∧
  (count isHandled (consumeCallback fuel env msg) ≤ 1)%nat ∧
  (count isTimer (consumeCallback fuel env msg)
     ≤ count isWrite (consumeCallback fuel env msg))%nat ∧
  (count isWrite (consumeCallback fuel env msg)
     ≤ count isTimer (consumeCallback fuel env msg) + 1)%nat ∧
  (count isWrite (consumeCallback fuel env msg) ≤ fuel)%nat ∧
  (∀ tag, EvAck tag ∈ consumeCallback fuel env msg →
     tag = deliveryTag msg ∧
     last (consumeCallback fuel env msg) = Some (EvAck tag)) ∧
  (∀ taskExecution,
     EvWriteTaskExecution taskExecution ∈ consumeCallback fuel env msg ∨
     (∃ ack, EvOnTaskExecutionComplete taskExecution ack
               ∈ consumeCallback fuel env msg) →
     content msg = Some taskExecution).
Proof.
  unfold consumeCallback, handleOneMessage.
  destruct (content msg) as [taskExecution2|].
  2:{ split_invariants; try (count_events; fail).
      - intros tag H. apply list_elem_of_singleton in H. done.
      - intros taskExecution [H|[ack H]]; apply list_elem_of_singleton in H; done. }
  destruct (acknowledgeMessage_shape fuel env taskExecution2 0)
    as (k & tail & s & -> & _ & Hc).
  destruct (count_refusedRounds k taskExecution2) as (Hw & Hh & Ha).
  pose proof (count_timers k taskExecution2) as Ht.
  assert (∀ e, e ∈ refusedRounds k taskExecution2 → isAck e = false) as Hno.
  { intros e He. by destruct (elem_of_refusedRounds _ _ _ He) as [-> | [-> | ->]]. }
  assert (∀ taskExecution l,
            (∀ e, e ∈ l → e = EvWriteTaskExecution taskExecution2 ∨
               (∃ ack, e = EvOnTaskExecutionComplete taskExecution2 ack) ∨
               e = EvUnhandledRejection ∨ (∃ tag, e = EvAck tag)) →
            EvWriteTaskExecution taskExecution ∈ refusedRounds k taskExecution2 ++ l ∨
            (∃ ack, EvOnTaskExecutionComplete taskExecution ack
                      ∈ refusedRounds k taskExecution2 ++ l) →
            Some taskExecution2 = Some taskExecution) as Hpay.
  { intros taskExecution l Hl [H|[ack H]]; apply elem_of_app in H as [H|H].
    - destruct (elem_of_refusedRounds _ _ _ H) as [E|[E|E]]; congruence.
    - destruct (Hl _ H) as [E|[[? E]|[E|[? E]]]]; congruence.
    - destruct (elem_of_refusedRounds _ _ _ H) as [E|[E|E]]; congruence.
    - destruct (Hl _ H) as [E|[[? E]|[E|[? E]]]]; congruence. }
  destruct Hc as [(-> & -> & ->)|[(Hlt & _ & -> & ->)|[(Hlt & _ & _ & -> & ->)
    |(Hlt & _ & _ & -> & ->)]]].
  - rewrite app_nil_r, Hw, Hh, Ha, Ht.
    split_invariants; try lia.
    + intros tag H. apply Hno in H. done.
    + intros taskExecution H. rewrite <- (app_nil_r (refusedRounds _ _)) in H.
      apply (Hpay taskExecution []); [|done].
      intros e He. by apply elem_of_nil in He.
  - rewrite !(count_app _ (refusedRounds _ _)), Hw, Hh, Ha, Ht.
    split_invariants; try (count_events; fail).
    + intros tag H. apply elem_of_app in H as [H|H]; [by apply Hno in H|].
      by apply list_elem_of_singleton in H.
    + intros taskExecution. apply Hpay. intros e He.
      apply list_elem_of_singleton in He. auto.
  - rewrite !(count_app _ (refusedRounds _ _)), Hw, Hh, Ha, Ht.
    split_invariants; try (count_events; fail).
    + intros tag H. apply elem_of_app in H as [H|H]; [by apply Hno in H|].
      repeat (apply elem_of_cons in H as [?|H]; [done|]). by apply elem_of_nil in H.
    + intros taskExecution. apply Hpay. intros e He.
      repeat (apply elem_of_cons in He as [->|He]; [by eauto|]).
      by apply elem_of_nil in He.
  - rewrite !(count_app _ (_ ++ _)), !(count_app _ (refusedRounds _ _)), Hw, Hh, Ha, Ht.
    assert (∀ tag,
              EvAck tag ∈ (refusedRounds k taskExecution2
                ++ [EvWriteTaskExecution taskExecution2;
                    EvOnTaskExecutionComplete taskExecution2 true])
                ++ [EvAck (deliveryTag msg)] →
              tag = deliveryTag msg) as Hone.
    { intros tag H. apply elem_of_app in H as [H|H].
      - apply elem_of_app in H as [H|H]; [by apply Hno in H|].
        repeat (apply elem_of_cons in H as [?|H]; [done|]). by apply elem_of_nil in H.
      - apply list_elem_of_singleton in H. congruence. }
    split_invariants; try (count_events; fail).
    + intros tag H. apply Hone in H as ->. split; [done|]. by rewrite last_snoc.
    + intros taskExecution. rewrite <- app_assoc. apply Hpay. intros e He.
      repeat (apply elem_of_cons in He as [->|He]; [by eauto|]).
      by apply elem_of_nil in He.
Qed.

(** ** Facts about the connection set-up *)

Lemma occurrences_app e l1 l2 :
  occurrences e (l1 ++ l2) = (occurrences e l1 + occurrences e l2)%nat.
Proof. unfold occurrences. by rewrite filter_app, length_app. Qed.

Lemma occurrences_cons e e' l :
  occurrences e (e' :: l)
    = ((if bool_decide (e' = e) then 1 else 0) + occurrences e l)%nat.
Proof.
  unfold occurrences. rewrite filter_cons.
  destruct (decide (e' = e)) as [E|E].
  - by rewrite bool_decide_eq_true_2.
  - by rewrite bool_decide_eq_false_2.
Qed.

(** Where a subscription stands in the calls of one run: [H] equates the
    calls with [pre ++ Consume _ _ _ :: _]. *)
Ltac split_calls H pre :=
  do 8 (try (destruct pre as [|? pre]; simpl in H;
             [try discriminate H;
              try (injection H as <- <- <- _;
                   repeat split; apply list_elem_of_In; simpl; auto 10)
             |try discriminate H; injection H as <- H]));
  try discriminate H; try (by destruct pre).

(** A run of the [try] block reaches [resolve()] exactly when no call
    throws, and then both fields belong to that run. *)
Lemma tryBlock_Ready n self :
  tryBlock Ready n self
    = (readyRun n, {| connection := Some n; channel := Some n |}, true).
Proof. reflexivity. Qed.

Lemma tryBlock_failed broker n self :
  broker ≠ Ready →
  ∃ calls self',
    tryBlock broker n self = (calls, self', false) ∧
    occurrences AmqpConnect calls = 1%nat ∧
    occurrences ResolveConnect calls = 0%nat ∧
    occurrences (SetTimeout 15000) calls = 0%nat ∧
    (∀ pre post c q a, calls = pre ++ Consume c q a :: post →
       c = n ∧ q = TaskExecutionUpdateQueue ∧ a = false ∧
       CreateChannel c ∈ pre ∧ OnError c ∈ pre ∧
       AssertQueue c TaskExecutionUpdateQueue true ∈ pre ∧ Prefetch c 50 ∈ pre).
Proof.
  intros Hb.
  destruct broker; [..|done]; eexists _, _;
    (split; [reflexivity|]); (split; [reflexivity|]);
    (split; [reflexivity|]); (split; [reflexivity|]);
    intros pre post c q a H;
    split_calls H pre.
Qed.

Lemma occurrences_readyRun n :
  occurrences (SetTimeout 15000) (readyRun n) = 0%nat ∧
  occurrences AmqpConnect (readyRun n) = 1%nat ∧
  occurrences ResolveConnect (readyRun n) = 1%nat.
Proof. repeat split. Qed.

Lemma readyRun_subscription n pre post c q a :
  readyRun n = pre ++ Consume c q a :: post →
  c = n ∧ q = TaskExecutionUpdateQueue ∧ a = false ∧
  CreateChannel c ∈ pre ∧ OnError c ∈ pre ∧
  AssertQueue c TaskExecutionUpdateQueue true ∈ pre ∧ Prefetch c 50 ∈ pre.
Proof.
  unfold readyRun. intros H.
  split_calls H pre.
Qed.

(** The runs before the first one that goes through. *)
Lemma connectToQueue_Resolved fuel broker n self k :
  broker (n + k)%nat = Ready →
  (∀ j, (j < k)%nat → broker (n + j)%nat ≠ Ready) →
  (k < fuel)%nat →
  ∃ failed,
    connectToQueue fuel broker n self
      = (failed ++ readyRun (n + k),
         {| connection := Some (n + k)%nat; channel := Some (n + k)%nat |},
         Resolved) ∧
    occurrences (SetTimeout 15000) failed = k ∧
    occurrences AmqpConnect failed = k ∧
    occurrences ResolveConnect failed = 0%nat.
Proof.
  revert n self fuel. induction k as [|k IH]; intros n self fuel Hk Hj Hlt.
  - destruct fuel as [|fuel]; [lia|]. rewrite Nat.add_0_r in *.
    cbn [connectToQueue]. rewrite Hk, tryBlock_Ready. by exists [].
  - destruct fuel as [|fuel]; [lia|]. cbn [connectToQueue].
    destruct (tryBlock_failed (broker n) n self)
      as (calls & self' & -> & Hc1 & Hc2 & Hc3 & _).
    { specialize (Hj 0%nat). rewrite Nat.add_0_r in Hj. apply Hj. lia. }
    destruct (IH (S n) self' fuel) as (failed & -> & Hf1 & Hf2 & Hf3); [| |lia|].
    { by replace (S n + k)%nat with (n + S k)%nat by lia. }
    { intros j ?. replace (S n + j)%nat with (n + S j)%nat by lia. apply Hj. lia. }
    replace (S n + k)%nat with (n + S k)%nat by lia.
    exists (calls ++ SetTimeout (15 * 1000) :: failed).
    split; [by rewrite <- app_assoc|].
    rewrite !occurrences_app, !occurrences_cons, Hc1, Hc2, Hc3, Hf1, Hf2, Hf3.
    repeat split; cbn; lia.
Qed.

Lemma connectToQueue_outcome fuel broker n self :
  match (connectToQueue fuel broker n self).2 with
  | Resolved =>
      ∃ k, (k < fuel)%nat ∧ broker (n + k)%nat = Ready ∧
        (∀ j, (j < k)%nat → broker (n + j)%nat ≠ Ready) ∧
        (connectToQueue fuel broker n self).1.2
          = {| connection := Some (n + k)%nat; channel := Some (n + k)%nat |}
  | Retrying =>
      (∀ j, (j < fuel)%nat → broker (n + j)%nat ≠ Ready) ∧
      occurrences (SetTimeout 15000) (connectToQueue fuel broker n self).1.1 = fuel ∧
      occurrences AmqpConnect (connectToQueue fuel broker n self).1.1 = fuel ∧
      occurrences ResolveConnect (connectToQueue fuel broker n self).1.1 = 0%nat
  | Abandoned => False
  end.
Proof.
  revert n self. induction fuel as [|fuel IH]; intros n self.
  - cbn. split; [intros; lia|done].
  - cbn [connectToQueue]. destruct (decide (broker n = Ready)) as [E|E].
    + rewrite E, tryBlock_Ready. cbn. exists 0%nat. rewrite Nat.add_0_r.
      split; [lia|]. split; [done|]. split; [intros; lia|done].
    + destruct (tryBlock_failed (broker n) n self E)
        as (calls & self' & -> & Hc1 & Hc2 & Hc3 & _).
      specialize (IH (S n) self').
      destruct (connectToQueue fuel broker (S n) self') as [[rest self''] s].
      cbn [fst snd] in *. destruct s; [| |].
      * destruct IH as (k & Hk & Hr & Hj & ->). exists (S k).
        replace (n + S k)%nat with (S n + k)%nat by lia.
        split; [lia|]. split; [done|]. split; [|done].
        intros [|j] ?; [by rewrite Nat.add_0_r|].
        replace (n + S j)%nat with (S n + j)%nat by lia. apply Hj. lia.
      * done.
      * destruct IH as (Hj & H1 & H2 & H3). split.
        { intros [|j] ?; [by rewrite Nat.add_0_r|].
          replace (n + S j)%nat with (S n + j)%nat by lia. apply Hj. lia. }
        rewrite !occurrences_app, !occurrences_cons, Hc1, Hc2, Hc3, H1, H2, H3.
        repeat split; cbn; lia.
Qed.

Lemma connectToQueue_subscription fuel broker n self pre post c q a :
  (connectToQueue fuel broker n self).1.1 = pre ++ Consume c q a :: post →
  q = TaskExecutionUpdateQueue ∧ a = false ∧
  CreateChannel c ∈ pre ∧ OnError c ∈ pre ∧
  AssertQueue c TaskExecutionUpdateQueue true ∈ pre ∧ Prefetch c 50 ∈ pre.
Proof.
  revert n self pre. induction fuel as [|fuel IH]; intros n self pre.
  - cbn. intros H. by destruct pre.
  - cbn [connectToQueue]. destruct (decide (broker n = Ready)) as [E|E].
    + rewrite E, tryBlock_Ready. cbn [fst snd]. intros H.
      by destruct (readyRun_subscription _ _ _ _ _ _ H) as (_ & ?).
    + destruct (tryBlock_failed (broker n) n self E)
        as (calls & self' & -> & _ & _ & _ & Hcalls).
      specialize (IH (S n) self').
      destruct (connectToQueue fuel broker (S n) self') as [[rest self''] s].
      cbn [fst snd] in *. intros H.
      apply app_eq_inv in H as [(l & H1 & H2)|(l & H1 & H2)].
      * destruct l as [|e l]; [done|]. injection H2 as <- H2.
        by destruct (Hcalls _ _ _ _ _ H1) as (_ & ?).
      * destruct l as [|e l]; [done|]. injection H2 as <- H2.
        destruct (IH _ H2) as (? & ? & ? & ? & ? & ?). subst pre.
        repeat split; [done..| | | |];
          apply elem_of_app; right; by apply list_elem_of_further.
Qed.

(** ** Properties of the connection set-up *)

(** X16. [connect] resolves at the first run in which no broker call
    throws, if that run is observed: [k] failed runs, each followed by one
    timer of 15 s, then the run that opens connection and channel [k],
    subscribes and resolves; the fields then hold that connection and that
    channel, and [resolve] has been called once, as the last call. *)
Theorem connect_resolves_at_first_ready fuel broker self k :
  broker k = Ready →
  (∀ j, (j < k)%nat → broker j ≠ Ready) →
  (k < fuel)%nat →
  ∃ failed,
    connect fuel broker self
      = (failed ++ readyRun k,
         {| connection := Some k; channel := Some k |}, Resolved) ∧
    occurrences (SetTimeout 15000) (connect fuel broker self).1.1 = k ∧
    occurrences AmqpConnect (connect fuel broker self).1.1 = S k ∧
    occurrences ResolveConnect (connect fuel broker self).1.1 = 1%nat ∧
    last (connect fuel broker self).1.1 = Some ResolveConnect.
Proof.
  intros Hk Hj Hlt. unfold connect.
  destruct (connectToQueue_Resolved fuel broker 0 self k Hk Hj Hlt)
    as (failed & -> & H1 & H2 & H3).
  cbn [Nat.add fst snd]. exists failed. split; [done|].
  destruct (occurrences_readyRun k) as (R1 & R2 & R3).
  rewrite !occurrences_app, H1, H2, H3, R1, R2, R3.
  repeat split; [lia..|].
  unfold readyRun.
  change [AmqpConnect; CreateChannel k; OnError k;
          AssertQueue k TaskExecutionUpdateQueue true; Prefetch k 50;
          Consume k TaskExecutionUpdateQueue false; ResolveConnect]
    with ([AmqpConnect; CreateChannel k; OnError k;
           AssertQueue k TaskExecutionUpdateQueue true; Prefetch k 50;
           Consume k TaskExecutionUpdateQueue false] ++ [ResolveConnect]).
  by rewrite app_assoc, last_snoc.
Qed.

Lemma connect_resolves_at_first_ready_witness :
  ∃ failed,
    connect 5 readyAt3 {| connection := None; channel := None |}
      = (failed ++ readyRun 3,
         {| connection := Some 3%nat; channel := Some 3%nat |}, Resolved) ∧
    occurrences (SetTimeout 15000)
      (connect 5 readyAt3 {| connection := None; channel := None |}).1.1 = 3%nat ∧
    occurrences AmqpConnect
      (connect 5 readyAt3 {| connection := None; channel := None |}).1.1 = 4%nat ∧
    occurrences ResolveConnect
      (connect 5 readyAt3 {| connection := None; channel := None |}).1.1 = 1%nat ∧
    last (connect 5 readyAt3 {| connection := None; channel := None |}).1.1
      = Some ResolveConnect.
Proof.
  apply (connect_resolves_at_first_ready 5 readyAt3
           {| connection := None; channel := None |} 3).
  - reflexivity.
  - intros [|[|[|j]]] Hj; [done..|lia].
  - lia.
Defined.

(** X17. [connect] is resolved only by a run in which no broker call
    throws: when the promise is resolved, the broker was ready in some
    observed run and in none before it, and the fields hold that run's
    connection and channel; as long as no run has gone through, every
    observed run has ended in a timer of 15 s and [resolve] has not been
    called.  The promise is never abandoned: every throw inside the [try]
    block is caught. *)
Theorem connect_resolved_only_when_ready fuel broker self :
  match (connect fuel broker self).2 with
  | Resolved =>
      ∃ k, (k < fuel)%nat ∧ broker k = Ready ∧
        (∀ j, (j < k)%nat → broker j ≠ Ready) ∧
        (connect fuel broker self).1.2
          = {| connection := Some k; channel := Some k |}
  | Retrying =>
      (∀ j, (j < fuel)%nat → broker j ≠ Ready) ∧
      occurrences (SetTimeout 15000) (connect fuel broker self).1.1 = fuel ∧
      occurrences AmqpConnect (connect fuel broker self).1.1 = fuel ∧
      occurrences ResolveConnect (connect fuel broker self).1.1 = 0%nat
  | Abandoned => False
  end.
Proof. apply (connectToQueue_outcome fuel broker 0 self). Qed.

(** X18. Whatever the broker does, a subscription is made only on the
    queue [TaskExecutionUpdateQueue] with manual acknowledgement
    ([noAck: false]), and only after the same run has opened the channel,
    registered the error handler on its connection, declared the queue
    durable and set the prefetch window to 50. *)
Theorem subscription_prepared fuel broker self pre post c q a :
  (connect fuel broker self).1.1 = pre ++ Consume c q a :: post →
  q = TaskExecutionUpdateQueue ∧ a = false ∧
  CreateChannel c ∈ pre ∧ OnError c ∈ pre ∧
  AssertQueue c TaskExecutionUpdateQueue true ∈ pre ∧ Prefetch c 50 ∈ pre.
Proof. apply connectToQueue_subscription. Qed.

Lemma subscription_prepared_witness :
  TaskExecutionUpdateQueue = TaskExecutionUpdateQueue ∧ false = false ∧
  CreateChannel 0 ∈ [AmqpConnect; CreateChannel 0; OnError 0;
     AssertQueue 0 TaskExecutionUpdateQueue true; Prefetch 0 50] ∧
  OnError 0 ∈ [AmqpConnect; CreateChannel 0; OnError 0;
     AssertQueue 0 TaskExecutionUpdateQueue true; Prefetch 0 50] ∧
  AssertQueue 0 TaskExecutionUpdateQueue true ∈ [AmqpConnect; CreateChannel 0;
     OnError 0; AssertQueue 0 TaskExecutionUpdateQueue true; Prefetch 0 50] ∧
  Prefetch 0 50 ∈ [AmqpConnect; CreateChannel 0; OnError 0;
     AssertQueue 0 TaskExecutionUpdateQueue true; Prefetch 0 50].
Proof.
  apply (subscription_prepared 1 (λ _, Ready)
           {| connection := None; channel := None |}
           [AmqpConnect; CreateChannel 0; OnError 0;
            AssertQueue 0 TaskExecutionUpdateQueue true; Prefetch 0 50]
           [ResolveConnect] 0%nat TaskExecutionUpdateQueue false).
  reflexivity.
Defined.
